(** * Shannon stream cipher (shannon-es, [src/index.ts]): a shallow embedding

    The engine of [src/index.ts] is translated function by function.
    JavaScript numbers that hold integers are modelled as [Z]; every bitwise
    operator converts its operands with [ToInt32] (or [ToUint32] for [>>>])
    and wraps its result, exactly as ECMAScript prescribes.  [Int32Array] and
    [Uint8Array] are lists whose stores wrap the stored value and whose
    out-of-range stores are ignored; an out-of-range load yields [undefined],
    which every use in the source feeds to a bitwise operator, where it
    counts as [0]. *)

From Stdlib Require Import ZArith List Lia Bool Btauto.
Import ListNotations.
Local Open Scope Z_scope.

(** ** JavaScript integer primitives *)

Module JS.

Definition toInt32 (x : Z) : Z := (x + 2 ^ 31) mod 2 ^ 32 - 2 ^ 31.
Definition toUint32 (x : Z) : Z := x mod 2 ^ 32.
Definition toUint8 (x : Z) : Z := x mod 2 ^ 8.

(** The shift count of [<<], [>>] and [>>>] is taken modulo 32. *)
Definition count (k : Z) : Z := Z.land k 31.

Definition bxor (a b : Z) : Z := Z.lxor (toInt32 a) (toInt32 b).  (* a ^ b *)
Definition bor (a b : Z) : Z := Z.lor (toInt32 a) (toInt32 b).    (* a | b *)
Definition band (a b : Z) : Z := Z.land (toInt32 a) (toInt32 b).  (* a & b *)
Definition bnot (a : Z) : Z := Z.lnot (toInt32 a).                (* ~a *)
Definition shl (a k : Z) : Z := toInt32 (Z.shiftl (toInt32 a) (count k)). (* a << k *)
Definition sar (a k : Z) : Z := Z.shiftr (toInt32 a) (count k).   (* a >> k *)
Definition shr (a k : Z) : Z := Z.shiftr (toUint32 a) (count k).  (* a >>> k *)

(** [while (c) { b }], bounded by [fuel] iterations. *)
Fixpoint while {A : Type} (fuel : nat) (c : A -> bool) (b : A -> A) (a : A) : A :=
  match fuel with
  | O => a
  | S fuel' => if c a then while fuel' c b (b a) else a
  end.

(** [for (i = lo; i < lo + len; i++) { b i }]. *)
Definition for_ {A : Type} (lo len : nat) (b : nat -> A -> A) (a : A) : A :=
  fold_left (fun acc i => b i acc) (seq lo len) a.

(** Typed arrays. *)
Fixpoint upd (i : nat) (v : Z) (l : list Z) : list Z :=
  match l, i with
  | [], _ => []
  | _ :: l', O => v :: l'
  | x :: l', S i' => x :: upd i' v l'
  end.

Definition get (a : list Z) (i : nat) : Z := nth i a 0.
Definition set32 (a : list Z) (i : nat) (v : Z) : list Z := upd i (toInt32 v) a.
Definition set8 (a : list Z) (i : nat) (v : Z) : list Z := upd i (toUint8 v) a.
Definition newArray (n : nat) : list Z := repeat 0 n.

End JS.
Import JS.

(** ** Constants and the two nonlinear word transforms *)

Definition N : nat := 16.
Definition FOLD : nat := N.
Definition INITKONST : Z := 0x6996c53a.
Definition KEYP : nat := 13.

Definition rotateLeft (i distance : Z) : Z :=
  bor (shl i distance) (shr i (- distance)).

Definition sbox (i : Z) : Z :=
  let i := bxor i (bor (rotateLeft i 5) (rotateLeft i 7)) in
  let i := bxor i (bor (rotateLeft i 19) (rotateLeft i 22)) in
  i.

Definition sbox2 (i : Z) : Z :=
  let i := bxor i (bor (rotateLeft i 7) (rotateLeft i 22)) in
  let i := bxor i (bor (rotateLeft i 5) (rotateLeft i 19)) in
  i.

(** ** Engine state *)

Record Shannon : Type := mkShannon {
  R : list Z;       (* Int32Array(N): the shift register *)
  CRC : list Z;     (* Int32Array(N): CRC accumulation *)
  initR : list Z;   (* Int32Array(N): saved register contents *)
  konst : Z;
  sbuf : Z;
  mbuf : Z;
  nbuf : Z
}.

Definition set_R (s : Shannon) (r : list Z) : Shannon :=
  mkShannon r (CRC s) (initR s) (konst s) (sbuf s) (mbuf s) (nbuf s).
Definition set_CRC (s : Shannon) (c : list Z) : Shannon :=
  mkShannon (R s) c (initR s) (konst s) (sbuf s) (mbuf s) (nbuf s).
Definition set_initR (s : Shannon) (r : list Z) : Shannon :=
  mkShannon (R s) (CRC s) r (konst s) (sbuf s) (mbuf s) (nbuf s).
Definition set_konst (s : Shannon) (k : Z) : Shannon :=
  mkShannon (R s) (CRC s) (initR s) k (sbuf s) (mbuf s) (nbuf s).
Definition set_sbuf (s : Shannon) (v : Z) : Shannon :=
  mkShannon (R s) (CRC s) (initR s) (konst s) v (mbuf s) (nbuf s).
Definition set_mbuf (s : Shannon) (v : Z) : Shannon :=
  mkShannon (R s) (CRC s) (initR s) (konst s) (sbuf s) v (nbuf s).
Definition set_nbuf (s : Shannon) (v : Z) : Shannon :=
  mkShannon (R s) (CRC s) (initR s) (konst s) (sbuf s) (mbuf s) v.

(** The field initialisers of the class. *)
Definition fresh : Shannon :=
  mkShannon (newArray N) (newArray N) (newArray N) 0 0 0 0.

(** ** Register cycle and MAC accumulation *)

Definition cycle (s : Shannon) : Shannon :=
  let t := bxor (bxor (get (R s) 12) (get (R s) 13)) (konst s) in
  let t := bxor (sbox t) (rotateLeft (get (R s) 0) 1) in
  let r := for_ 1 (N - 1) (fun i r => set32 r (i - 1) (get r i)) (R s) in
  let r := set32 r (N - 1) t in
  let t := sbox2 (bxor (get r 2) (get r 15)) in
  let r := set32 r 0 (bxor (get r 0) t) in
  set_sbuf (set_R s r) (bxor (bxor t (get r 8)) (get r 12)).

Definition crcFunc (s : Shannon) (i : Z) : Shannon :=
  let c := CRC s in
  let t := bxor (bxor (bxor (get c 0) (get c 2)) (get c 15)) i in
  let c := for_ 1 (N - 1) (fun j c => set32 c (j - 1) (get c j)) c in
  set_CRC s (set32 c (N - 1) t).

Definition macFunc (s : Shannon) (i : Z) : Shannon :=
  let s := crcFunc s i in
  set_R s (set32 (R s) KEYP (bxor (get (R s) KEYP) i)).

(** ** Key and nonce scheduling *)

Definition initState (s : Shannon) : Shannon :=
  let r := set32 (R s) 0 1 in
  let r := set32 r 1 1 in
  let r := for_ 2 (N - 2) (fun i r => set32 r i (get r (i - 1) + get r (i - 2))) r in
  set_konst (set_R s r) INITKONST.

Definition saveState (s : Shannon) : Shannon :=
  set_initR s (for_ 0 N (fun i a => set32 a i (get (R s) i)) (initR s)).

Definition reloadState (s : Shannon) : Shannon :=
  set_R s (for_ 0 N (fun i a => set32 a i (get (initR s) i)) (R s)).

Definition genKonst (s : Shannon) : Shannon := set_konst s (get (R s) 0).

Definition addKey (s : Shannon) (k : Z) : Shannon :=
  set_R s (set32 (R s) KEYP (bxor (get (R s) KEYP) k)).

Definition diffuse (s : Shannon) : Shannon :=
  for_ 0 FOLD (fun _ s => cycle s) s.

(** Little-endian assembly of four bytes, as written four times in the
    source: [((b3 & 0xFF) << 24) | ((b2 & 0xFF) << 16) | ((b1 & 0xFF) << 8) | (b0 & 0xFF)]. *)
Definition word_of_bytes (b0 b1 b2 b3 : Z) : Z :=
  bor (bor (bor (shl (band b3 0xFF) 24) (shl (band b2 0xFF) 16))
           (shl (band b1 0xFF) 8))
      (band b0 0xFF).

Definition len (b : list Z) : Z := Z.of_nat (length b).

Definition loadKey (s : Shannon) (_key : list Z) : Shannon :=
  let extra := newArray 4 in
  (* Start folding key. *)
  let '(s, i) :=
    while (length _key)
      (fun '(s, i) => Z.of_nat i <? band (len _key) (bnot 0x03))
      (fun '(s, i) =>
         let t := word_of_bytes (get _key i) (get _key (i + 1))
                                (get _key (i + 2)) (get _key (i + 3)) in
         (cycle (addKey s t), (i + 4)%nat))
      (s, 0%nat) in
  (* If there were any extra bytes, zero pad to a word. *)
  let s :=
    if Z.of_nat i <? len _key then
      let '(extra, i, j) :=
        while (length _key)
          (fun '(extra, i, j) => Z.of_nat i <? len _key)
          (fun '(extra, i, j) => (set8 extra j (get _key i), S i, S j))
          (extra, i, 0%nat) in
      let '(extra, j) :=
        while 4
          (fun '(extra, j) => Z.of_nat j <? 4)
          (fun '(extra, j) => (set8 extra j 0, S j))
          (extra, j) in
      let t := word_of_bytes (get extra 0) (get extra 1) (get extra 2) (get extra 3) in
      cycle (addKey s t)
    else s in
  (* Also fold in the length of the key. *)
  let s := cycle (addKey s (len _key)) in
  (* Save a copy of the register. *)
  let s := set_CRC s (for_ 0 N (fun i c => set32 c i (get (R s) i)) (CRC s)) in
  (* Now diffuse. *)
  let s := diffuse s in
  (* Now XOR the copy back -- makes key loading irreversible. *)
  set_R s (for_ 0 N (fun i r => set32 r i (bxor (get r i) (get (CRC s) i))) (R s)).

Definition key (s : Shannon) (_key : list Z) : Shannon :=
  let s := initState s in
  let s := loadKey s _key in
  let s := genKonst s in
  let s := saveState s in
  set_nbuf s 0.

Definition nonce (s : Shannon) (_nonce : list Z) : Shannon :=
  let s := reloadState s in
  let s := set_konst s INITKONST in
  let s := loadKey s _nonce in
  let s := genKonst s in
  set_nbuf s 0.

Definition nonce32 (s : Shannon) (nonce_ : Z) : Shannon :=
  let b := newArray 4 in
  let b := set8 b 0 (band (sar nonce_ 24) 0xFF) in
  let b := set8 b 1 (band (sar nonce_ 16) 0xFF) in
  let b := set8 b 2 (band (sar nonce_ 8) 0xFF) in
  let b := set8 b 3 (band nonce_ 0xFF) in
  nonce s b.

(** [new Shannon(key?)]: a [Uint8Array] is truthy whatever its length. *)
Definition new (key_ : option (list Z)) : Shannon :=
  match key_ with
  | Some k => key fresh k
  | None => fresh
  end.

(** ** Caller buffers

    A transform receives [buffer] and [output]; by default [output] is the
    very same array as [buffer].  [output = None] records that aliasing: a
    store through either name is then seen through both. *)

Record Bufs : Type := mkBufs {
  buffer : list Z;            (* Uint8Array *)
  output : option (list Z)    (* Uint8Array; None: the same object as buffer *)
}.

Definition rd_buffer (m : Bufs) (i : nat) : Z := get (buffer m) i.

Definition rd_output (m : Bufs) (i : nat) : Z :=
  match output m with
  | None => get (buffer m) i
  | Some o => get o i
  end.

Definition wr_buffer (m : Bufs) (i : nat) (v : Z) : Bufs :=
  mkBufs (set8 (buffer m) i v) (output m).

Definition wr_output (m : Bufs) (i : nat) (v : Z) : Bufs :=
  match output m with
  | None => mkBufs (set8 (buffer m) i v) None
  | Some o => mkBufs (buffer m) (Some (set8 o i v))
  end.

(** The array a transform returns. *)
Definition returned (m : Bufs) : list Z :=
  match output m with
  | None => buffer m
  | Some o => o
  end.

(** Locals of a transform while it runs: the engine, the caller's arrays,
    the index [i] and the remaining count [n]. *)
Record Frame : Type := mkFrame {
  eng : Shannon;
  mem : Bufs;
  ix : nat;
  cnt : Z
}.

Definition set_eng (f : Frame) (s : Shannon) : Frame := mkFrame s (mem f) (ix f) (cnt f).
Definition set_cnt (f : Frame) (n : Z) : Frame := mkFrame (eng f) (mem f) (ix f) n.

(** [while (this.nbuf != 0 && n != 0)] *)
Definition pending (f : Frame) : bool :=
  negb (nbuf (eng f) =? 0) && negb (cnt f =? 0).

(** ** stream *)

Definition stream_byte (f : Frame) : Frame :=
  let s := eng f in
  let i := ix f in
  let m := wr_output (mem f) i (bxor (rd_output (mem f) i) (band (sbuf s) 0xFF)) in
  let s := set_sbuf s (sar (sbuf s) 8) in
  let s := set_nbuf s (nbuf s - 8) in
  mkFrame s m (S i) (cnt f - 1).

Definition stream_word (f : Frame) : Frame :=
  let s := cycle (eng f) in
  let i := ix f in
  let m := mem f in
  let m := wr_output m (i + 3) (bxor (rd_output m (i + 3)) (band (sar (sbuf s) 24) 0xFF)) in
  let m := wr_output m (i + 2) (bxor (rd_output m (i + 2)) (band (sar (sbuf s) 16) 0xFF)) in
  let m := wr_output m (i + 1) (bxor (rd_output m (i + 1)) (band (sar (sbuf s) 8) 0xFF)) in
  let m := wr_output m i (bxor (rd_output m i) (band (sbuf s) 0xFF)) in
  mkFrame s m (i + 4) (cnt f).

Definition stream (s : Shannon) (m : Bufs) : Shannon * Bufs :=
  let f := mkFrame s m 0 (len (buffer m)) in
  (* Handle any previously buffered bytes. *)
  let f := while (length (buffer m)) pending stream_byte f in
  (* Handle whole words. *)
  let j := band (cnt f) (bnot 0x03) in
  let f := while (Z.to_nat j) (fun f => Z.of_nat (ix f) <? j) stream_word f in
  (* Handle any trailing bytes. *)
  let f := set_cnt f (band (cnt f) 0x03) in
  let f :=
    if negb (cnt f =? 0) then
      let f := set_eng f (set_nbuf (cycle (eng f)) 32) in
      while (Z.to_nat (cnt f)) pending stream_byte f
    else f in
  (eng f, mem f).

(** ** macOnly *)

Definition mac_byte (f : Frame) : Frame :=
  let s := eng f in
  let i := ix f in
  let s := set_mbuf s (bxor (mbuf s) (shl (rd_buffer (mem f) i) (32 - nbuf s))) in
  let s := set_nbuf s (nbuf s - 8) in
  mkFrame s (mem f) (S i) (cnt f - 1).

Definition mac_word (f : Frame) : Frame :=
  let s := cycle (eng f) in
  let i := ix f in
  let m := mem f in
  let t := word_of_bytes (rd_buffer m i) (rd_buffer m (i + 1))
                         (rd_buffer m (i + 2)) (rd_buffer m (i + 3)) in
  mkFrame (macFunc s t) m (i + 4) (cnt f).

(** Everything after the first [if] of [macOnly]. *)
Definition macOnly_rest (f : Frame) : Shannon :=
  let j := band (cnt f) (bnot 0x03) in
  let f := while (Z.to_nat j) (fun f => Z.of_nat (ix f) <? j) mac_word f in
  let f := set_cnt f (band (cnt f) 0x03) in
  let f :=
    if negb (cnt f =? 0) then
      let f := set_eng f (set_nbuf (set_mbuf (cycle (eng f)) 0) 32) in
      while (Z.to_nat (cnt f)) pending mac_byte f
    else f in
  eng f.

Definition macOnly (s : Shannon) (buffer_ : list Z) : Shannon :=
  let f := mkFrame s (mkBufs buffer_ None) 0 (len buffer_) in
  if negb (nbuf s =? 0) then
    let f := while (length buffer_) pending mac_byte f in
    if negb (nbuf (eng f) =? 0) then eng f   (* Not a whole word yet. *)
    else macOnly_rest (set_eng f (macFunc (eng f) (mbuf (eng f))))
  else macOnly_rest f.

(** ** encrypt *)

Definition encrypt_byte (f : Frame) : Frame :=
  let s := eng f in
  let i := ix f in
  let s := set_mbuf s (bxor (mbuf s) (shl (band (rd_buffer (mem f) i) 0xFF) (32 - nbuf s))) in
  let m := wr_output (mem f) i
             (bxor (rd_output (mem f) i) (band (sar (sbuf s) (32 - nbuf s)) 0xFF)) in
  let s := set_nbuf s (nbuf s - 8) in
  mkFrame s m (S i) (cnt f - 1).

Definition encrypt_word (f : Frame) : Frame :=
  let s := cycle (eng f) in
  let i := ix f in
  let m := mem f in
  let t := word_of_bytes (rd_buffer m i) (rd_buffer m (i + 1))
                         (rd_buffer m (i + 2)) (rd_buffer m (i + 3)) in
  let s := macFunc s t in
  let t := bxor t (sbuf s) in
  let m := wr_output m (i + 3) (band (sar t 24) 0xFF) in
  let m := wr_output m (i + 2) (band (sar t 16) 0xFF) in
  let m := wr_output m (i + 1) (band (sar t 8) 0xFF) in
  let m := wr_output m i (band t 0xFF) in
  mkFrame s m (i + 4) (cnt f).

Definition encrypt_rest (f : Frame) : Shannon * Bufs :=
  let j := band (cnt f) (bnot 0x03) in
  let f := while (Z.to_nat j) (fun f => Z.of_nat (ix f) <? j) encrypt_word f in
  let f := set_cnt f (band (cnt f) 0x03) in
  let f :=
    if negb (cnt f =? 0) then
      let f := set_eng f (set_nbuf (set_mbuf (cycle (eng f)) 0) 32) in
      while (Z.to_nat (cnt f)) pending encrypt_byte f
    else f in
  (eng f, mem f).

Definition encrypt (s : Shannon) (m : Bufs) : Shannon * Bufs :=
  let f := mkFrame s m 0 (len (buffer m)) in
  if negb (nbuf s =? 0) then
    let f := while (length (buffer m)) pending encrypt_byte f in
    if negb (nbuf (eng f) =? 0) then (eng f, mem f)   (* Not a whole word yet. *)
    else encrypt_rest (set_eng f (macFunc (eng f) (mbuf (eng f))))
  else encrypt_rest f.

(** ** decrypt *)

(** The loop body of the first (buffered bytes) loop: stores through [output]. *)
Definition decrypt_byte (f : Frame) : Frame :=
  let s := eng f in
  let i := ix f in
  let m := wr_output (mem f) i
             (bxor (rd_output (mem f) i) (band (sar (sbuf s) (32 - nbuf s)) 0xFF)) in
  let s := set_mbuf s (bxor (mbuf s) (shl (band (rd_buffer m i) 0xFF) (32 - nbuf s))) in
  let s := set_nbuf s (nbuf s - 8) in
  mkFrame s m (S i) (cnt f - 1).

(** The loop body of the last (trailing bytes) loop: stores through [buffer]. *)
Definition decrypt_tail_byte (f : Frame) : Frame :=
  let s := eng f in
  let i := ix f in
  let m := wr_buffer (mem f) i
             (bxor (rd_buffer (mem f) i) (band (sar (sbuf s) (32 - nbuf s)) 0xFF)) in
  let s := set_mbuf s (bxor (mbuf s) (shl (band (rd_buffer m i) 0xFF) (32 - nbuf s))) in
  let s := set_nbuf s (nbuf s - 8) in
  mkFrame s m (S i) (cnt f - 1).

Definition decrypt_word (f : Frame) : Frame :=
  let s := cycle (eng f) in
  let i := ix f in
  let m := mem f in
  let t := word_of_bytes (rd_buffer m i) (rd_buffer m (i + 1))
                         (rd_buffer m (i + 2)) (rd_buffer m (i + 3)) in
  let t := bxor t (sbuf s) in
  let s := macFunc s t in
  let m := wr_output m (i + 3) (band (sar t 24) 0xFF) in
  let m := wr_output m (i + 2) (band (sar t 16) 0xFF) in
  let m := wr_output m (i + 1) (band (sar t 8) 0xFF) in
  let m := wr_output m i (band t 0xFF) in
  mkFrame s m (i + 4) (cnt f).

Definition decrypt_rest (f : Frame) : Shannon * Bufs :=
  let j := band (cnt f) (bnot 0x03) in
  let f := while (Z.to_nat j) (fun f => Z.of_nat (ix f) <? j) decrypt_word f in
  let f := set_cnt f (band (cnt f) 0x03) in
  let f :=
    if negb (cnt f =? 0) then
      let f := set_eng f (set_nbuf (set_mbuf (cycle (eng f)) 0) 32) in
      while (Z.to_nat (cnt f)) pending decrypt_tail_byte f
    else f in
  (eng f, mem f).

Definition decrypt (s : Shannon) (m : Bufs) : Shannon * Bufs :=
  let f := mkFrame s m 0 (len (buffer m)) in
  if negb (nbuf s =? 0) then
    let f := while (length (buffer m)) pending decrypt_byte f in
    if negb (nbuf (eng f) =? 0) then (eng f, mem f)   (* Not a whole word yet. *)
    else decrypt_rest (set_eng f (macFunc (eng f) (mbuf (eng f))))
  else decrypt_rest f.

(** ** finish *)

(** Locals of the output loop of [finish]; [fin_brk] records the [break]. *)
Record FinFrame : Type := mkFinFrame {
  fin_eng : Shannon;
  fin_out : list Z;
  fin_i : nat;
  fin_n : Z;
  fin_brk : bool
}.

Definition finish_step (f : FinFrame) : FinFrame :=
  let s := cycle (fin_eng f) in
  let i := fin_i f in
  let n := fin_n f in
  let o := fin_out f in
  if n >=? 4 then
    let o := set8 o (i + 3) (band (sar (sbuf s) 24) 0xFF) in
    let o := set8 o (i + 2) (band (sar (sbuf s) 16) 0xFF) in
    let o := set8 o (i + 1) (band (sar (sbuf s) 8) 0xFF) in
    let o := set8 o i (band (sbuf s) 0xFF) in
    mkFinFrame s o (i + 4) (n - 4) false
  else
    let o := for_ 0 (Z.to_nat n)
               (fun j o => set8 o (i + j) (band (sar (sbuf s) (Z.of_nat i * 8)) 0xFF)) o in
    mkFinFrame s o i n true.

Definition finish_buf (s : Shannon) (output_ : list Z) : Shannon * list Z :=
  let n := len output_ in
  (* Handle any previously buffered bytes. *)
  let s := if negb (nbuf s =? 0) then macFunc s (mbuf s) else s in
  (* Perturb the MAC to mark end of input. *)
  let s := cycle s in
  let s := addKey s (bxor INITKONST (shl (nbuf s) 3)) in
  let s := set_nbuf s 0 in
  (* Now add the CRC to the stream register and diffuse it. *)
  let s := set_R s (for_ 0 N (fun j r => set32 r j (bxor (get r j) (get (CRC s) j))) (R s)) in
  let s := diffuse s in
  (* Produce output from the stream buffer. *)
  let f := while (length output_)
             (fun f => (fin_n f >? 0) && negb (fin_brk f))
             finish_step
             (mkFinFrame s output_ 0 n false) in
  (fin_eng f, fin_out f).

(** [finish(output: Uint8Array | number)] *)
Inductive FinishArg : Type :=
| Size (n : nat)
| Into (b : list Z).

Definition finish (s : Shannon) (a : FinishArg) : Shannon * list Z :=
  match a with
  | Size n => finish_buf s (newArray n)
  | Into b => finish_buf s b
  end.

(** In-place calls, as [s.encrypt(buf)], and calls with a distinct output array. *)
Definition in_place (b : list Z) : Bufs := mkBufs b None.
Definition into (b o : list Z) : Bufs := mkBufs b (Some o).

(** ** Reference semantics: one byte at a time

    Each streaming transform is specified by a machine that consumes a
    single byte per step.  A word is opened by [cycle] when no bits are
    buffered, every byte takes its share of the staged word, and the word is
    closed once its four bytes have been seen.  The transforms of the source
    are proved to follow their machine. *)

Definition is_byte (b : Z) : Prop := 0 <= b < 256.
Definition bytes (l : list Z) : Prop := Forall is_byte l.

Definition ks_byte (s : Shannon) : Z := band (sar (sbuf s) (32 - nbuf s)) 0xFF.

Definition absorb (s : Shannon) (p : Z) : Shannon :=
  set_nbuf (set_mbuf s (bxor (mbuf s) (shl (band p 0xFF) (32 - nbuf s)))) (nbuf s - 8).

Definition enc_part (s : Shannon) (b : Z) : Shannon * Z :=
  (absorb s b, toUint8 (bxor b (ks_byte s))).

Definition dec_part (s : Shannon) (c : Z) : Shannon * Z :=
  let p := toUint8 (bxor c (ks_byte s)) in (absorb s p, p).

Definition mac_part (s : Shannon) (b : Z) : Shannon * Z := (absorb s b, b).

Definition stream_part (s : Shannon) (b : Z) : Shannon * Z :=
  (set_nbuf (set_sbuf s (sar (sbuf s) 8)) (nbuf s - 8),
   toUint8 (bxor b (band (sbuf s) 0xFF))).

Definition open_word (s : Shannon) : Shannon :=
  if nbuf s =? 0 then set_nbuf (set_mbuf (cycle s) 0) 32 else s.

Definition open_stream (s : Shannon) : Shannon :=
  if nbuf s =? 0 then set_nbuf (cycle s) 32 else s.

Definition close_word (s : Shannon) : Shannon :=
  if nbuf s =? 0 then macFunc s (mbuf s) else s.

Record Machine : Type := mkMachine {
  opener : Shannon -> Shannon;
  part : Shannon -> Z -> Shannon * Z;
  closer : Shannon -> Shannon
}.

Definition enc_machine : Machine := mkMachine open_word enc_part close_word.
Definition dec_machine : Machine := mkMachine open_word dec_part close_word.
Definition mac_machine : Machine := mkMachine open_word mac_part close_word.
Definition stream_machine : Machine := mkMachine open_stream stream_part (fun s => s).

(** Bytes of one word in progress: neither opened nor closed. *)
Fixpoint parts (M : Machine) (s : Shannon) (l : list Z) : Shannon * list Z :=
  match l with
  | [] => (s, [])
  | b :: l' =>
      let '(s1, o) := part M s b in
      let '(s2, os) := parts M s1 l' in
      (s2, o :: os)
  end.

Definition byte_step (M : Machine) (s : Shannon) (b : Z) : Shannon * Z :=
  let '(s1, o) := part M (opener M s) b in (closer M s1, o).

Fixpoint run (M : Machine) (s : Shannon) (l : list Z) : Shannon * list Z :=
  match l with
  | [] => (s, [])
  | b :: l' =>
      let '(s1, o) := byte_step M s b in
      let '(s2, os) := run M s1 l' in
      (s2, o :: os)
  end.

(** The locals of the output loop of [finish], with [m] stored in the
    engine's [mbuf]. *)
Definition fin_set_mbuf (m : Z) (f : FinFrame) : FinFrame :=
  mkFinFrame (set_mbuf (fin_eng f) m) (fin_out f) (fin_i f) (fin_n f) (fin_brk f).

(** Two engines agree when they differ at most in staging words that hold
    no pending bits. *)
Definition agree (s s' : Shannon) : Prop :=
  R s = R s' /\ CRC s = CRC s' /\ initR s = initR s' /\ konst s = konst s' /\
  nbuf s = nbuf s' /\ (nbuf s <> 0 -> sbuf s = sbuf s' /\ mbuf s = mbuf s').

(** [stream] never touches [mbuf]: there only a drained [sbuf] may differ. *)
Definition agree_stream (s s' : Shannon) : Prop :=
  R s = R s' /\ CRC s = CRC s' /\ initR s = initR s' /\ konst s = konst s' /\
  mbuf s = mbuf s' /\ nbuf s = nbuf s' /\ (nbuf s <> 0 -> sbuf s = sbuf s').

Definition aligned (s : Shannon) : Prop :=
  nbuf s = 0 \/ nbuf s = 8 \/ nbuf s = 16 \/ nbuf s = 24.

(** A loop body that handles one buffered byte, in place, as the machine
    [M] does. *)
Definition follows (M : Machine) (g : Frame -> Frame) : Prop :=
  forall s pre b post n,
    is_byte b ->
    g (mkFrame s (in_place (pre ++ b :: post)) (length pre) n) =
    mkFrame (fst (part M s b)) (in_place (pre ++ snd (part M s b) :: post))
            (S (length pre)) (n - 1).

(** The common shape of the transforms once no byte is buffered: whole
    words, then a trailing partial word opened by [topen]. *)
Definition gen_rest (topen : Shannon -> Shannon) (wordf tailf : Frame -> Frame)
    (f : Frame) : Frame :=
  let j := band (cnt f) (bnot 0x03) in
  let f := while (Z.to_nat j) (fun f => Z.of_nat (ix f) <? j) wordf f in
  let f := set_cnt f (band (cnt f) 0x03) in
  if negb (cnt f =? 0) then
    let f := set_eng f (topen (eng f)) in
    while (Z.to_nat (cnt f)) pending tailf f
  else f.

Definition mac_open (s : Shannon) : Shannon := set_nbuf (set_mbuf (cycle s) 0) 32.
Definition stream_open (s : Shannon) : Shannon := set_nbuf (cycle s) 32.

(** The common shape of [macOnly], [encrypt] and [decrypt]. *)
Definition xform (topen : Shannon -> Shannon) (bytef wordf tailf : Frame -> Frame)
    (s : Shannon) (m : Bufs) : Frame :=
  let f := mkFrame s m 0 (len (buffer m)) in
  if negb (nbuf s =? 0) then
    let f := while (length (buffer m)) pending bytef f in
    if negb (nbuf (eng f) =? 0) then f
    else gen_rest topen wordf tailf (set_eng f (macFunc (eng f) (mbuf (eng f))))
  else gen_rest topen wordf tailf f.

(** The shape of [stream]. *)
Definition sform (topen : Shannon -> Shannon) (bytef wordf tailf : Frame -> Frame)
    (s : Shannon) (m : Bufs) : Frame :=
  let f := mkFrame s m 0 (len (buffer m)) in
  let f := while (length (buffer m)) pending bytef f in
  gen_rest topen wordf tailf f.

(** ** Sessions *)

(** A freshly keyed engine, nonced when a nonce is given. *)
Definition session (K : list Z) (IV : option (list Z)) : Shannon :=
  match IV with
  | Some iv => nonce (new (Some K)) iv
  | None => new (Some K)
  end.

(** Successive in-place calls of one transform on one engine, one call per
    chunk; the returned arrays are concatenated. *)
Fixpoint chunked (f : Shannon -> Bufs -> Shannon * Bufs) (s : Shannon)
    (chunks : list (list Z)) : Shannon * list Z :=
  match chunks with
  | [] => (s, [])
  | c :: cs =>
      let '(s1, m) := f s (in_place c) in
      let '(s2, out) := chunked f s1 cs in
      (s2, returned m ++ out)
  end.

Definition macOnly_chunks (s : Shannon) (chunks : list (list Z)) : Shannon :=
  fold_left macOnly chunks s.

(** Public operations, and the engines reachable from a fresh one. *)
Inductive Op : Type :=
| OpKey (k : list Z)
| OpNonce (iv : list Z)
| OpNonce32 (v : Z)
| OpStream (m : Bufs)
| OpMacOnly (b : list Z)
| OpEncrypt (m : Bufs)
| OpDecrypt (m : Bufs)
| OpFinish (a : FinishArg).

Definition exec (s : Shannon) (o : Op) : Shannon :=
  match o with
  | OpKey k => key s k
  | OpNonce iv => nonce s iv
  | OpNonce32 v => nonce32 s v
  | OpStream m => fst (stream s m)
  | OpMacOnly b => macOnly s b
  | OpEncrypt m => fst (encrypt s m)
  | OpDecrypt m => fst (decrypt s m)
  | OpFinish a => fst (finish s a)
  end.

Inductive reachable : Shannon -> Prop :=
| reach_fresh : reachable fresh
| reach_exec : forall s o, reachable s -> reachable (exec s o).

(** ** Specification-side definitions *)

Definition int32 (x : Z) : Prop := - 2 ^ 31 <= x < 2 ^ 31.

(** An [Int32Array] of [N] words. *)
Definition register (r : list Z) : Prop := length r = N /\ Forall int32 r.

(** 32-bit left rotation by [d]: the bits shifted out at the top come back
    at the bottom. *)
Definition rotl32 (x d : Z) : Z :=
  toInt32 ((toUint32 x * 2 ^ d) mod 2 ^ 32 + toUint32 x / 2 ^ (32 - d)).

(** The two word transforms as the specification writes them. *)
Definition sbox_spec (x : Z) : Z :=
  let x := bxor x (bor (rotl32 x 5) (rotl32 x 7)) in
  bxor x (bor (rotl32 x 19) (rotl32 x 22)).

Definition sbox2_spec (x : Z) : Z :=
  let x := bxor x (bor (rotl32 x 7) (rotl32 x 22)) in
  bxor x (bor (rotl32 x 5) (rotl32 x 19)).

(** Byte [k] of an integer, byte 0 being the least significant. *)
Definition byte_at (v k : Z) : Z := (v / 2 ^ (8 * k)) mod 256.

(** The four bytes of a 32-bit value, most significant first. *)
Definition be_bytes (v : Z) : list Z := [byte_at v 3; byte_at v 2; byte_at v 1; byte_at v 0].

(** A 32-bit value with its four bytes in reverse order. *)
Definition bswap32 (v : Z) : Z :=
  byte_at v 0 * 2 ^ 24 + byte_at v 1 * 2 ^ 16 + byte_at v 2 * 2 ^ 8 + byte_at v 3.

(** What [loadKey] does once the words of the key are folded in: fold in
    the length [n], snapshot, diffuse, XOR the snapshot back. *)
Definition loadKey_tail (s : Shannon) (n : Z) : Shannon :=
  let s := cycle (addKey s n) in
  let s := set_CRC s (for_ 0 N (fun i c => set32 c i (get (R s) i)) (CRC s)) in
  let s := diffuse s in
  set_R s (for_ 0 N (fun i r => set32 r i (bxor (get r i) (get (CRC s) i))) (R s)).

(** The update of the CRC register by one word, on the array alone. *)
Definition crc_push (c : list Z) (i : Z) : list Z :=
  let t := bxor (bxor (bxor (get c 0) (get c 2)) (get c 15)) i in
  let c := for_ 1 (N - 1) (fun j c => set32 c (j - 1) (get c j)) c in
  set32 c (N - 1) t.

(** The complete little-endian words of a byte sequence. *)
Fixpoint le_words (l : list Z) : list Z :=
  match l with
  | b0 :: b1 :: b2 :: b3 :: l' => word_of_bytes b0 b1 b2 b3 :: le_words l'
  | _ => []
  end.

(** A byte body takes 8 buffered bits and one input byte. *)
Definition takes_byte (g : Frame -> Frame) : Prop :=
  forall f, nbuf (eng (g f)) = nbuf (eng f) - 8 /\ cnt (g f) = cnt f - 1.

(** The key and the plaintext of the package's own test. *)
Definition test_key : list Z := [0x65; 0x87; 0xd8; 0x8f; 0x6c; 0x32; 0x9d; 0x8a; 0xe4; 0x6b].
Definition hello_world : list Z := [72; 101; 108; 108; 111; 32; 87; 111; 114; 108; 100].

(** ** Definitions for the further properties

    Relations between a call with a distinct output array and the in-place
    call, the closed form of the tag, and the parts of the key schedule. *)

(** A call with a distinct output array [o], next to the in-place call on
    [l]: the same engine, index and count. *)
Definition beside (same : list Z -> list Z -> nat -> Prop) (b : list Z)
    (F1 F2 : Frame) : Prop :=
  eng F1 = eng F2 /\ ix F1 = ix F2 /\ cnt F1 = cnt F2 /\
  exists o l, mem F1 = into b o /\ mem F2 = in_place l /\ same o l (ix F1).

(** [stream] only ever touches [output]. *)
Definition same_output (o l : list Z) (i : nat) : Prop := o = l.

(** The whole-word loops read [buffer] from [i] on and have written [output]
    below [i]. *)
Definition written_below (b o l : list Z) (i : nat) : Prop :=
  length o = length b /\ length l = length b /\
  (exists q, i = (4 * q)%nat) /\ (i <= length b)%nat /\
  (forall k, (k < i)%nat -> get o k = get l k) /\
  (forall k, (i <= k)%nat -> get b k = get l k).

(** The engine [finish] draws the tag from: the pending word accumulated,
    the end of input marked, the CRC folded into the register, diffused. *)
Definition finish_seed (s : Shannon) : Shannon :=
  let s := if negb (nbuf s =? 0) then macFunc s (mbuf s) else s in
  let s := cycle s in
  let s := addKey s (bxor INITKONST (shl (nbuf s) 3)) in
  let s := set_nbuf s 0 in
  let s := set_R s (for_ 0 N (fun j r => set32 r j (bxor (get r j) (get (CRC s) j))) (R s)) in
  diffuse s.

(** The four bytes of a word as [finish] stores them, least significant first. *)
Definition word_bytes (w : Z) : list Z :=
  [toUint8 (band w 0xFF); toUint8 (band (sar w 8) 0xFF);
   toUint8 (band (sar w 16) 0xFF); toUint8 (band (sar w 24) 0xFF)].

(** [q] whole words of tag, one [cycle] each. *)
Fixpoint tag_words (q : nat) (s : Shannon) : Shannon * list Z :=
  match q with
  | O => (s, [])
  | S q' =>
      let s1 := cycle s in
      let '(s2, l) := tag_words q' s1 in
      (s2, word_bytes (sbuf s1) ++ l)
  end.

(** [q] whole words, then [r < 4] trailing bytes. *)
Definition tag_from (s : Shannon) (q r : nat) : Shannon * list Z :=
  let '(s1, ws) := tag_words q s in
  match r with
  | O => (s1, ws)
  | _ => let s2 := cycle s1 in (s2, ws ++ repeat (toUint8 (band (sbuf s2) 0xFF)) r)
  end.

(** The test of the output loop of [finish]. *)
Definition fin_cond (f : FinFrame) : bool := (fin_n f >? 0) && negb (fin_brk f).

(** Folding one word of key material into the register. *)
Definition fold_word (s : Shannon) (w : Z) : Shannon := cycle (addKey s w).

(** The first part of [loadKey]: the words of the key, then its trailing
    bytes zero padded to a word. *)
Definition loadKey_head (s : Shannon) (_key : list Z) : Shannon :=
  let extra := newArray 4 in
  let '(s, i) :=
    while (length _key)
      (fun '(s, i) => Z.of_nat i <? band (len _key) (bnot 0x03))
      (fun '(s, i) =>
         let t := word_of_bytes (get _key i) (get _key (i + 1))
                                (get _key (i + 2)) (get _key (i + 3)) in
         (cycle (addKey s t), (i + 4)%nat))
      (s, 0%nat) in
  if Z.of_nat i <? len _key then
    let '(extra, i, j) :=
      while (length _key)
        (fun '(extra, i, j) => Z.of_nat i <? len _key)
        (fun '(extra, i, j) => (set8 extra j (get _key i), S i, S j))
        (extra, i, 0%nat) in
    let '(extra, j) :=
      while 4
        (fun '(extra, j) => Z.of_nat j <? 4)
        (fun '(extra, j) => (set8 extra j 0, S j))
        (extra, j) in
    let t := word_of_bytes (get extra 0) (get extra 1) (get extra 2) (get extra 3) in
    cycle (addKey s t)
  else s.

(** The engines [key] and [nonce] cannot tell apart. *)
Definition same_core (s s' : Shannon) : Prop := R s = R s' /\ konst s = konst s'.

(** The three arrays of an engine have [N] elements. *)
Definition shaped (s : Shannon) : Prop :=
  length (R s) = N /\ length (CRC s) = N /\ length (initR s) = N.

(** Every public operation but [key] keeps the key in force. *)
Definition keeps_key (o : Op) : bool :=
  match o with
  | OpKey _ => false
  | _ => true
  end.

(** An engine that was never keyed: the register and [konst] are zero, and
    so is any buffered keystream. *)
Definition unkeyed (s : Shannon) : Prop :=
  R s = newArray N /\ konst s = 0 /\ (nbuf s <> 0 -> sbuf s = 0).

(** A byte sequence zero padded to a whole number of words. *)
Definition pad4 (l : list Z) : list Z :=
  l ++ repeat 0 ((4 - length l mod 4) mod 4)%nat.

(** One in-place call of a transform that accumulates the MAC. *)
Inductive Piece : Type :=
| Mac (b : list Z)    (* macOnly(b) *)
| Enc (b : list Z)    (* encrypt(b) *)
| Dec (c : list Z).   (* decrypt(c) *)

Definition piece_input (p : Piece) : list Z :=
  match p with
  | Mac b => b
  | Enc b => b
  | Dec c => c
  end.

(** The engine after the call, and the plaintext the call has seen. *)
Definition piece_step (s : Shannon) (p : Piece) : Shannon * list Z :=
  match p with
  | Mac b => (macOnly s b, b)
  | Enc b => (fst (encrypt s (in_place b)), b)
  | Dec c => (fst (decrypt s (in_place c)), returned (snd (decrypt s (in_place c))))
  end.

(** Successive calls on one engine; the plaintexts are concatenated. *)
Fixpoint pieces (s : Shannon) (ps : list Piece) : Shannon * list Z :=
  match ps with
  | [] => (s, [])
  | p :: ps' =>
      let '(s1, x) := piece_step s p in
      let '(s2, xs) := pieces s1 ps' in
      (s2, x ++ xs)
  end.

(** The key, the data and the expected ciphertext of the package's test
    "Test Shannon (from librespot)". *)
Definition librespot_key : list Z :=
  [22; 37; 161; 131; 152; 224; 181; 174; 31; 205; 113; 234; 237; 162; 48; 8; 228; 68;
   108; 56; 160; 134; 93; 230; 37; 28; 173; 231; 25; 35; 131; 204].

Definition librespot_data : list Z :=
  [171; 0; 114; 82; 14; 82; 3; 49; 50; 51; 160; 1; 0; 242; 1; 3; 49; 50; 51; 146; 3;
   73; 80; 0; 224; 3; 2; 210; 5; 26; 108; 105; 98; 114; 101; 115; 112; 111; 116; 45;
   52; 100; 51; 53; 99; 53; 102; 45; 70; 82; 119; 55; 85; 99; 72; 56; 162; 6; 36; 48;
   101; 49; 99; 101; 57; 56; 53; 45; 55; 51; 50; 97; 45; 52; 99; 53; 100; 45; 97; 51;
   56; 55; 45; 48; 55; 49; 51; 57; 100; 101; 55; 57; 52; 48; 101; 178; 4; 19; 108; 105;
   98; 114; 101; 115; 112; 111; 116; 32; 48; 46; 53; 46; 48; 45; 100; 101; 118].

Definition librespot_encrypted : list Z :=
  [233; 235; 0; 45; 72; 91; 41; 158; 161; 61; 67; 76; 209; 222; 190; 238; 22; 24; 9;
   103; 224; 114; 42; 163; 8; 145; 79; 61; 239; 253; 168; 101; 172; 16; 108; 183; 124;
   162; 27; 83; 69; 199; 101; 111; 176; 97; 115; 81; 172; 229; 201; 93; 72; 128; 234;
   234; 227; 184; 133; 255; 228; 192; 55; 186; 42; 146; 90; 180; 142; 217; 151; 221;
   138; 50; 239; 252; 73; 27; 28; 47; 199; 97; 249; 55; 130; 92; 25; 243; 81; 128; 179;
   29; 221; 167; 127; 167; 50; 61; 125; 230; 21; 70; 113; 151; 31; 77; 175; 84; 78;
   219; 22; 0; 148; 231; 202; 221; 68].

(** * Proofs *)

(** ** Bits of wrapped integers *)

Section Bits.

Lemma toInt32_split x :
  toInt32 x = x mod 2 ^ 31 + Z.shiftl (- Z.b2z (Z.testbit x 31)) 31.
Proof.
  unfold toInt32. rewrite Z.shiftl_mul_pow2 by lia.
  rewrite (Z.testbit_spec' x 31) by lia.
  assert (H := Z.mod_pos_bound (x / 2 ^ 31) 2 ltac:(lia)).
  change (2 ^ 32) with (2 * 2 ^ 31). change (2 ^ 31) with 2147483648 in *.
  Z.div_mod_to_equations. lia.
Qed.

Lemma sign_disjoint x b : Z.land (x mod 2 ^ 31) (Z.shiftl b 31) = 0.
Proof.
  apply Z.bits_inj'. intros n Hn.
  rewrite Z.land_spec, Z.bits_0.
  destruct (Z.lt_ge_cases n 31).
  - rewrite Z.shiftl_spec_low by lia. apply andb_false_r.
  - rewrite Z.mod_pow2_bits_high by lia. reflexivity.
Qed.

(** [ToInt32] keeps the low 31 bits and extends bit 31 upwards. *)
Lemma testbit_toInt32 x n :
  0 <= n -> Z.testbit (toInt32 x) n = Z.testbit x (Z.min n 31).
Proof.
  intros Hn.
  rewrite toInt32_split, Z.add_nocarry_lxor, Z.lxor_spec by apply sign_disjoint.
  destruct (Z.lt_ge_cases n 31).
  - rewrite Z.mod_pow2_bits_low, Z.shiftl_spec_low, Z.min_l by lia.
    apply xorb_false_r.
  - rewrite Z.mod_pow2_bits_high, Z.shiftl_spec, Z.min_r by lia.
    destruct (Z.testbit x 31); simpl.
    + apply (Z.bits_m1 (n - 31)). lia.
    + apply Z.bits_0.
Qed.

Lemma toInt32_range x : - 2 ^ 31 <= toInt32 x < 2 ^ 31.
Proof.
  unfold toInt32. assert (H := Z.mod_pos_bound (x + 2 ^ 31) (2 ^ 32) ltac:(lia)). lia.
Qed.

Lemma toInt32_id x : - 2 ^ 31 <= x < 2 ^ 31 -> toInt32 x = x.
Proof. intros H. unfold toInt32. rewrite Z.mod_small; lia. Qed.

Lemma toInt32_idem x : toInt32 (toInt32 x) = toInt32 x.
Proof. apply toInt32_id, toInt32_range. Qed.

Lemma testbit_toUint32 x n :
  0 <= n -> Z.testbit (toUint32 x) n = (n <? 32) && Z.testbit x n.
Proof.
  intros Hn. unfold toUint32. destruct (Z.ltb_spec n 32).
  - now rewrite Z.mod_pow2_bits_low.
  - now rewrite Z.mod_pow2_bits_high by lia.
Qed.

Lemma testbit_toUint8 x n :
  0 <= n -> Z.testbit (toUint8 x) n = (n <? 8) && Z.testbit x n.
Proof.
  intros Hn. unfold toUint8. destruct (Z.ltb_spec n 8).
  - now rewrite Z.mod_pow2_bits_low.
  - now rewrite Z.mod_pow2_bits_high by lia.
Qed.

Lemma testbit_255 n : 0 <= n -> Z.testbit 255 n = (n <? 8).
Proof. intros. change 255 with (Z.ones 8). apply Z.testbit_ones_nonneg; lia. Qed.

Lemma count_small k : 0 <= k < 32 -> count k = k.
Proof.
  intros. unfold count. change 31 with (Z.ones 5).
  rewrite Z.land_ones by lia. apply Z.mod_small. simpl; lia.
Qed.

Lemma is_byte_bits b n : is_byte b -> 8 <= n -> Z.testbit b n = false.
Proof.
  intros [H0 H1] Hn.
  rewrite <- (Z.mod_small b (2 ^ 8)) by (simpl; lia).
  apply Z.mod_pow2_bits_high. lia.
Qed.

Lemma toUint8_byte b : is_byte b -> toUint8 b = b.
Proof. intros [H0 H1]. unfold toUint8. apply Z.mod_small. simpl; lia. Qed.

Lemma toUint8_is_byte x : is_byte (toUint8 x).
Proof. unfold toUint8, is_byte. apply (Z.mod_pos_bound x (2 ^ 8)). reflexivity. Qed.

End Bits.

(** Decide every comparison against a constant that [lia] can settle. *)
Ltac ltb_solve :=
  repeat match goal with
  | |- context [?a <? ?b] =>
      first [ rewrite (proj2 (Z.ltb_lt a b)) by lia
            | rewrite (proj2 (Z.ltb_ge a b)) by lia ]
  end.

(** One rewriting step towards the bits of the operands. *)
Ltac bits_step :=
  match goal with
  | |- context [count ?k] => rewrite (count_small k) by lia
  | |- context [Z.min ?a ?b] =>
      first [ rewrite (Z.min_l a b) by lia | rewrite (Z.min_r a b) by lia
            | destruct (Z.min_spec a b) as [[? ->] | [? ->]] ]
  | |- context [Z.testbit ?a ?i] => rewrite (Z.testbit_neg_r a i) by lia
  | H : is_byte ?a |- context [Z.testbit ?a ?i] => rewrite (is_byte_bits a i H) by lia
  | |- context [Z.testbit (Z.lxor ?a ?b) ?i] => rewrite (Z.lxor_spec a b i)
  | |- context [Z.testbit (Z.lor ?a ?b) ?i] => rewrite (Z.lor_spec a b i)
  | |- context [Z.testbit (Z.land ?a ?b) ?i] => rewrite (Z.land_spec a b i)
  | |- context [Z.testbit 0 ?i] => rewrite (Z.bits_0 i)
  | |- context [Z.testbit 255 ?i] => rewrite (testbit_255 i) by lia
  | |- context [Z.testbit (toInt32 ?a) ?i] => rewrite (testbit_toInt32 a i) by lia
  | |- context [Z.testbit (toUint32 ?a) ?i] => rewrite (testbit_toUint32 a i) by lia
  | |- context [Z.testbit (toUint8 ?a) ?i] => rewrite (testbit_toUint8 a i) by lia
  | |- context [Z.testbit (Z.shiftl ?a ?k) ?i] => rewrite (Z.shiftl_spec a k i) by lia
  | |- context [Z.testbit (Z.shiftr ?a ?k) ?i] => rewrite (Z.shiftr_spec a k i) by lia
  | |- context [Z.testbit (Z.lnot ?a) ?i] => rewrite (Z.lnot_spec a i) by lia
  end.

Ltac idx_norm :=
  repeat match goal with
  | |- context [Z.testbit _ ?e] => progress ring_simplify e
  end.

Ltac bool_norm :=
  repeat rewrite ?andb_true_r, ?andb_false_r, ?andb_true_l, ?andb_false_l,
    ?orb_false_r, ?orb_false_l, ?xorb_false_r, ?xorb_false_l.

(** Case analysis of a bit index on the byte it falls in. *)
Ltac split_index n :=
  destruct (Z.lt_ge_cases n 8);
  [ | destruct (Z.lt_ge_cases n 16);
      [ | destruct (Z.lt_ge_cases n 24);
          [ | destruct (Z.lt_ge_cases n 31) ] ] ].

Ltac bits_finish :=
  repeat bits_step; ltb_solve; idx_norm; bool_norm;
  try reflexivity; try btauto.

Ltac bitblast :=
  apply Z.bits_inj'; let n := fresh "n" in let Hn := fresh "Hn" in
  intros n Hn; split_index n; bits_finish.

Ltac unfold_ops := unfold word_of_bytes, bxor, bor, band, shl, sar.

Section Words.

Lemma toInt32_bxor a b : toInt32 (bxor a b) = bxor a b.
Proof. unfold_ops. bitblast. Qed.

Lemma toInt32_band a b : toInt32 (band a b) = band a b.
Proof. unfold_ops. bitblast. Qed.

Lemma toInt32_bor a b : toInt32 (bor a b) = bor a b.
Proof. unfold_ops. bitblast. Qed.

Lemma int32_bxor a b : int32 (bxor a b).
Proof. rewrite <- toInt32_bxor. apply toInt32_range. Qed.

Lemma int32_band a b : int32 (band a b).
Proof. rewrite <- toInt32_band. apply toInt32_range. Qed.

Lemma toInt32_word_of_bytes b0 b1 b2 b3 :
  toInt32 (word_of_bytes b0 b1 b2 b3) = word_of_bytes b0 b1 b2 b3.
Proof. unfold_ops. bitblast. Qed.

Lemma band_byte b : is_byte b -> band b 255 = b.
Proof. intros H. unfold_ops. bitblast. Qed.

Lemma bxor_cancel b k : is_byte b -> toUint8 (bxor (toUint8 (bxor b k)) k) = b.
Proof. intros H. unfold_ops. bitblast. Qed.

(** Folding four bytes into an empty [mbuf], one shift at a time, builds
    the little-endian word. *)
Lemma absorb_four b0 b1 b2 b3 :
  bxor (bxor (bxor (bxor 0 (shl (band b0 0xFF) 0)) (shl (band b1 0xFF) 8))
             (shl (band b2 0xFF) 16)) (shl (band b3 0xFF) 24)
  = word_of_bytes b0 b1 b2 b3.
Proof. unfold_ops. bitblast. Qed.

Lemma sar_sar_16 x : sar (sar x 8) 8 = sar x 16.
Proof. unfold_ops. bitblast. Qed.

Lemma sar_sar_24 x : sar (sar x 16) 8 = sar x 24.
Proof. unfold_ops. bitblast. Qed.

Variables b0 b1 b2 b3 sb : Z.
Let w := word_of_bytes b0 b1 b2 b3.

(** The bytes of [w ^ sb], least significant first. *)
Lemma out_byte0 :
  toUint8 (band (bxor w sb) 255) = toUint8 (bxor b0 (band (sar sb 0) 255)).
Proof. unfold w. unfold_ops. bitblast. Qed.

Lemma out_byte1 :
  toUint8 (band (sar (bxor w sb) 8) 255) = toUint8 (bxor b1 (band (sar sb 8) 255)).
Proof. unfold w. unfold_ops. bitblast. Qed.

Lemma out_byte2 :
  toUint8 (band (sar (bxor w sb) 16) 255) = toUint8 (bxor b2 (band (sar sb 16) 255)).
Proof. unfold w. unfold_ops. bitblast. Qed.

Lemma out_byte3 :
  toUint8 (band (sar (bxor w sb) 24) 255) = toUint8 (bxor b3 (band (sar sb 24) 255)).
Proof. unfold w. unfold_ops. bitblast. Qed.

Lemma word_of_out_bytes :
  word_of_bytes (toUint8 (bxor b0 (band (sar sb 0) 255)))
                (toUint8 (bxor b1 (band (sar sb 8) 255)))
                (toUint8 (bxor b2 (band (sar sb 16) 255)))
                (toUint8 (bxor b3 (band (sar sb 24) 255)))
  = bxor w sb.
Proof. unfold w. unfold_ops. bitblast. Qed.

End Words.

Section Arith.

Lemma band_3 n : 0 <= n < 2 ^ 31 -> band n 3 = n mod 4.
Proof.
  intros H. unfold band. rewrite !toInt32_id by lia.
  change 3 with (Z.ones 2). now rewrite Z.land_ones by lia.
Qed.

Lemma band_not3 n : 0 <= n < 2 ^ 31 -> band n (bnot 3) = 4 * (n / 4).
Proof.
  intros H. unfold band, bnot. rewrite (toInt32_id 3) by lia.
  rewrite (toInt32_id n) by lia.
  rewrite (toInt32_id (Z.lnot 3)) by (change (Z.lnot 3) with (-4); lia).
  rewrite <- Z.ldiff_land. change 3 with (Z.ones 2).
  rewrite Z.ldiff_ones_r, Z.shiftr_div_pow2, Z.shiftl_mul_pow2 by lia.
  change (2 ^ 2) with 4. lia.
Qed.

Lemma band_3_range n : 0 <= band n 3 < 4.
Proof.
  unfold band. rewrite (toInt32_id 3) by lia. change 3 with (Z.ones 2).
  rewrite Z.land_ones by lia. apply Z.mod_pos_bound. reflexivity.
Qed.

End Arith.

(** ** Arrays and loops *)

Section Lists.

Lemma len_nil : len [] = 0.
Proof. reflexivity. Qed.

Lemma len_cons b l : len (b :: l) = len l + 1.
Proof. unfold len. simpl length. lia. Qed.

Lemma len_app l1 l2 : len (l1 ++ l2) = len l1 + len l2.
Proof. unfold len. rewrite length_app. lia. Qed.

Lemma len_nonneg l : 0 <= len l.
Proof. unfold len. lia. Qed.

Lemma get_app pre l k : get (pre ++ l) (length pre + k) = get l k.
Proof. unfold get. induction pre; simpl; auto. Qed.

Lemma upd_app pre l k v : upd (length pre + k) v (pre ++ l) = pre ++ upd k v l.
Proof. induction pre; simpl; [reflexivity | now rewrite IHpre]. Qed.

Lemma upd_length i v l : length (upd i v l) = length l.
Proof. revert i; induction l; destruct i; simpl; auto. Qed.

Lemma get_at pre l k : get (pre ++ l) (length pre + k) = nth k l 0.
Proof. apply get_app. Qed.

Lemma set8_at pre l k v : set8 (pre ++ l) (length pre + k) v = pre ++ upd k (toUint8 v) l.
Proof. apply upd_app. Qed.

Lemma get_here pre b post : get (pre ++ b :: post) (length pre) = b.
Proof. rewrite <- (Nat.add_0_r (length pre)). apply get_app. Qed.

Lemma set8_here pre b post v :
  set8 (pre ++ b :: post) (length pre) v = pre ++ toUint8 v :: post.
Proof. unfold set8. rewrite <- (Nat.add_0_r (length pre)). apply upd_app. Qed.

Lemma while_stop {A} fuel (c : A -> bool) b a : c a = false -> while fuel c b a = a.
Proof. intros H. destruct fuel; simpl; [reflexivity | now rewrite H]. Qed.

Lemma while_step {A} fuel (c : A -> bool) b a :
  c a = true -> while (S fuel) c b a = while fuel c b (b a).
Proof. intros H. simpl. now rewrite H. Qed.

(** A property kept by the body is kept by the loop. *)
Lemma while_inv {A} (P : A -> Prop) fuel (c : A -> bool) b :
  (forall a, P a -> c a = true -> P (b a)) ->
  forall a, P a -> P (while fuel c b a).
Proof.
  intros Hb. induction fuel as [|fuel IH]; intros a Ha; simpl; [assumption|].
  destruct (c a) eqn:E; auto.
Qed.

(** With fuel for every iteration the loop stops on its own test. *)
Lemma while_exit {A} (I : A -> Prop) (mu : A -> nat) fuel (c : A -> bool) b :
  (forall a, I a -> c a = true -> I (b a) /\ (mu (b a) < mu a)%nat) ->
  forall a, I a -> (mu a <= fuel)%nat -> c (while fuel c b a) = false.
Proof.
  intros Hb. induction fuel as [|fuel IH]; intros a Hi Ha; simpl.
  - destruct (c a) eqn:E; [|reflexivity]. destruct (Hb a Hi E). lia.
  - destruct (c a) eqn:E; [|assumption]. destruct (Hb a Hi E). apply IH; [assumption|lia].
Qed.

Lemma split_words (P : list Z) :
  exists K ws tl, P = ws ++ tl /\ length ws = (4 * K)%nat /\ (length tl < 4)%nat.
Proof.
  exists (length P / 4)%nat, (firstn (4 * (length P / 4)) P), (skipn (4 * (length P / 4)) P).
  assert (H := Nat.div_mod_eq (length P) 4).
  assert (H' := Nat.mod_upper_bound (length P) 4 ltac:(lia)).
  repeat split.
  - symmetry. apply firstn_skipn.
  - rewrite length_firstn. lia.
  - rewrite length_skipn. lia.
Qed.

Lemma bytes_app l1 l2 : bytes (l1 ++ l2) <-> bytes l1 /\ bytes l2.
Proof. apply Forall_app. Qed.

End Lists.

(** ** Record fields

    Every field read after a field write, as rewriting rules. *)

Section FieldRules.

Variable s : Shannon.

Lemma R_set_R (v : list Z) : R (set_R s v) = v.
Proof. reflexivity. Qed.

Lemma CRC_set_R (v : list Z) : CRC (set_R s v) = CRC s.
Proof. reflexivity. Qed.

Lemma initR_set_R (v : list Z) : initR (set_R s v) = initR s.
Proof. reflexivity. Qed.

Lemma konst_set_R (v : list Z) : konst (set_R s v) = konst s.
Proof. reflexivity. Qed.

Lemma sbuf_set_R (v : list Z) : sbuf (set_R s v) = sbuf s.
Proof. reflexivity. Qed.

Lemma mbuf_set_R (v : list Z) : mbuf (set_R s v) = mbuf s.
Proof. reflexivity. Qed.

Lemma nbuf_set_R (v : list Z) : nbuf (set_R s v) = nbuf s.
Proof. reflexivity. Qed.

Lemma R_set_CRC (v : list Z) : R (set_CRC s v) = R s.
Proof. reflexivity. Qed.

Lemma CRC_set_CRC (v : list Z) : CRC (set_CRC s v) = v.
Proof. reflexivity. Qed.

Lemma initR_set_CRC (v : list Z) : initR (set_CRC s v) = initR s.
Proof. reflexivity. Qed.

Lemma konst_set_CRC (v : list Z) : konst (set_CRC s v) = konst s.
Proof. reflexivity. Qed.

Lemma sbuf_set_CRC (v : list Z) : sbuf (set_CRC s v) = sbuf s.
Proof. reflexivity. Qed.

Lemma mbuf_set_CRC (v : list Z) : mbuf (set_CRC s v) = mbuf s.
Proof. reflexivity. Qed.

Lemma nbuf_set_CRC (v : list Z) : nbuf (set_CRC s v) = nbuf s.
Proof. reflexivity. Qed.

Lemma R_set_initR (v : list Z) : R (set_initR s v) = R s.
Proof. reflexivity. Qed.

Lemma CRC_set_initR (v : list Z) : CRC (set_initR s v) = CRC s.
Proof. reflexivity. Qed.

Lemma initR_set_initR (v : list Z) : initR (set_initR s v) = v.
Proof. reflexivity. Qed.

Lemma konst_set_initR (v : list Z) : konst (set_initR s v) = konst s.
Proof. reflexivity. Qed.

Lemma sbuf_set_initR (v : list Z) : sbuf (set_initR s v) = sbuf s.
Proof. reflexivity. Qed.

Lemma mbuf_set_initR (v : list Z) : mbuf (set_initR s v) = mbuf s.
Proof. reflexivity. Qed.

Lemma nbuf_set_initR (v : list Z) : nbuf (set_initR s v) = nbuf s.
Proof. reflexivity. Qed.

Lemma R_set_konst (v : Z) : R (set_konst s v) = R s.
Proof. reflexivity. Qed.

Lemma CRC_set_konst (v : Z) : CRC (set_konst s v) = CRC s.
Proof. reflexivity. Qed.

Lemma initR_set_konst (v : Z) : initR (set_konst s v) = initR s.
Proof. reflexivity. Qed.

Lemma konst_set_konst (v : Z) : konst (set_konst s v) = v.
Proof. reflexivity. Qed.

Lemma sbuf_set_konst (v : Z) : sbuf (set_konst s v) = sbuf s.
Proof. reflexivity. Qed.

Lemma mbuf_set_konst (v : Z) : mbuf (set_konst s v) = mbuf s.
Proof. reflexivity. Qed.

Lemma nbuf_set_konst (v : Z) : nbuf (set_konst s v) = nbuf s.
Proof. reflexivity. Qed.

Lemma R_set_sbuf (v : Z) : R (set_sbuf s v) = R s.
Proof. reflexivity. Qed.

Lemma CRC_set_sbuf (v : Z) : CRC (set_sbuf s v) = CRC s.
Proof. reflexivity. Qed.

Lemma initR_set_sbuf (v : Z) : initR (set_sbuf s v) = initR s.
Proof. reflexivity. Qed.

Lemma konst_set_sbuf (v : Z) : konst (set_sbuf s v) = konst s.
Proof. reflexivity. Qed.

Lemma sbuf_set_sbuf (v : Z) : sbuf (set_sbuf s v) = v.
Proof. reflexivity. Qed.

Lemma mbuf_set_sbuf (v : Z) : mbuf (set_sbuf s v) = mbuf s.
Proof. reflexivity. Qed.

Lemma nbuf_set_sbuf (v : Z) : nbuf (set_sbuf s v) = nbuf s.
Proof. reflexivity. Qed.

Lemma R_set_mbuf (v : Z) : R (set_mbuf s v) = R s.
Proof. reflexivity. Qed.

Lemma CRC_set_mbuf (v : Z) : CRC (set_mbuf s v) = CRC s.
Proof. reflexivity. Qed.

Lemma initR_set_mbuf (v : Z) : initR (set_mbuf s v) = initR s.
Proof. reflexivity. Qed.

Lemma konst_set_mbuf (v : Z) : konst (set_mbuf s v) = konst s.
Proof. reflexivity. Qed.

Lemma sbuf_set_mbuf (v : Z) : sbuf (set_mbuf s v) = sbuf s.
Proof. reflexivity. Qed.

Lemma mbuf_set_mbuf (v : Z) : mbuf (set_mbuf s v) = v.
Proof. reflexivity. Qed.

Lemma nbuf_set_mbuf (v : Z) : nbuf (set_mbuf s v) = nbuf s.
Proof. reflexivity. Qed.

Lemma R_set_nbuf (v : Z) : R (set_nbuf s v) = R s.
Proof. reflexivity. Qed.

Lemma CRC_set_nbuf (v : Z) : CRC (set_nbuf s v) = CRC s.
Proof. reflexivity. Qed.

Lemma initR_set_nbuf (v : Z) : initR (set_nbuf s v) = initR s.
Proof. reflexivity. Qed.

Lemma konst_set_nbuf (v : Z) : konst (set_nbuf s v) = konst s.
Proof. reflexivity. Qed.

Lemma sbuf_set_nbuf (v : Z) : sbuf (set_nbuf s v) = sbuf s.
Proof. reflexivity. Qed.

Lemma mbuf_set_nbuf (v : Z) : mbuf (set_nbuf s v) = mbuf s.
Proof. reflexivity. Qed.

Lemma nbuf_set_nbuf (v : Z) : nbuf (set_nbuf s v) = v.
Proof. reflexivity. Qed.

End FieldRules.

Create Rewrite HintDb fields.
#[global] Hint Rewrite
  R_set_R CRC_set_R initR_set_R konst_set_R sbuf_set_R mbuf_set_R
  nbuf_set_R R_set_CRC CRC_set_CRC initR_set_CRC konst_set_CRC sbuf_set_CRC
  mbuf_set_CRC nbuf_set_CRC R_set_initR CRC_set_initR initR_set_initR konst_set_initR
  sbuf_set_initR mbuf_set_initR nbuf_set_initR R_set_konst CRC_set_konst initR_set_konst
  konst_set_konst sbuf_set_konst mbuf_set_konst nbuf_set_konst R_set_sbuf CRC_set_sbuf
  initR_set_sbuf konst_set_sbuf sbuf_set_sbuf mbuf_set_sbuf nbuf_set_sbuf R_set_mbuf
  CRC_set_mbuf initR_set_mbuf konst_set_mbuf sbuf_set_mbuf mbuf_set_mbuf nbuf_set_mbuf
  R_set_nbuf CRC_set_nbuf initR_set_nbuf konst_set_nbuf sbuf_set_nbuf mbuf_set_nbuf
  nbuf_set_nbuf
  : fields.

(** ** What the engine steps touch *)

Section Fields.

Lemma Shannon_eq s s' :
  R s = R s' -> CRC s = CRC s' -> initR s = initR s' -> konst s = konst s' ->
  sbuf s = sbuf s' -> mbuf s = mbuf s' -> nbuf s = nbuf s' -> s = s'.
Proof. destruct s, s'; simpl; intros; subst; reflexivity. Qed.

Lemma cycle_R_sbuf s s' :
  R s = R s' -> konst s = konst s' ->
  R (cycle s) = R (cycle s') /\ sbuf (cycle s) = sbuf (cycle s').
Proof. intros HR Hk. unfold cycle. cbn [R sbuf set_sbuf set_R]. now rewrite HR, Hk. Qed.

Lemma cycle_frame s :
  CRC (cycle s) = CRC s /\ initR (cycle s) = initR s /\ konst (cycle s) = konst s /\
  mbuf (cycle s) = mbuf s /\ nbuf (cycle s) = nbuf s.
Proof. repeat split. Qed.

Lemma cycle_nbuf s : nbuf (cycle s) = nbuf s.
Proof. reflexivity. Qed.

Lemma macFunc_frame s i :
  initR (macFunc s i) = initR s /\ konst (macFunc s i) = konst s /\
  sbuf (macFunc s i) = sbuf s /\ mbuf (macFunc s i) = mbuf s /\
  nbuf (macFunc s i) = nbuf s.
Proof. repeat split. Qed.

Lemma macFunc_sbuf s i : sbuf (macFunc s i) = sbuf s.
Proof. reflexivity. Qed.

Lemma macFunc_nbuf s i : nbuf (macFunc s i) = nbuf s.
Proof. reflexivity. Qed.

Lemma macFunc_R_CRC s s' i :
  R s = R s' -> CRC s = CRC s' ->
  R (macFunc s i) = R (macFunc s' i) /\ CRC (macFunc s i) = CRC (macFunc s' i).
Proof.
  intros HR HC. unfold macFunc, crcFunc. cbn [R CRC set_R set_CRC]. now rewrite HR, HC.
Qed.

Lemma agree_refl s : agree s s.
Proof. unfold agree; tauto. Qed.

Lemma agree_sym s s' : agree s s' -> agree s' s.
Proof.
  unfold agree. intros (H1 & H2 & H3 & H4 & H5 & H6).
  repeat (split; [congruence | ]).
  intros Hn. destruct H6; [congruence | split; congruence].
Qed.

Lemma agree_trans s1 s2 s3 : agree s1 s2 -> agree s2 s3 -> agree s1 s3.
Proof.
  unfold agree. intros (H1 & H2 & H3 & H4 & H5 & H6) (G1 & G2 & G3 & G4 & G5 & G6).
  repeat (split; [congruence | ]).
  intros Hn. destruct (H6 Hn), G6; [congruence | split; congruence].
Qed.

Lemma agree_nbuf s s' : agree s s' -> nbuf s = nbuf s'.
Proof. now intros (_ & _ & _ & _ & H & _). Qed.

Lemma agree_pending s s' : agree s s' -> nbuf s <> 0 -> s = s'.
Proof.
  intros (H1 & H2 & H3 & H4 & H5 & H6) Hn. destruct (H6 Hn).
  now apply Shannon_eq.
Qed.

Lemma open_word_agree s s' : agree s s' -> open_word s = open_word s'.
Proof.
  intros H. destruct (Z.eq_dec (nbuf s) 0) as [Hz | Hz].
  - unfold open_word. destruct H as (H1 & H2 & H3 & H4 & H5 & H6).
    rewrite <- H5, Hz. simpl (0 =? 0).
    destruct (cycle_R_sbuf s s' H1 H4).
    apply Shannon_eq; cbn [R CRC initR konst sbuf mbuf nbuf set_nbuf set_mbuf]; auto.
  - now rewrite (agree_pending _ _ H Hz).
Qed.

Lemma agree_macFunc s1 s2 w :
  R s1 = R s2 -> CRC s1 = CRC s2 -> initR s1 = initR s2 -> konst s1 = konst s2 ->
  nbuf s1 = 0 -> nbuf s2 = 0 -> agree (macFunc s1 w) (macFunc s2 w).
Proof.
  intros HR HC HI HK H1 H2.
  destruct (macFunc_R_CRC s1 s2 w HR HC) as [ER EC].
  unfold agree. rewrite ER, EC.
  repeat (split; [reflexivity || assumption|]).
  split; [exact (eq_trans H1 (eq_sym H2))|].
  intros Hn. exfalso. apply Hn. exact H1.
Qed.

Lemma agree_stream_refl s : agree_stream s s.
Proof. unfold agree_stream; tauto. Qed.

Lemma agree_stream_nbuf s s' : agree_stream s s' -> nbuf s = nbuf s'.
Proof. now intros (_ & _ & _ & _ & _ & H & _). Qed.

Lemma open_stream_agree s s' : agree_stream s s' -> open_stream s = open_stream s'.
Proof.
  intros (H1 & H2 & H3 & H4 & H5 & H6 & H7). unfold open_stream. rewrite <- H6.
  destruct (Z.eqb_spec (nbuf s) 0) as [Hz | Hz].
  - destruct (cycle_R_sbuf s s' H1 H4).
    apply Shannon_eq; cbn [R CRC initR konst sbuf mbuf nbuf set_nbuf]; auto.
  - apply Shannon_eq; auto.
Qed.

End Fields.

(** ** The transforms follow their byte machine

    Generic in the machine [M], in the loop bodies of the transform and in
    the relation that the whole-word path keeps with the machine. *)

Section Simulation.

Variable M : Machine.
Variable rel : Shannon -> Shannon -> Prop.
Variable topen : Shannon -> Shannon.
Variables bytef wordf tailf : Frame -> Frame.

Hypothesis part_nbuf : forall s b, nbuf (fst (part M s b)) = nbuf s - 8.
Hypothesis opener_idle : forall s, nbuf s = 0 -> nbuf (opener M s) = 32.
Hypothesis opener_busy : forall s, nbuf s <> 0 -> opener M s = s.
Hypothesis closer_busy : forall s, nbuf s <> 0 -> closer M s = s.
Hypothesis closer_nbuf : forall s, nbuf (closer M s) = nbuf s.
Hypothesis rel_refl : forall s, rel s s.
Hypothesis rel_nbuf : forall s s', rel s s' -> nbuf s = nbuf s'.
Hypothesis rel_opener : forall s s', rel s s' -> opener M s = opener M s'.
Hypothesis topen_opener : forall s, nbuf s = 0 -> topen s = opener M s.
Hypothesis bytef_part : follows M bytef.
Hypothesis tailf_part : follows M tailf.
Hypothesis wordf_run : forall s pre b0 b1 b2 b3 post n,
  is_byte b0 -> is_byte b1 -> is_byte b2 -> is_byte b3 ->
  nbuf s = 0 ->
  exists s',
    wordf (mkFrame s (in_place (pre ++ b0 :: b1 :: b2 :: b3 :: post)) (length pre) n) =
    mkFrame s' (in_place (pre ++ snd (run M s [b0; b1; b2; b3]) ++ post))
            (length pre + 4) n
    /\ rel s' (fst (run M s [b0; b1; b2; b3])).

Lemma parts_length s l : length (snd (parts M s l)) = length l.
Proof.
  revert s; induction l as [|b l IH]; intros s; simpl; [reflexivity|].
  destruct (part M s b) as [s1 o]. specialize (IH s1).
  destruct (parts M s1 l). simpl in *. now rewrite IH.
Qed.

Lemma run_length s l : length (snd (run M s l)) = length l.
Proof.
  revert s; induction l as [|b l IH]; intros s; simpl; [reflexivity|].
  destruct (byte_step M s b) as [s1 o]. specialize (IH s1).
  destruct (run M s1 l). simpl in *. now rewrite IH.
Qed.

Lemma parts_nbuf s l : nbuf (fst (parts M s l)) = nbuf s - 8 * len l.
Proof.
  revert s; induction l as [|b l IH]; intros s.
  - rewrite len_nil. simpl. lia.
  - rewrite len_cons. cbn [parts]. assert (Hp := part_nbuf s b).
    destruct (part M s b) as [s1 o].
    specialize (IH s1). destruct (parts M s1 l). cbn [fst] in *. lia.
Qed.

Lemma run_app s l1 l2 :
  run M s (l1 ++ l2) =
  (fst (run M (fst (run M s l1)) l2),
   snd (run M s l1) ++ snd (run M (fst (run M s l1)) l2)).
Proof.
  revert s; induction l1 as [|b l1 IH]; intros s; simpl.
  - now destruct (run M s l2).
  - destruct (byte_step M s b) as [s1 o]. rewrite IH.
    destruct (run M s1 l1). reflexivity.
Qed.

Lemma byte_step_rel s s' b : rel s s' -> byte_step M s b = byte_step M s' b.
Proof. intros H. unfold byte_step. now rewrite (rel_opener _ _ H). Qed.

Lemma run_rel s s' l : rel s s' -> l <> [] -> run M s l = run M s' l.
Proof.
  intros H Hl. destruct l as [|b l]; [congruence|]. simpl.
  now rewrite (byte_step_rel _ _ b H).
Qed.

Lemma run_rel_any s s' l :
  rel s s' ->
  rel (fst (run M s l)) (fst (run M s' l)) /\ snd (run M s l) = snd (run M s' l).
Proof.
  intros H. destruct l as [|b l].
  - simpl. auto.
  - rewrite (run_rel s s') by (auto; discriminate). split; [apply rel_refl | reflexivity].
Qed.

Lemma opener_opener s : opener M (opener M s) = opener M s.
Proof.
  destruct (Z.eq_dec (nbuf s) 0) as [E|E].
  - apply opener_busy. rewrite opener_idle by assumption. discriminate.
  - now rewrite (opener_busy s E), (opener_busy s E).
Qed.

Lemma run_open s l : l <> [] -> run M (opener M s) l = run M s l.
Proof.
  intros Hl. destruct l as [|b l]; [congruence|]. simpl.
  unfold byte_step. now rewrite opener_opener.
Qed.

Lemma run_parts_lt l : forall s, 8 * len l < nbuf s -> run M s l = parts M s l.
Proof.
  induction l as [|b l IH]; intros s H; [reflexivity|].
  rewrite len_cons in H. assert (Hl := len_nonneg l). cbn [run parts].
  unfold byte_step. rewrite opener_busy by lia.
  assert (Hp := part_nbuf s b). destruct (part M s b) as [s1 o]. cbn [fst] in Hp.
  rewrite closer_busy by lia.
  rewrite IH by lia. reflexivity.
Qed.

Lemma run_parts_eq l : forall s,
  l <> [] -> 8 * len l = nbuf s ->
  run M s l = (closer M (fst (parts M s l)), snd (parts M s l)).
Proof.
  induction l as [|b l IH]; intros s Hl H; [congruence|].
  rewrite len_cons in H. assert (Hl' := len_nonneg l). cbn [run parts].
  unfold byte_step. rewrite opener_busy by lia.
  assert (Hp := part_nbuf s b). destruct (part M s b) as [s1 o]. cbn [fst] in Hp.
  destruct l as [|b' l].
  - reflexivity.
  - rewrite len_cons in H. assert (Hl2 := len_nonneg l).
    rewrite closer_busy by lia.
    rewrite IH by (try discriminate; rewrite ?len_cons; lia).
    destruct (parts M s1 (b' :: l)). reflexivity.
Qed.

Lemma run_aligned l : forall s, aligned s -> aligned (fst (run M s l)).
Proof.
  induction l as [|b l IH]; intros s Hs; [assumption|].
  cbn [run]. unfold byte_step.
  assert (Ho : nbuf (opener M s) = 32 \/ nbuf (opener M s) = 8 \/
               nbuf (opener M s) = 16 \/ nbuf (opener M s) = 24).
  { destruct (Z.eq_dec (nbuf s) 0) as [E|E].
    - left. now apply opener_idle.
    - rewrite opener_busy by assumption. unfold aligned in Hs. lia. }
  assert (Hp := part_nbuf (opener M s) b).
  destruct (part M (opener M s) b) as [s1 o]. cbn [fst] in Hp.
  specialize (IH (closer M s1)).
  destruct (run M (closer M s1) l) as [s2 os]. cbn [fst] in *.
  apply IH. unfold aligned. rewrite closer_nbuf. lia.
Qed.

Lemma run_word_nbuf s b0 b1 b2 b3 :
  nbuf s = 0 -> nbuf (fst (run M s [b0; b1; b2; b3])) = 0.
Proof.
  intros H. rewrite <- run_open by discriminate.
  rewrite run_parts_eq; try discriminate.
  - cbn [fst]. now rewrite closer_nbuf, parts_nbuf, opener_idle.
  - now rewrite opener_idle.
Qed.

Lemma run_word_parts s b0 b1 b2 b3 :
  nbuf s = 0 ->
  run M s [b0; b1; b2; b3] =
  (closer M (fst (parts M (opener M s) [b0; b1; b2; b3])),
   snd (parts M (opener M s) [b0; b1; b2; b3])).
Proof.
  intros H. rewrite <- run_open by discriminate.
  apply run_parts_eq; [discriminate | now rewrite opener_idle].
Qed.

(** The byte loop, run on the bytes [l] that it will consume. *)
Lemma drain g (Hg : follows M g) l : forall pre post s n fuel,
  bytes l ->
  (length l <= fuel)%nat ->
  8 * len l <= nbuf s ->
  len l <= n ->
  nbuf s = 8 * len l \/ n = len l ->
  while fuel pending g (mkFrame s (in_place (pre ++ l ++ post)) (length pre) n) =
  mkFrame (fst (parts M s l)) (in_place (pre ++ snd (parts M s l) ++ post))
          (length pre + length l) (n - len l).
Proof.
  induction l as [|b l IH]; intros pre post s n fuel Hby Hf Hb Hn Hd.
  - rewrite len_nil in *. simpl. rewrite while_stop.
    + f_equal; lia.
    + unfold pending; simpl. destruct Hd as [-> | ->]; simpl;
        [reflexivity | apply andb_false_r].
  - rewrite len_cons in *. assert (Hl := len_nonneg l).
    inversion Hby as [|? ? Hb0 Hby']; subst.
    simpl length in *. destruct fuel as [|fuel]; [lia|].
    rewrite while_step.
    2: { unfold pending; simpl.
         destruct (Z.eqb_spec (nbuf s) 0); [lia|].
         destruct (Z.eqb_spec n 0); [lia|]. reflexivity. }
    simpl app. rewrite Hg by assumption.
    assert (Hp := part_nbuf s b).
    replace (S (length pre)) with (length (pre ++ [snd (part M s b)]))
      by (rewrite length_app; simpl; lia).
    replace (pre ++ snd (part M s b) :: l ++ post)
      with ((pre ++ [snd (part M s b)]) ++ l ++ post)
      by (rewrite <- app_assoc; reflexivity).
    rewrite IH by (assumption || lia).
    simpl parts. destruct (part M s b) as [s1 o]. simpl fst; simpl snd.
    destruct (parts M s1 l) as [s2 os]. simpl fst; simpl snd.
    rewrite <- app_assoc, length_app. simpl.
    f_equal; lia.
Qed.

(** The whole-word loop over [K] words. *)
Lemma word_loop K : forall ws pre post s sref j n fuel,
  length ws = (4 * K)%nat -> bytes ws ->
  nbuf s = 0 -> rel s sref ->
  (K <= fuel)%nat ->
  (forall q, (q < K)%nat -> Z.of_nat (length pre + 4 * q) < j) ->
  ~ Z.of_nat (length pre + 4 * K) < j ->
  exists s',
    while fuel (fun f => Z.of_nat (ix f) <? j) wordf
          (mkFrame s (in_place (pre ++ ws ++ post)) (length pre) n) =
    mkFrame s' (in_place (pre ++ snd (run M sref ws) ++ post))
            (length pre + 4 * K) n
    /\ rel s' (fst (run M sref ws)) /\ nbuf s' = 0.
Proof.
  induction K as [|K IH]; intros ws pre post s sref j n fuel Hw Hby Hs Ha Hf Hlt Hge.
  - destruct ws; [|discriminate]. exists s. rewrite while_stop.
    + cbn [run fst snd]. rewrite Nat.mul_0_r, Nat.add_0_r. auto.
    + cbn [ix]. apply Z.ltb_ge. lia.
  - destruct ws as [|b0 [|b1 [|b2 [|b3 ws]]]]; try (simpl in Hw; lia).
    inversion Hby as [|? ? B0 Hby1]; subst. inversion Hby1 as [|? ? B1 Hby2]; subst.
    inversion Hby2 as [|? ? B2 Hby3]; subst. inversion Hby3 as [|? ? B3 Hby4]; subst.
    destruct fuel as [|fuel]; [lia|].
    rewrite while_step by (cbn [ix]; apply Z.ltb_lt; specialize (Hlt 0%nat); lia).
    cbn [app].
    destruct (wordf_run s pre b0 b1 b2 b3 (ws ++ post) n B0 B1 B2 B3 Hs) as (s1 & E1 & A1).
    rewrite E1.
    assert (Hr : run M s [b0; b1; b2; b3] = run M sref [b0; b1; b2; b3])
      by (apply run_rel; [assumption | discriminate]).
    rewrite Hr in *.
    set (o := snd (run M sref [b0; b1; b2; b3])) in *.
    set (sref1 := fst (run M sref [b0; b1; b2; b3])) in *.
    assert (Ho : length o = 4%nat) by apply run_length.
    assert (Hn1 : nbuf s1 = 0).
    { rewrite (rel_nbuf _ _ A1). unfold sref1. rewrite <- Hr. now apply run_word_nbuf. }
    replace (length pre + 4)%nat with (length (pre ++ o))
      by (rewrite length_app; lia).
    replace (pre ++ o ++ ws ++ post) with ((pre ++ o) ++ ws ++ post)
      by (now rewrite <- app_assoc).
    destruct (IH ws (pre ++ o) post s1 sref1 j n fuel) as (s2 & E2 & A2 & N2);
      try assumption; try lia.
    { simpl in Hw. lia. }
    { intros q Hq. rewrite length_app, Ho. specialize (Hlt (S q)). lia. }
    { rewrite length_app, Ho. lia. }
    exists s2. rewrite E2.
    change (b0 :: b1 :: b2 :: b3 :: ws) with ([b0; b1; b2; b3] ++ ws).
    rewrite run_app. fold o sref1. cbn [fst snd].
    split; [|split; assumption].
    rewrite <- !app_assoc, length_app, Ho. f_equal. lia.
Qed.

(** Whole words, then the trailing partial word. *)
Lemma rest_run K : forall ws tl pre s sref,
  length ws = (4 * K)%nat -> (length tl < 4)%nat ->
  bytes (ws ++ tl) ->
  len (ws ++ tl) < 2 ^ 31 ->
  (length pre <= 3)%nat ->
  nbuf s = 0 -> rel s sref ->
  let f := gen_rest topen wordf tailf
             (mkFrame s (in_place (pre ++ ws ++ tl)) (length pre) (len (ws ++ tl))) in
  mem f = in_place (pre ++ snd (run M sref (ws ++ tl)))
  /\ rel (eng f) (fst (run M sref (ws ++ tl))).
Proof.
  intros ws tl pre s sref Hw Ht Hby Hlen Hpre Hs Ha.
  apply bytes_app in Hby. destruct Hby as [Hbw Hbt].
  assert (Hn : len (ws ++ tl) = 4 * Z.of_nat K + len tl)
    by (rewrite len_app; unfold len; lia).
  assert (Htl : 0 <= len tl < 4) by (unfold len; lia).
  unfold gen_rest. cbn [cnt].
  rewrite band_not3 by (split; [apply len_nonneg | assumption]).
  replace (len (ws ++ tl) / 4) with (Z.of_nat K)
    by (rewrite Hn; apply Z.div_unique with (r := len tl); lia).
  destruct (word_loop K ws pre tl s sref (4 * Z.of_nat K) (len (ws ++ tl))
              (Z.to_nat (4 * Z.of_nat K))) as (s2 & E2 & A2 & N2);
    try assumption; try lia.
  rewrite E2. unfold set_cnt at 1 2 3. cbn [cnt eng mem ix].
  rewrite band_3 by (split; [apply len_nonneg | assumption]).
  replace (len (ws ++ tl) mod 4) with (len tl)
    by (rewrite Hn; apply Z.mod_unique with (q := Z.of_nat K); lia).
  rewrite run_app.
  set (o := snd (run M sref ws)) in *.
  set (sref2 := fst (run M sref ws)) in *.
  assert (Ho : length o = (4 * K)%nat) by (unfold o; now rewrite run_length).
  assert (N2' : nbuf sref2 = 0) by (now rewrite <- (rel_nbuf _ _ A2)).
  destruct tl as [|t0 tl].
  - cbn [len length Z.of_nat Z.eqb negb run fst snd eng mem]. split; [reflexivity | assumption].
  - destruct (Z.eqb_spec (len (t0 :: tl)) 0) as [E|E];
      [rewrite len_cons in E; assert (H0 := len_nonneg tl); lia|].
    cbn [negb]. unfold set_eng, set_cnt; cbn [eng mem ix cnt].
    rewrite (topen_opener s2 N2), (rel_opener _ _ A2).
    replace (length pre + 4 * K)%nat with (length (pre ++ o))
      by (rewrite length_app; lia).
    replace (pre ++ o ++ t0 :: tl) with ((pre ++ o) ++ (t0 :: tl) ++ [])
      by (now rewrite app_nil_r, <- app_assoc).
    rewrite (drain tailf tailf_part).
    + assert (Hr : parts M (opener M sref2) (t0 :: tl) = run M sref2 (t0 :: tl)).
      { rewrite <- run_open by discriminate. symmetry. apply run_parts_lt.
        rewrite opener_idle by assumption. lia. }
      rewrite Hr. cbn [eng mem fst snd]. split; [|apply rel_refl].
      now rewrite app_nil_r, <- app_assoc.
    + assumption.
    + unfold len. lia.
    + rewrite opener_idle by assumption. lia.
    + lia.
    + right. reflexivity.
Qed.

(** With nothing left to consume the rest of a transform does nothing. *)
Lemma rest_idle f :
  cnt f = 0 ->
  eng (gen_rest topen wordf tailf f) = eng f /\ mem (gen_rest topen wordf tailf f) = mem f.
Proof.
  intros H. destruct f as [e m i c]. cbn [cnt] in H. subst c.
  unfold gen_rest. cbn [cnt].
  rewrite band_not3 by lia. change (4 * (0 / 4)) with 0. cbn [Z.to_nat while].
  unfold set_cnt. cbn [cnt eng mem ix]. rewrite band_3 by lia.
  change (0 mod 4) with 0. cbn [Z.eqb negb eng mem]. split; reflexivity.
Qed.

(** The first loop of a transform entered with bits pending: either the
    input ends inside the pending word, or its first bytes complete it. *)
Lemma head_run s P :
  aligned s -> nbuf s <> 0 -> bytes P ->
  let f := while (length P) pending bytef (mkFrame s (in_place P) 0 (len P)) in
  (f = mkFrame (fst (run M s P)) (in_place (snd (run M s P))) (length P) 0
   /\ nbuf (fst (run M s P)) <> 0)
  \/
  (exists l1 P2 e1 o1,
      P = l1 ++ P2 /\ (length o1 <= 3)%nat /\ nbuf e1 = 0 /\
      f = mkFrame e1 (in_place (o1 ++ P2)) (length o1) (len P2) /\
      run M s l1 = (closer M e1, o1)).
Proof.
  intros Hal Hnz Hby f.
  destruct (Nat.lt_ge_cases (length P) (Z.to_nat (nbuf s / 8))) as [Hshort|Hlong].
  - left.
    assert (Hb : 8 * len P < nbuf s).
    { unfold len. destruct Hal as [H|[H|[H|H]]]; rewrite H in *;
        [lia | change (8 / 8) with 1 in Hshort | change (16 / 8) with 2 in Hshort
         | change (24 / 8) with 3 in Hshort]; lia. }
    unfold f.
    replace (mkFrame s (in_place P) 0 (len P))
      with (mkFrame s (in_place ([] ++ P ++ [])) (length (@nil Z)) (len P))
      by (now rewrite app_nil_r).
    rewrite (drain bytef bytef_part) by (try lia; auto).
    rewrite run_parts_lt by assumption. rewrite parts_nbuf.
    split; [|lia]. rewrite app_nil_r. cbn [app length Nat.add]. f_equal. lia.
  - right.
    set (k := Z.to_nat (nbuf s / 8)) in *.
    assert (Hk : nbuf s = 8 * Z.of_nat k /\ (1 <= k <= 3)%nat)
      by (unfold k; destruct Hal as [H|[H|[H|H]]]; [lia|rewrite H..];
          [change (8 / 8) with 1 | change (16 / 8) with 2 | change (24 / 8) with 3]; lia).
    destruct Hk as [Hk Hk3].
    assert (Hl1 : length (firstn k P) = k) by (rewrite length_firstn; lia).
    exists (firstn k P), (skipn k P), (fst (parts M s (firstn k P))),
      (snd (parts M s (firstn k P))).
    unfold f. clear f.
    rewrite <- (firstn_skipn k P) in Hby.
    apply bytes_app in Hby. destruct Hby as [Hb1 Hb2].
    set (l1 := firstn k P) in *. set (P2 := skipn k P) in *.
    assert (HP : P = l1 ++ P2) by (symmetry; apply firstn_skipn).
    split; [assumption|].
    split; [rewrite parts_length; lia|].
    split; [rewrite parts_nbuf; unfold len; lia|].
    split.
    + replace (mkFrame s (in_place P) 0 (len P))
        with (mkFrame s (in_place ([] ++ l1 ++ P2)) (length (@nil Z)) (len (l1 ++ P2)))
        by (cbn [app length]; rewrite <- HP; reflexivity).
      rewrite (drain bytef bytef_part l1 [] P2 s (len (l1 ++ P2)) (length P)).
      * cbn [app length Nat.add]. rewrite parts_length, len_app.
        f_equal. lia.
      * assumption.
      * rewrite HP, length_app. lia.
      * unfold len; lia.
      * rewrite len_app; assert (H0 := len_nonneg P2); lia.
      * left; unfold len; lia.
    + apply run_parts_eq.
      * intros E. rewrite E in Hl1. simpl in Hl1. lia.
      * unfold len. lia.
Qed.

(** [macOnly], [encrypt] and [decrypt]: the closer is [macFunc]. *)
Hypothesis closer_mac : forall s, nbuf s = 0 -> closer M s = macFunc s (mbuf s).

Theorem xform_run s P :
  aligned s -> bytes P -> len P < 2 ^ 31 ->
  let f := xform topen bytef wordf tailf s (in_place P) in
  mem f = in_place (snd (run M s P)) /\ rel (eng f) (fst (run M s P)).
Proof.
  intros Hal Hby Hlen. cbv zeta. unfold xform. cbn [buffer in_place].
  destruct (Z.eqb_spec (nbuf s) 0) as [Hz|Hnz]; cbn [negb].
  - destruct (split_words P) as (K & ws & tl & -> & Hw & Ht).
    exact (rest_run K ws tl [] s s Hw Ht Hby Hlen (Nat.le_0_l 3) Hz (rel_refl s)).
  - destruct (head_run s P Hal Hnz Hby) as [[E Hn] | (l1 & P2 & e1 & o1 & HP & Ho & He & E & Hr)];
      rewrite E; cbn [eng mem].
    + destruct (Z.eqb_spec (nbuf (fst (run M s P))) 0) as [E0|E0]; [contradiction|].
      cbn [negb eng mem]. auto.
    + rewrite He. cbn [Z.eqb negb]. unfold set_eng. cbn [eng mem ix cnt].
      rewrite <- (closer_mac e1 He).
      subst P. rewrite run_app, Hr. cbn [fst snd].
      apply bytes_app in Hby. destruct Hby as [Hb1 Hb2].
      destruct (split_words P2) as (K & ws & tl & HP2 & Hw & Ht).
      rewrite HP2 in *.
      assert (Hlen2 : len (ws ++ tl) < 2 ^ 31)
        by (rewrite len_app in Hlen; assert (H0 := len_nonneg l1); lia).
      assert (Hc : nbuf (closer M e1) = 0) by (now rewrite closer_nbuf).
      exact (rest_run K ws tl o1 (closer M e1) (closer M e1) Hw Ht Hb2 Hlen2 Ho Hc
               (rel_refl _)).
Qed.

(** [stream]: nothing is done when a word closes. *)
Hypothesis closer_id : forall s, closer M s = s.

Theorem sform_run s P :
  aligned s -> bytes P -> len P < 2 ^ 31 ->
  let f := sform topen bytef wordf tailf s (in_place P) in
  mem f = in_place (snd (run M s P)) /\ rel (eng f) (fst (run M s P)).
Proof.
  intros Hal Hby Hlen. cbv zeta. unfold sform. cbn [buffer in_place].
  destruct (Z.eq_dec (nbuf s) 0) as [Hz|Hnz].
  - rewrite while_stop by (unfold pending; cbn [eng]; rewrite Hz; reflexivity).
    destruct (split_words P) as (K & ws & tl & -> & Hw & Ht).
    exact (rest_run K ws tl [] s s Hw Ht Hby Hlen (Nat.le_0_l 3) Hz (rel_refl s)).
  - destruct (head_run s P Hal Hnz Hby) as [[E Hn] | (l1 & P2 & e1 & o1 & HP & Ho & He & E & Hr)];
      rewrite E.
    + destruct (rest_idle (mkFrame (fst (run M s P)) (in_place (snd (run M s P)))
                                   (length P) 0) eq_refl) as [-> ->].
      cbn [eng mem]. split; [reflexivity | apply rel_refl].
    + subst P. rewrite run_app, Hr. cbn [fst snd]. rewrite closer_id.
      apply bytes_app in Hby. destruct Hby as [Hb1 Hb2].
      destruct (split_words P2) as (K & ws & tl & HP2 & Hw & Ht).
      rewrite HP2 in *.
      assert (Hlen2 : len (ws ++ tl) < 2 ^ 31)
        by (rewrite len_app in Hlen; assert (H0 := len_nonneg l1); lia).
      exact (rest_run K ws tl o1 e1 e1 Hw Ht Hb2 Hlen2 Ho He (rel_refl _)).
Qed.

End Simulation.

(** ** The four machines *)

Section Machines.

Lemma open_word_idle s : nbuf s = 0 -> nbuf (open_word s) = 32.
Proof. intros H. unfold open_word. now rewrite H. Qed.

Lemma open_word_busy s : nbuf s <> 0 -> open_word s = s.
Proof. intros H. unfold open_word. now destruct (Z.eqb_spec (nbuf s) 0). Qed.

Lemma open_stream_idle s : nbuf s = 0 -> nbuf (open_stream s) = 32.
Proof. intros H. unfold open_stream. now rewrite H. Qed.

Lemma open_stream_busy s : nbuf s <> 0 -> open_stream s = s.
Proof. intros H. unfold open_stream. now destruct (Z.eqb_spec (nbuf s) 0). Qed.

Lemma close_word_busy s : nbuf s <> 0 -> close_word s = s.
Proof. intros H. unfold close_word. now destruct (Z.eqb_spec (nbuf s) 0). Qed.

Lemma close_word_nbuf s : nbuf (close_word s) = nbuf s.
Proof. unfold close_word. now destruct (nbuf s =? 0). Qed.

Lemma close_word_idle s : nbuf s = 0 -> close_word s = macFunc s (mbuf s).
Proof. intros H. unfold close_word. now rewrite H. Qed.

Lemma mac_open_idle s : nbuf s = 0 -> mac_open s = open_word s.
Proof. intros H. unfold open_word, mac_open. now rewrite H. Qed.

Lemma stream_open_idle s : nbuf s = 0 -> stream_open s = open_stream s.
Proof. intros H. unfold open_stream, stream_open. now rewrite H. Qed.

Lemma parts_word M s0 b0 b1 b2 b3 :
  parts M s0 [b0; b1; b2; b3] =
  let '(s1, o0) := part M s0 b0 in
  let '(s2, o1) := part M s1 b1 in
  let '(s3, o2) := part M s2 b2 in
  let '(s4, o3) := part M s3 b3 in
  (s4, [o0; o1; o2; o3]).
Proof.
  cbn [parts]. destruct (part M s0 b0) as [s1 o0], (part M s1 b1) as [s2 o1],
    (part M s2 b2) as [s3 o2], (part M s3 b3) as [s4 o3]. reflexivity.
Qed.

Lemma encrypt_byte_follows : follows enc_machine encrypt_byte.
Proof.
  intros s pre b post n _.
  unfold encrypt_byte, enc_machine, enc_part, absorb, ks_byte, in_place,
    rd_buffer, rd_output, wr_output.
  cbn [eng mem ix cnt fst snd buffer output part].
  rewrite get_here, set8_here. reflexivity.
Qed.

Lemma decrypt_byte_follows : follows dec_machine decrypt_byte.
Proof.
  intros s pre b post n _.
  unfold decrypt_byte, dec_machine, dec_part, absorb, ks_byte, in_place,
    rd_buffer, rd_output, wr_output.
  cbn [eng mem ix cnt fst snd buffer output part].
  rewrite get_here, set8_here, get_here. reflexivity.
Qed.

Lemma decrypt_tail_byte_follows : follows dec_machine decrypt_tail_byte.
Proof.
  intros s pre b post n _.
  unfold decrypt_tail_byte, dec_machine, dec_part, absorb, ks_byte, in_place,
    rd_buffer, wr_buffer.
  cbn [eng mem ix cnt fst snd buffer output part].
  rewrite get_here, set8_here, get_here. reflexivity.
Qed.

Lemma mac_byte_follows : follows mac_machine mac_byte.
Proof.
  intros s pre b post n Hb.
  unfold mac_byte, mac_machine, mac_part, absorb, in_place, rd_buffer.
  cbn [eng mem ix cnt fst snd buffer output part].
  rewrite get_here, (band_byte b Hb). reflexivity.
Qed.

Lemma stream_byte_follows : follows stream_machine stream_byte.
Proof.
  intros s pre b post n _.
  unfold stream_byte, stream_machine, stream_part, in_place, rd_output, wr_output.
  cbn [eng mem ix cnt fst snd buffer output part].
  rewrite get_here, set8_here. reflexivity.
Qed.

Ltac word_machine_eval H :=
  rewrite parts_word;
  cbn [part enc_machine dec_machine mac_machine stream_machine];
  unfold enc_part, dec_part, mac_part, stream_part, absorb, ks_byte;
  cbn [fst snd nbuf mbuf sbuf set_nbuf set_mbuf set_sbuf];
  change (32 - 32) with 0; change (32 - 8) with 24; change (32 - 24) with 8;
  change (24 - 8) with 16; change (32 - 16) with 16; change (16 - 8) with 8;
  change (32 - 8) with 24; change (8 - 8) with 0.

Lemma encrypt_word_run s pre b0 b1 b2 b3 post n :
  is_byte b0 -> is_byte b1 -> is_byte b2 -> is_byte b3 ->
  nbuf s = 0 ->
  exists s',
    encrypt_word (mkFrame s (in_place (pre ++ b0 :: b1 :: b2 :: b3 :: post)) (length pre) n) =
    mkFrame s' (in_place (pre ++ snd (run enc_machine s [b0; b1; b2; b3]) ++ post))
            (length pre + 4) n
    /\ agree s' (fst (run enc_machine s [b0; b1; b2; b3])).
Proof.
  intros _ _ _ _ H.
  rewrite (run_word_parts enc_machine) by (auto using open_word_idle, open_word_busy,
    close_word_busy).
  cbn [opener closer enc_machine]. unfold open_word. rewrite H. cbn [Z.eqb].
  unfold encrypt_word. cbn [eng].
  assert (Hc : nbuf (cycle s) = 0) by exact H.
  generalize dependent (cycle s). intros c Hc.
  word_machine_eval H.
  rewrite absorb_four. unfold close_word. cbn [nbuf set_nbuf mbuf set_mbuf Z.eqb].
  unfold in_place, rd_buffer, rd_output, wr_output.
  cbn [eng mem ix cnt buffer output].
  rewrite !get_at, get_here. cbn [nth].
  set (w := word_of_bytes b0 b1 b2 b3).
  exists (macFunc c w). split.
  - f_equal. f_equal.
    rewrite !set8_at. cbn [upd]. rewrite set8_here.
    unfold w. rewrite out_byte0, out_byte1, out_byte2, out_byte3.
    rewrite macFunc_sbuf. reflexivity.
  - apply agree_macFunc; try reflexivity; assumption.
Qed.

Lemma decrypt_word_run s pre b0 b1 b2 b3 post n :
  is_byte b0 -> is_byte b1 -> is_byte b2 -> is_byte b3 ->
  nbuf s = 0 ->
  exists s',
    decrypt_word (mkFrame s (in_place (pre ++ b0 :: b1 :: b2 :: b3 :: post)) (length pre) n) =
    mkFrame s' (in_place (pre ++ snd (run dec_machine s [b0; b1; b2; b3]) ++ post))
            (length pre + 4) n
    /\ agree s' (fst (run dec_machine s [b0; b1; b2; b3])).
Proof.
  intros _ _ _ _ H.
  rewrite (run_word_parts dec_machine) by (auto using open_word_idle, open_word_busy,
    close_word_busy).
  cbn [opener closer dec_machine]. unfold open_word. rewrite H. cbn [Z.eqb].
  unfold decrypt_word. cbn [eng].
  assert (Hc : nbuf (cycle s) = 0) by exact H.
  generalize dependent (cycle s). intros c Hc.
  word_machine_eval H.
  rewrite absorb_four, word_of_out_bytes.
  unfold close_word. cbn [nbuf set_nbuf mbuf set_mbuf Z.eqb].
  unfold in_place, rd_buffer, rd_output, wr_output.
  cbn [eng mem ix cnt buffer output].
  rewrite !get_at, get_here. cbn [nth].
  set (w := word_of_bytes b0 b1 b2 b3).
  exists (macFunc c (bxor w (sbuf c))). split.
  - f_equal. f_equal.
    rewrite !set8_at. cbn [upd]. rewrite set8_here.
    unfold w. rewrite out_byte0, out_byte1, out_byte2, out_byte3. reflexivity.
  - apply agree_macFunc; try reflexivity; assumption.
Qed.

Lemma mac_word_run s pre b0 b1 b2 b3 post n :
  is_byte b0 -> is_byte b1 -> is_byte b2 -> is_byte b3 ->
  nbuf s = 0 ->
  exists s',
    mac_word (mkFrame s (in_place (pre ++ b0 :: b1 :: b2 :: b3 :: post)) (length pre) n) =
    mkFrame s' (in_place (pre ++ snd (run mac_machine s [b0; b1; b2; b3]) ++ post))
            (length pre + 4) n
    /\ agree s' (fst (run mac_machine s [b0; b1; b2; b3])).
Proof.
  intros _ _ _ _ H.
  rewrite (run_word_parts mac_machine) by (auto using open_word_idle, open_word_busy,
    close_word_busy).
  cbn [opener closer mac_machine]. unfold open_word. rewrite H. cbn [Z.eqb].
  unfold mac_word. cbn [eng].
  assert (Hc : nbuf (cycle s) = 0) by exact H.
  generalize dependent (cycle s). intros c Hc.
  word_machine_eval H.
  rewrite absorb_four. unfold close_word. cbn [nbuf set_nbuf mbuf set_mbuf Z.eqb].
  unfold in_place, rd_buffer.
  cbn [eng mem ix cnt buffer output].
  rewrite !get_at, get_here. cbn [nth].
  set (w := word_of_bytes b0 b1 b2 b3).
  exists (macFunc c w). split.
  - reflexivity.
  - apply agree_macFunc; try reflexivity; assumption.
Qed.

Lemma stream_word_run s pre b0 b1 b2 b3 post n :
  is_byte b0 -> is_byte b1 -> is_byte b2 -> is_byte b3 ->
  nbuf s = 0 ->
  exists s',
    stream_word (mkFrame s (in_place (pre ++ b0 :: b1 :: b2 :: b3 :: post)) (length pre) n) =
    mkFrame s' (in_place (pre ++ snd (run stream_machine s [b0; b1; b2; b3]) ++ post))
            (length pre + 4) n
    /\ agree_stream s' (fst (run stream_machine s [b0; b1; b2; b3])).
Proof.
  intros _ _ _ _ H.
  rewrite (run_word_parts stream_machine)
    by (auto using open_stream_idle, open_stream_busy).
  cbn [opener closer stream_machine]. unfold open_stream. rewrite H. cbn [Z.eqb].
  unfold stream_word. cbn [eng].
  assert (Hc : nbuf (cycle s) = 0) by exact H.
  generalize dependent (cycle s). intros c Hc.
  word_machine_eval H.
  unfold in_place, rd_output, wr_output.
  cbn [eng mem ix cnt buffer output].
  rewrite !set8_at. cbn [upd]. rewrite !get_at. cbn [nth].
  rewrite set8_here, get_here.
  exists c. split.
  - rewrite !sar_sar_16, sar_sar_24. reflexivity.
  - unfold agree_stream. cbn [R CRC initR konst mbuf nbuf sbuf set_nbuf set_sbuf].
    repeat (split; [reflexivity || assumption|]). intros E. contradiction.
Qed.

End Machines.

(** ** The transforms of the source, in place, follow their machine *)

Section Transforms.

Ltac split_ifs :=
  cbv zeta;
  repeat match goal with
  | |- context [if ?c then _ else _] => destruct c
  end;
  reflexivity.

Lemma encrypt_shape s m :
  encrypt s m =
  (eng (xform mac_open encrypt_byte encrypt_word encrypt_byte s m),
   mem (xform mac_open encrypt_byte encrypt_word encrypt_byte s m)).
Proof. unfold encrypt, encrypt_rest, xform, gen_rest, mac_open. split_ifs. Qed.

Lemma decrypt_shape s m :
  decrypt s m =
  (eng (xform mac_open decrypt_byte decrypt_word decrypt_tail_byte s m),
   mem (xform mac_open decrypt_byte decrypt_word decrypt_tail_byte s m)).
Proof. unfold decrypt, decrypt_rest, xform, gen_rest, mac_open. split_ifs. Qed.

Lemma macOnly_shape s b :
  macOnly s b = eng (xform mac_open mac_byte mac_word mac_byte s (mkBufs b None)).
Proof. unfold macOnly, macOnly_rest, xform, gen_rest, mac_open. cbn [buffer]. split_ifs. Qed.

Lemma stream_shape s m :
  stream s m =
  (eng (sform stream_open stream_byte stream_word stream_byte s m),
   mem (sform stream_open stream_byte stream_word stream_byte s m)).
Proof. unfold stream, sform, gen_rest, stream_open. split_ifs. Qed.

Variables (s : Shannon) (P : list Z).
Hypothesis s_aligned : aligned s.
Hypothesis P_bytes : bytes P.
Hypothesis P_len : len P < 2 ^ 31.

Theorem encrypt_run :
  exists s',
    encrypt s (in_place P) = (s', in_place (snd (run enc_machine s P)))
    /\ agree s' (fst (run enc_machine s P)).
Proof.
  rewrite encrypt_shape.
  destruct (xform_run enc_machine agree mac_open encrypt_byte encrypt_word encrypt_byte)
    with (s := s) (P := P) as [Hm Hr];
    auto using open_word_idle, open_word_busy, close_word_busy, close_word_nbuf,
      agree_refl, agree_nbuf, open_word_agree, mac_open_idle, encrypt_byte_follows,
      encrypt_word_run, close_word_idle.
  eexists. split; [|exact Hr]. now rewrite Hm.
Qed.

Theorem decrypt_run :
  exists s',
    decrypt s (in_place P) = (s', in_place (snd (run dec_machine s P)))
    /\ agree s' (fst (run dec_machine s P)).
Proof.
  rewrite decrypt_shape.
  destruct (xform_run dec_machine agree mac_open decrypt_byte decrypt_word
              decrypt_tail_byte)
    with (s := s) (P := P) as [Hm Hr];
    auto using open_word_idle, open_word_busy, close_word_busy, close_word_nbuf,
      agree_refl, agree_nbuf, open_word_agree, mac_open_idle, decrypt_byte_follows,
      decrypt_tail_byte_follows, decrypt_word_run, close_word_idle.
  eexists. split; [|exact Hr]. now rewrite Hm.
Qed.

Theorem macOnly_run : agree (macOnly s P) (fst (run mac_machine s P)).
Proof.
  rewrite macOnly_shape.
  destruct (xform_run mac_machine agree mac_open mac_byte mac_word mac_byte)
    with (s := s) (P := P) as [Hm Hr];
    auto using open_word_idle, open_word_busy, close_word_busy, close_word_nbuf,
      agree_refl, agree_nbuf, open_word_agree, mac_open_idle, mac_byte_follows,
      mac_word_run, close_word_idle.
Qed.

Theorem stream_run :
  exists s',
    stream s (in_place P) = (s', in_place (snd (run stream_machine s P)))
    /\ agree_stream s' (fst (run stream_machine s P)).
Proof.
  rewrite stream_shape.
  destruct (sform_run stream_machine agree_stream stream_open stream_byte stream_word
              stream_byte)
    with (s := s) (P := P) as [Hm Hr];
    auto using open_stream_idle, open_stream_busy, agree_stream_refl, agree_stream_nbuf,
      open_stream_agree, stream_open_idle, stream_byte_follows, stream_word_run.
  eexists. split; [|exact Hr]. now rewrite Hm.
Qed.

End Transforms.

(** ** finish does not read a staged word that holds no pending bits *)

Section Finish.

Lemma while_commute {A} (h : A -> A) fuel (c : A -> bool) b :
  (forall a, c (h a) = c a) -> (forall a, b (h a) = h (b a)) ->
  forall a, while fuel c b (h a) = h (while fuel c b a).
Proof.
  intros Hc Hb. induction fuel as [|fuel IH]; intros a; simpl; [reflexivity|].
  rewrite Hc. destruct (c a); [|reflexivity]. now rewrite Hb, IH.
Qed.

Lemma cycle_set_mbuf s m : cycle (set_mbuf s m) = set_mbuf (cycle s) m.
Proof.
  unfold cycle, set_mbuf, set_sbuf, set_R.
  cbn [R CRC initR konst sbuf mbuf nbuf]. reflexivity.
Qed.

Lemma addKey_set_mbuf s m k : addKey (set_mbuf s m) k = set_mbuf (addKey s k) m.
Proof.
  unfold addKey, set_mbuf, set_R.
  cbn [R CRC initR konst sbuf mbuf nbuf]. reflexivity.
Qed.

Lemma fold_commute {A B} (f h : A -> A) (l : list B) :
  (forall a, f (h a) = h (f a)) ->
  forall a, fold_left (fun acc _ => f acc) l (h a) = h (fold_left (fun acc _ => f acc) l a).
Proof.
  intros Hf. induction l as [|x l IH]; intros a; cbn [fold_left]; [reflexivity|].
  rewrite Hf. apply IH.
Qed.

Lemma diffuse_set_mbuf s m : diffuse (set_mbuf s m) = set_mbuf (diffuse s) m.
Proof.
  unfold diffuse, for_.
  apply (fold_commute cycle (fun s => set_mbuf s m)).
  intros a. apply cycle_set_mbuf.
Qed.

Lemma finish_step_set_mbuf m f :
  finish_step (fin_set_mbuf m f) = fin_set_mbuf m (finish_step f).
Proof.
  destruct f as [e o i n b].
  unfold finish_step, fin_set_mbuf. cbn [fin_eng fin_out fin_i fin_n fin_brk].
  rewrite cycle_set_mbuf, !sbuf_set_mbuf.
  destruct (n >=? 4); cbn [fin_eng fin_out fin_i fin_n fin_brk]; reflexivity.
Qed.

Lemma finish_step_nbuf f : nbuf (fin_eng (finish_step f)) = nbuf (fin_eng f).
Proof.
  destruct f as [e o i n b]. unfold finish_step. cbn [fin_eng fin_n].
  destruct (n >=? 4); cbn [fin_eng]; apply cycle_nbuf.
Qed.

Lemma diffuse_nbuf s : nbuf (diffuse s) = nbuf s.
Proof.
  unfold diffuse, for_. generalize (seq 0 FOLD). intros l. revert s.
  induction l as [|x l IH]; intros s; cbn [fold_left]; [reflexivity|].
  rewrite IH. apply cycle_nbuf.
Qed.

Lemma finish_buf_nbuf s o : nbuf (fst (finish_buf s o)) = 0.
Proof.
  unfold finish_buf. cbv zeta. cbn [fst].
  apply (while_inv (fun f => nbuf (fin_eng f) = 0)).
  - intros a Ha _. now rewrite finish_step_nbuf.
  - cbn [fin_eng]. rewrite diffuse_nbuf. autorewrite with fields. reflexivity.
Qed.

Lemma finish_buf_set_mbuf s s' m o :
  cycle (if negb (nbuf s' =? 0) then macFunc s' (mbuf s') else s') =
  set_mbuf (cycle (if negb (nbuf s =? 0) then macFunc s (mbuf s) else s)) m ->
  finish_buf s' o = (set_mbuf (fst (finish_buf s o)) m, snd (finish_buf s o)).
Proof.
  intros H. unfold finish_buf. cbv zeta. rewrite H.
  generalize (cycle (if negb (nbuf s =? 0) then macFunc s (mbuf s) else s)).
  intros c. cbn [fst snd].
  rewrite nbuf_set_mbuf, addKey_set_mbuf.
  set (a := addKey c (bxor INITKONST (shl (nbuf c) 3))).
  assert (E : forall r, set_R (set_nbuf (set_mbuf a m) 0) r =
                        set_mbuf (set_R (set_nbuf a 0) r) m) by reflexivity.
  rewrite E, diffuse_set_mbuf.
  autorewrite with fields.
  set (d := diffuse _).
  change (mkFinFrame (set_mbuf d m) o 0%nat (len o) false)
    with (fin_set_mbuf m (mkFinFrame d o 0%nat (len o) false)).
  rewrite (while_commute (fin_set_mbuf m)).
  - reflexivity.
  - reflexivity.
  - intros f. apply finish_step_set_mbuf.
Qed.

Theorem finish_agree s s' a :
  agree s s' ->
  snd (finish s a) = snd (finish s' a) /\ agree (fst (finish s a)) (fst (finish s' a)).
Proof.
  intros H.
  assert (Hb : forall o, snd (finish_buf s o) = snd (finish_buf s' o) /\
                         agree (fst (finish_buf s o)) (fst (finish_buf s' o))).
  { intros o.
    assert (E : exists m,
      cycle (if negb (nbuf s' =? 0) then macFunc s' (mbuf s') else s') =
      set_mbuf (cycle (if negb (nbuf s =? 0) then macFunc s (mbuf s) else s)) m).
    { destruct (Z.eq_dec (nbuf s) 0) as [Hz|Hz].
      - exists (mbuf s'). destruct H as (H1 & H2 & H3 & H4 & H5 & H6).
        rewrite <- H5, Hz. cbn [Z.eqb negb].
        destruct (cycle_R_sbuf s s' H1 H4) as [ER ES].
        destruct (cycle_frame s) as (F1 & F2 & F3 & F4 & F5).
        destruct (cycle_frame s') as (G1 & G2 & G3 & G4 & G5).
        apply Shannon_eq; autorewrite with fields; congruence.
      - rewrite <- (agree_pending _ _ H Hz).
        eexists. symmetry. apply Shannon_eq; autorewrite with fields; reflexivity. }
    destruct E as [m E]. rewrite (finish_buf_set_mbuf s s' m o E). cbn [fst snd].
    split; [reflexivity|].
    assert (Hn := finish_buf_nbuf s o).
    unfold agree. autorewrite with fields.
    do 5 (split; [reflexivity|]). intros Hc. contradiction. }
  destruct a; apply Hb.
Qed.

End Finish.

(** ** Splitting the input of a transform *)

Section Chunks.

Lemma agree_aligned s s' : agree s s' -> aligned s' -> aligned s.
Proof. intros H. unfold aligned. now rewrite (agree_nbuf _ _ H). Qed.

Lemma agree_stream_aligned s s' : agree_stream s s' -> aligned s' -> aligned s.
Proof. intros H. unfold aligned. now rewrite (agree_stream_nbuf _ _ H). Qed.

Lemma agree_stream_trans s1 s2 s3 :
  agree_stream s1 s2 -> agree_stream s2 s3 -> agree_stream s1 s3.
Proof.
  unfold agree_stream.
  intros (H1 & H2 & H3 & H4 & H5 & H6 & H7) (G1 & G2 & G3 & G4 & G5 & G6 & G7).
  do 6 (split; [congruence | ]).
  intros Hn. rewrite H7 by assumption. apply G7. congruence.
Qed.

Variable f : Shannon -> Bufs -> Shannon * Bufs.
Variable M : Machine.
Variable rel : Shannon -> Shannon -> Prop.

Hypothesis rel_refl : forall s, rel s s.
Hypothesis rel_trans : forall s1 s2 s3, rel s1 s2 -> rel s2 s3 -> rel s1 s3.
Hypothesis rel_aligned : forall s s', rel s s' -> aligned s' -> aligned s.
Hypothesis run_keeps_aligned : forall l s, aligned s -> aligned (fst (run M s l)).
Hypothesis run_respects : forall s s' l,
  rel s s' ->
  rel (fst (run M s l)) (fst (run M s' l)) /\ snd (run M s l) = snd (run M s' l).
Hypothesis f_run : forall s P,
  aligned s -> bytes P -> len P < 2 ^ 31 ->
  exists s', f s (in_place P) = (s', in_place (snd (run M s P)))
             /\ rel s' (fst (run M s P)).

(** Chunk by chunk, the transform does what the machine does on the
    concatenation. *)
Lemma chunked_run chunks : forall s,
  aligned s -> bytes (concat chunks) -> len (concat chunks) < 2 ^ 31 ->
  snd (chunked f s chunks) = snd (run M s (concat chunks)) /\
  rel (fst (chunked f s chunks)) (fst (run M s (concat chunks))).
Proof.
  induction chunks as [|c cs IH]; intros s Hs Hb Hl.
  - cbn [chunked concat run fst snd]. auto.
  - cbn [concat] in *. apply bytes_app in Hb. destruct Hb as [Hbc Hbs].
    rewrite len_app in Hl. assert (H0 := len_nonneg c). assert (H1 := len_nonneg (concat cs)).
    destruct (f_run s c Hs Hbc ltac:(lia)) as (s1 & E1 & A1).
    cbn [chunked]. rewrite E1.
    assert (Hs1 : aligned s1) by (eapply rel_aligned; eauto).
    destruct (IH s1 Hs1 Hbs ltac:(lia)) as [Eo Ao].
    destruct (chunked f s1 cs) as [s2 out]. cbn [fst snd] in *.
    destruct (run_respects _ _ (concat cs) A1) as [Ar Er].
    rewrite run_app. cbn [fst snd returned in_place output buffer].
    split.
    + now rewrite Eo, Er.
    + eapply rel_trans; eauto.
Qed.

(** Hence any split gives what the single call gives. *)
Lemma chunked_whole chunks s :
  aligned s -> bytes (concat chunks) -> len (concat chunks) < 2 ^ 31 ->
  exists s1 s2,
    snd (chunked f s chunks) = returned (snd (f s (in_place (concat chunks)))) /\
    rel (fst (chunked f s chunks)) s1 /\
    rel (fst (f s (in_place (concat chunks)))) s2 /\ s1 = s2.
Proof.
  intros Hs Hb Hl.
  destruct (chunked_run chunks s Hs Hb Hl) as [Eo Ao].
  destruct (f_run s (concat chunks) Hs Hb Hl) as (s' & E' & A').
  exists (fst (run M s (concat chunks))), (fst (run M s (concat chunks))).
  rewrite E'. cbn [fst snd returned in_place output]. auto.
Qed.

End Chunks.

(** ** Machine-level round trip *)

Section RoundTrip.

Lemma dec_enc_step s b :
  is_byte b ->
  byte_step dec_machine s (snd (byte_step enc_machine s b)) =
  (fst (byte_step enc_machine s b), b).
Proof.
  intros Hb. unfold byte_step. cbn [part opener closer enc_machine dec_machine].
  unfold enc_part, dec_part. cbn [fst snd]. now rewrite (bxor_cancel b _ Hb).
Qed.

Lemma dec_enc_run P : forall s,
  bytes P ->
  run dec_machine s (snd (run enc_machine s P)) = (fst (run enc_machine s P), P).
Proof.
  induction P as [|b P IH]; intros s Hb; [reflexivity|].
  inversion Hb as [|? ? Hb0 HbP]; subst.
  cbn [run]. assert (E := dec_enc_step s b Hb0).
  destruct (byte_step enc_machine s b) as [s1 c]. cbn [fst snd] in E.
  specialize (IH s1 HbP).
  destruct (run enc_machine s1 P) as [s2 cs]. cbn [fst snd] in *.
  cbn [run]. now rewrite E, IH.
Qed.

Lemma enc_run_bytes P : forall s, bytes (snd (run enc_machine s P)).
Proof.
  induction P as [|b P IH]; intros s; [constructor|].
  cbn [run]. unfold byte_step at 1. cbn [part opener closer enc_machine].
  unfold enc_part at 1. specialize (IH (close_word (absorb (open_word s) b))).
  fold enc_machine in *.
  destruct (run enc_machine (close_word (absorb (open_word s) b)) P) as [s2 cs].
  cbn [snd] in *. constructor; [apply toUint8_is_byte | assumption].
Qed.

Lemma session_nbuf K IV : nbuf (session K IV) = 0.
Proof. destruct IV; reflexivity. Qed.

Lemma session_aligned K IV : aligned (session K IV).
Proof. left. apply session_nbuf. Qed.

Lemma enc_run_length s P : length (snd (run enc_machine s P)) = length P.
Proof. apply run_length. Qed.

End RoundTrip.

(** ** Every loop of the embedding stops on its own test

    The fuel given to each [while] covers all its iterations: the loop
    leaves through its condition, as in the source. *)

Section Fuel.

Lemma byte_loop_exit g fuel f :
  takes_byte g -> 0 <= cnt f -> (Z.to_nat (cnt f) <= fuel)%nat ->
  pending (while fuel pending g f) = false.
Proof.
  intros Hg H0 Hf.
  apply (while_exit (fun f => 0 <= cnt f) (fun f => Z.to_nat (cnt f))); try assumption.
  intros a Ha Hp. unfold pending in Hp. apply andb_prop in Hp. destruct Hp as [_ Hc].
  destruct (Z.eqb_spec (cnt a) 0) as [E|E]; [discriminate|].
  destruct (Hg a) as [_ ->]. lia.
Qed.

Lemma head_loop_exit g s m :
  takes_byte g ->
  pending (while (length (buffer m)) pending g (mkFrame s m 0 (len (buffer m)))) = false.
Proof.
  intros Hg. apply byte_loop_exit; cbn [cnt]; unfold len; try assumption; lia.
Qed.

Lemma tail_loop_exit g topen f :
  takes_byte g ->
  let f' := set_eng (set_cnt f (band (cnt f) 3)) (topen (eng f)) in
  pending (while (Z.to_nat (cnt f')) pending g f') = false.
Proof.
  intros Hg f'. assert (Hr := band_3_range (cnt f)).
  apply byte_loop_exit; cbn [f' set_eng set_cnt cnt]; try assumption; lia.
Qed.

Lemma word_loop_exit wordf f :
  (forall f, ix (wordf f) = (ix f + 4)%nat) ->
  let j := band (cnt f) (bnot 3) in
  let c := fun f => Z.of_nat (ix f) <? j in
  c (while (Z.to_nat j) c wordf f) = false.
Proof.
  intros Hw j c.
  apply (while_exit (fun _ => True) (fun f => Z.to_nat (j - Z.of_nat (ix f)))); auto.
  - intros a _ Hc. split; [exact I|]. unfold c in Hc. apply Z.ltb_lt in Hc.
    rewrite Hw. lia.
  - lia.
Qed.

Lemma finish_loop_exit s o :
  let c := fun f => (fin_n f >? 0) && negb (fin_brk f) in
  c (while (length o) c finish_step (mkFinFrame s o 0 (len o) false)) = false.
Proof.
  intros c.
  apply (while_exit (fun _ => True)
           (fun f => if fin_brk f then 0%nat else Z.to_nat (fin_n f))); auto.
  - intros [e out i n b] _ Hc. split; [exact I|].
    unfold c in Hc. cbn [fin_n fin_brk] in Hc. apply andb_prop in Hc.
    destruct Hc as [Hn Hb]. destruct b; [discriminate|].
    apply Z.gtb_lt in Hn. unfold finish_step. cbn [fin_n fin_brk].
    destruct (Z.geb_spec n 4); cbn [fin_n fin_brk]; lia.
  - cbn [fin_n fin_brk]. unfold len. lia.
Qed.

(** The three loops of [loadKey]. *)
Lemma loadKey_word_loop_exit (body : Shannon -> nat -> Shannon) s (_key : list Z) :
  let c := fun '(s, i) => Z.of_nat i <? band (len _key) (bnot 3) in
  c (while (length _key) c (fun '(s, i) => (body s i, (i + 4)%nat)) (s, 0%nat)) = false.
Proof.
  intros c.
  assert (Hj : band (len _key) (bnot 3) <= len _key \/ band (len _key) (bnot 3) < 0).
  { destruct (Z.lt_ge_cases (len _key) (2 ^ 31)).
    - left. rewrite band_not3 by (split; [apply len_nonneg | assumption]).
      assert (H0 := len_nonneg _key). Z.div_mod_to_equations. lia.
    - left. destruct (int32_band (len _key) (bnot 3)). lia. }
  apply (while_exit (fun _ => True)
           (fun '(s, i) => Z.to_nat (band (len _key) (bnot 3) - Z.of_nat i))); auto.
  - intros [a i] _ Hc. split; [exact I|]. unfold c in Hc. apply Z.ltb_lt in Hc. lia.
  - unfold len in *. lia.
Qed.

Lemma loadKey_extra_loop_exit (_key extra : list Z) i :
  let c := fun '(extra, i, j) => Z.of_nat i <? len _key in
  c (while (length _key) c
       (fun '(extra, i, j) => (set8 extra j (get _key i), S i, S j)) (extra, i, 0%nat)) = false.
Proof.
  intros c.
  apply (while_exit (fun _ => True)
           (fun '(extra, i, j) => Z.to_nat (len _key - Z.of_nat i))); auto.
  - intros [[a k] j] _ Hc. split; [exact I|]. unfold c in Hc. apply Z.ltb_lt in Hc. lia.
  - unfold len. lia.
Qed.

Lemma loadKey_pad_loop_exit (extra : list Z) j :
  let c := fun '(extra, j) => Z.of_nat j <? 4 in
  c (while 4 c (fun '(extra, j) => (set8 extra j 0, S j)) (extra, j)) = false.
Proof.
  intros c.
  apply (while_exit (fun _ => True) (fun '(extra, j) => Z.to_nat (4 - Z.of_nat j))); auto.
  - intros [a k] _ Hc. split; [exact I|]. unfold c in Hc. apply Z.ltb_lt in Hc. lia.
  - lia.
Qed.

Lemma word_bodies_advance :
  (forall f, ix (stream_word f) = (ix f + 4)%nat) /\
  (forall f, ix (mac_word f) = (ix f + 4)%nat) /\
  (forall f, ix (encrypt_word f) = (ix f + 4)%nat) /\
  (forall f, ix (decrypt_word f) = (ix f + 4)%nat).
Proof. repeat split. Qed.

End Fuel.

(** ** Round trip and chunking *)

(** C2 (round trip).  For every key [K], optional nonce [IV] and plaintext
    [P] (an array of bytes shorter than 2^31): when one engine keyed with [K]
    (and nonced with [IV] when given) encrypts a copy of [P] in place and a
    second engine, keyed and nonced identically, decrypts the ciphertext in
    place, the decrypted array is [P] again, and [finish] returns the same tag
    on both engines for every requested length (or output array). *)
Theorem encrypt_decrypt_roundtrip (K : list Z) (IV : option (list Z)) (P : list Z) :
  bytes P -> len P < 2 ^ 31 ->
  let e := session K IV in
  let enc := encrypt e (in_place P) in
  let dec := decrypt e (in_place (returned (snd enc))) in
  returned (snd dec) = P /\
  forall a, snd (finish (fst enc) a) = snd (finish (fst dec) a).
Proof.
  intros HB HL e enc dec.
  destruct (encrypt_run e P (session_aligned K IV) HB HL) as (s1 & E1 & A1).
  assert (HBc : bytes (snd (run enc_machine e P))) by apply enc_run_bytes.
  assert (HLc : len (snd (run enc_machine e P)) < 2 ^ 31)
    by (unfold len in *; now rewrite enc_run_length).
  destruct (decrypt_run e _ (session_aligned K IV) HBc HLc) as (s2 & E2 & A2).
  unfold dec, enc. rewrite E1. cbn [fst snd returned in_place output buffer].
  change (mkBufs (snd (run enc_machine e P)) None)
    with (in_place (snd (run enc_machine e P))).
  rewrite E2. cbn [fst snd returned in_place output buffer].
  rewrite (dec_enc_run P e HB) in *. cbn [fst snd] in *.
  split; [reflexivity|]. intros a.
  destruct (finish_agree s1 _ a A1) as [T1 _].
  destruct (finish_agree s2 _ a A2) as [T2 _].
  congruence.
Qed.

Lemma encrypt_decrypt_roundtrip_witness :
  let K := [0x65; 0x87; 0xd8; 0x8f; 0x6c; 0x32; 0x9d; 0x8a; 0xe4; 0x6b] in
  let P := [72; 101; 108; 108; 111; 32; 87; 111; 114; 108; 100] in
  let e := session K None in
  let enc := encrypt e (in_place P) in
  let dec := decrypt e (in_place (returned (snd enc))) in
  returned (snd dec) = P /\
  forall a, snd (finish (fst enc) a) = snd (finish (fst dec) a).
Proof.
  apply (encrypt_decrypt_roundtrip
           [0x65; 0x87; 0xd8; 0x8f; 0x6c; 0x32; 0x9d; 0x8a; 0xe4; 0x6b] None
           [72; 101; 108; 108; 111; 32; 87; 111; 114; 108; 100]).
  - repeat constructor; unfold is_byte; lia.
  - vm_compute. reflexivity.
Defined.

Section ChunkedTransforms.

Variables (s : Shannon) (chunks : list (list Z)).
Hypothesis s_aligned : aligned s.
Hypothesis chunks_bytes : bytes (concat chunks).
Hypothesis chunks_len : len (concat chunks) < 2 ^ 31.

Lemma enc_run_keeps_aligned l s0 : aligned s0 -> aligned (fst (run enc_machine s0 l)).
Proof. apply run_aligned; auto using open_word_idle, open_word_busy, close_word_nbuf. Qed.

Lemma dec_run_keeps_aligned l s0 : aligned s0 -> aligned (fst (run dec_machine s0 l)).
Proof. apply run_aligned; auto using open_word_idle, open_word_busy, close_word_nbuf. Qed.

Lemma stream_run_keeps_aligned l s0 :
  aligned s0 -> aligned (fst (run stream_machine s0 l)).
Proof. apply run_aligned; auto using open_stream_idle, open_stream_busy. Qed.

Lemma agree_stream_sym a b : agree_stream a b -> agree_stream b a.
Proof.
  unfold agree_stream. intros (H1 & H2 & H3 & H4 & H5 & H6 & H7).
  do 6 (split; [congruence|]). intros Hn. symmetry. apply H7. congruence.
Qed.

Lemma encrypt_chunked :
  snd (chunked encrypt s chunks) = returned (snd (encrypt s (in_place (concat chunks)))) /\
  agree (fst (chunked encrypt s chunks)) (fst (encrypt s (in_place (concat chunks)))).
Proof.
  destruct (chunked_whole encrypt enc_machine agree agree_refl agree_trans agree_aligned
              enc_run_keeps_aligned
              (fun a b l => run_rel_any enc_machine agree agree_refl open_word_agree a b l)
              encrypt_run chunks s s_aligned chunks_bytes chunks_len)
    as (s1 & s2 & Eo & A1 & A2 & <-).
  split; [assumption|]. eauto using agree_trans, agree_sym.
Qed.

Lemma decrypt_chunked :
  snd (chunked decrypt s chunks) = returned (snd (decrypt s (in_place (concat chunks)))) /\
  agree (fst (chunked decrypt s chunks)) (fst (decrypt s (in_place (concat chunks)))).
Proof.
  destruct (chunked_whole decrypt dec_machine agree agree_refl agree_trans agree_aligned
              dec_run_keeps_aligned
              (fun a b l => run_rel_any dec_machine agree agree_refl open_word_agree a b l)
              decrypt_run chunks s s_aligned chunks_bytes chunks_len)
    as (s1 & s2 & Eo & A1 & A2 & <-).
  split; [assumption|]. eauto using agree_trans, agree_sym.
Qed.

Lemma stream_chunked :
  snd (chunked stream s chunks) = returned (snd (stream s (in_place (concat chunks)))) /\
  agree_stream (fst (chunked stream s chunks)) (fst (stream s (in_place (concat chunks)))).
Proof.
  destruct (chunked_whole stream stream_machine agree_stream agree_stream_refl
              agree_stream_trans agree_stream_aligned stream_run_keeps_aligned
              (fun a b l => run_rel_any stream_machine agree_stream agree_stream_refl
                              open_stream_agree a b l)
              stream_run chunks s s_aligned chunks_bytes chunks_len)
    as (s1 & s2 & Eo & A1 & A2 & <-).
  split; [assumption|]. eauto using agree_stream_trans, agree_stream_sym.
Qed.

End ChunkedTransforms.

(** C3, amended (chunking invariance).  For every key, optional nonce and every
    split of a plaintext (bytes, fewer than 2^31 of them) into consecutive
    chunks: successive in-place [encrypt] calls, one per chunk, on a freshly
    keyed/nonced engine give the same concatenated ciphertext as a single
    [encrypt] call over the whole plaintext on an identically keyed/nonced
    engine, and a following [finish] returns the same tag for every requested
    length (or output array). *)
Theorem encrypt_chunking_invariance (K : list Z) (IV : option (list Z))
    (chunks : list (list Z)) :
  bytes (concat chunks) -> len (concat chunks) < 2 ^ 31 ->
  let e := session K IV in
  let split := chunked encrypt e chunks in
  let whole := encrypt e (in_place (concat chunks)) in
  snd split = returned (snd whole) /\
  forall a, snd (finish (fst split) a) = snd (finish (fst whole) a).
Proof.
  intros HB HL e split whole.
  destruct (encrypt_chunked e chunks (session_aligned K IV) HB HL) as [Eo A].
  split; [exact Eo|]. intros a. now destruct (finish_agree _ _ a A).
Qed.

Lemma encrypt_chunking_invariance_witness :
  let K := [0x65; 0x87; 0xd8; 0x8f; 0x6c; 0x32; 0x9d; 0x8a; 0xe4; 0x6b] in
  let chunks := [[72; 101; 108]; [108; 111; 32; 87; 111; 114]; []; [108; 100]] in
  let e := session K (Some [1; 2; 3]) in
  let split := chunked encrypt e chunks in
  let whole := encrypt e (in_place (concat chunks)) in
  snd split = returned (snd whole) /\
  forall a, snd (finish (fst split) a) = snd (finish (fst whole) a).
Proof.
  apply (encrypt_chunking_invariance
           [0x65; 0x87; 0xd8; 0x8f; 0x6c; 0x32; 0x9d; 0x8a; 0xe4; 0x6b] (Some [1; 2; 3])
           [[72; 101; 108]; [108; 111; 32; 87; 111; 114]; []; [108; 100]]).
  - repeat constructor; unfold is_byte; lia.
  - vm_compute. reflexivity.
Defined.

(** *** Inputs of 2^31 bytes *)

Section HugeInput.

(** A whole-buffer call on 2^31 bytes: [n & ~0x03] is negative and [n & 0x03]
    is zero, so neither loop runs. *)
Lemma encrypt_skips_2_31 s m :
  nbuf s = 0 -> len (buffer m) = 2 ^ 31 -> encrypt s m = (s, m).
Proof.
  intros Hs HL. unfold encrypt. rewrite Hs. cbn [Z.eqb negb]. cbv zeta.
  unfold encrypt_rest. cbv zeta. cbn [cnt]. rewrite HL.
  replace (band (2 ^ 31) (bnot 3)) with (- 2 ^ 31) by (vm_compute; reflexivity).
  change (Z.to_nat (- 2 ^ 31)) with 0%nat. cbn [while].
  unfold set_cnt. cbn [cnt eng mem ix].
  replace (band (2 ^ 31) 3) with 0 by (vm_compute; reflexivity).
  reflexivity.
Qed.

Lemma bytes_zeros n : bytes (repeat 0 n).
Proof. induction n; constructor; [unfold is_byte; lia | assumption]. Qed.

Variable n : nat.
Hypothesis n_half : Z.of_nat n = 2 ^ 30.

Lemma half_head : repeat 0 n = [0; 0; 0; 0] ++ repeat 0 (n - 4).
Proof.
  replace n with (4 + (n - 4))%nat at 1 by lia. now rewrite repeat_app.
Qed.

Lemma huge_whole (e : Shannon) :
  nbuf e = 0 ->
  encrypt e (in_place (concat [repeat 0 n; repeat 0 n])) =
  (e, in_place (concat [repeat 0 n; repeat 0 n])).
Proof.
  intros He. apply encrypt_skips_2_31; [exact He|].
  cbn [in_place buffer concat]. rewrite app_nil_r, len_app. unfold len.
  rewrite repeat_length. lia.
Qed.

Lemma huge_split (e : Shannon) :
  aligned e ->
  firstn 4 (snd (chunked encrypt e [repeat 0 n; repeat 0 n])) =
  snd (run enc_machine e [0; 0; 0; 0]).
Proof.
  intros Ha.
  assert (HL : len (repeat 0 n) < 2 ^ 31) by (unfold len; rewrite repeat_length; lia).
  destruct (encrypt_run e (repeat 0 n) Ha (bytes_zeros n) HL) as (s1 & E1 & _).
  cbn [chunked]. rewrite E1.
  destruct (encrypt s1 (in_place (repeat 0 n))) as [s2 m2].
  cbn [snd returned in_place output buffer].
  rewrite half_head, run_app. cbn [snd].
  assert (L := run_length enc_machine e [0; 0; 0; 0]).
  destruct (snd (run enc_machine e [0; 0; 0; 0])) as [|a [|b [|c [|d [|x l]]]]];
    try discriminate L.
  reflexivity.
Qed.

End HugeInput.

(** C3 fails on the code at 2^31 bytes.  For the engine keyed with the
    package's test key and a plaintext of 2^31 zero bytes: the single
    [encrypt] call changes nothing (the plaintext comes back and the engine
    is as before), while over the split into two halves of 2^30 bytes the
    first four bytes of the output are the keystream dc e4 89 c5. *)
Lemma encrypt_chunking_breaks_at_2_31 :
  let e := new (Some test_key) in
  let half := repeat 0 (Z.to_nat (2 ^ 30)) in
  let split := chunked encrypt e [half; half] in
  let whole := encrypt e (in_place (concat [half; half])) in
  len (concat [half; half]) = 2 ^ 31 /\
  whole = (e, in_place (concat [half; half])) /\
  firstn 4 (returned (snd whole)) = [0; 0; 0; 0] /\
  firstn 4 (snd split) = [0xdc; 0xe4; 0x89; 0xc5] /\
  snd split <> returned (snd whole).
Proof.
  cbv zeta.
  assert (Hn : Z.of_nat (Z.to_nat (2 ^ 30)) = 2 ^ 30) by (apply Z2Nat.id; lia).
  generalize dependent (Z.to_nat (2 ^ 30)). intros n Hn.
  assert (He : nbuf (new (Some test_key)) = 0) by reflexivity.
  assert (W := huge_whole n Hn (new (Some test_key)) He).
  assert (S := huge_split n Hn (new (Some test_key)) (or_introl He)).
  assert (K : snd (run enc_machine (new (Some test_key)) [0; 0; 0; 0]) =
              [0xdc; 0xe4; 0x89; 0xc5]) by (vm_compute; reflexivity).
  rewrite K in S. rewrite W. cbn [snd returned in_place output buffer].
  assert (Z4 : firstn 4 (concat [repeat 0 n; repeat 0 n]) = [0; 0; 0; 0]).
  { cbn [concat]. rewrite (half_head n Hn). reflexivity. }
  split; [|split; [reflexivity|split; [exact Z4|split; [exact S|]]]].
  - cbn [concat]. rewrite app_nil_r, len_app. unfold len. rewrite repeat_length. lia.
  - intros E. rewrite E, Z4 in S. discriminate S.
Qed.

(** C1 (concrete vector 1).  A fresh engine keyed with the 10 bytes
    65 87 d8 8f 6c 32 9d 8a e4 6b, no nonce set, encrypts the 11 UTF-8 bytes
    of "Hello World" to 94 81 e5 a9 5f 93 5e cb 6c b5 24, and a subsequent
    [finish] with a 16-byte buffer returns the tag
    43 23 86 24 f3 c9 0c 58 79 f4 d3 ef 83 98 2e 4e. *)
Theorem hello_world_vector :
  let enc := encrypt (new (Some test_key)) (in_place hello_world) in
  returned (snd enc) =
    [0x94; 0x81; 0xe5; 0xa9; 0x5f; 0x93; 0x5e; 0xcb; 0x6c; 0xb5; 0x24] /\
  snd (finish (fst enc) (Into (newArray 16))) =
    [0x43; 0x23; 0x86; 0x24; 0xf3; 0xc9; 0x0c; 0x58;
     0x79; 0xf4; 0xd3; 0xef; 0x83; 0x98; 0x2e; 0x4e].
Proof. vm_compute. split; reflexivity. Qed.

(** C4 fails on the code.  The trailing bytes of a tag whose length is not
    a multiple of 4 are all byte 0 of the last stream word: the source shifts
    by [i * 8], [i] being the (word-aligned) output index, where byte [j] of
    the word would need [j * 8].  For the test key, the stream word that the
    6-byte tag ends in has the bytes ea 9a (as the 8-byte tag shows), yet the
    6-byte tag ends in ea ea. *)
Theorem finish_trailing_bytes_repeat :
  snd (finish (new (Some test_key)) (Size 8)) = [15; 43; 124; 201; 234; 154; 213; 42] /\
  snd (finish (new (Some test_key)) (Size 6)) = [15; 43; 124; 201; 234; 234].
Proof. vm_compute. split; reflexivity. Qed.

(** C5 fails on the code.  With a distinct output array the trailing (and
    the buffered) bytes are XORed into what the output array held instead of
    being computed from the input: [encrypt] leaves keystream bytes there,
    and the trailing loop of [decrypt] stores into the input array. *)
Theorem distinct_output_partial_word :
  let e := new (Some test_key) in
  let c := [0x94; 0x81; 0xe5; 0xa9; 0x5f; 0x93; 0x5e; 0xcb; 0x6c; 0xb5; 0x24] in
  returned (snd (encrypt e (in_place hello_world))) = c /\
  snd (encrypt e (into hello_world (newArray 11))) =
    into hello_world [0x94; 0x81; 0xe5; 0xa9; 0x5f; 0x93; 0x5e; 0xcb; 30; 217; 64] /\
  returned (snd (decrypt e (in_place c))) = hello_world /\
  snd (decrypt e (into c (newArray 11))) =
    into [0x94; 0x81; 0xe5; 0xa9; 0x5f; 0x93; 0x5e; 0xcb; 114; 108; 100]
         [72; 101; 108; 108; 111; 32; 87; 111; 0; 0; 0].
Proof. vm_compute. repeat split; reflexivity. Qed.

(** C10 (empty input).  [stream], [macOnly], [encrypt] and [decrypt] called
    with a zero-length input leave every field of the engine as it was,
    whatever [nbuf] is on entry, and return the output array unmodified. *)
Theorem empty_input_noop (s : Shannon) (o : option (list Z)) :
  stream s (mkBufs [] o) = (s, mkBufs [] o) /\
  macOnly s [] = s /\
  encrypt s (mkBufs [] o) = (s, mkBufs [] o) /\
  decrypt s (mkBufs [] o) = (s, mkBufs [] o).
Proof.
  assert (X : forall topen bytef wordf tailf o',
             xform topen bytef wordf tailf s (mkBufs [] o') = mkFrame s (mkBufs [] o') 0 0
             \/ (eng (xform topen bytef wordf tailf s (mkBufs [] o')) = s /\
                 mem (xform topen bytef wordf tailf s (mkBufs [] o')) = mkBufs [] o')).
  { intros. unfold xform. cbn [buffer length while len Z.of_nat eng].
    destruct (Z.eqb_spec (nbuf s) 0) as [E|E]; cbn [negb].
    - right. apply (rest_idle topen wordf tailf (mkFrame s (mkBufs [] o') 0 0)). reflexivity.
    - left. destruct (Z.eqb_spec (nbuf s) 0); [contradiction|reflexivity]. }
  assert (Y : forall topen bytef wordf tailf o',
             eng (xform topen bytef wordf tailf s (mkBufs [] o')) = s /\
             mem (xform topen bytef wordf tailf s (mkBufs [] o')) = mkBufs [] o').
  { intros. destruct (X topen bytef wordf tailf o') as [-> | H]; [split; reflexivity | exact H]. }
  split; [|split; [|split]].
  - rewrite stream_shape. unfold sform. cbn [buffer length while len Z.of_nat].
    destruct (rest_idle stream_open stream_word stream_byte (mkFrame s (mkBufs [] o) 0 0) eq_refl)
      as [-> ->]. reflexivity.
  - rewrite macOnly_shape. apply Y.
  - rewrite encrypt_shape. now destruct (Y mac_open encrypt_byte encrypt_word encrypt_byte o) as [-> ->].
  - rewrite decrypt_shape.
    now destruct (Y mac_open decrypt_byte decrypt_word decrypt_tail_byte o) as [-> ->].
Qed.

(** ** The register cycle *)

Lemma count_neg d : 0 < d < 32 -> count (- d) = 32 - d.
Proof.
  intros H. unfold count. change 31 with (Z.ones 5).
  rewrite Z.land_ones by lia. change (2 ^ 5) with 32.
  symmetry. apply Z.mod_unique with (q := -1); lia.
Qed.

Lemma rotl32_disjoint x d :
  0 < d < 32 ->
  Z.land (toUint32 (Z.shiftl (toUint32 x) d)) (Z.shiftr (toUint32 x) (32 - d)) = 0.
Proof.
  intros H. apply Z.bits_inj'. intros n Hn.
  destruct (Z.lt_ge_cases n d);
    repeat bits_step; ltb_solve; bool_norm; try reflexivity.
Qed.

Lemma rotateLeft_rotl32 x d : 0 < d < 32 -> rotateLeft x d = rotl32 x d.
Proof.
  intros H. unfold rotateLeft, rotl32, bor, shl, shr.
  rewrite count_neg, count_small by lia.
  rewrite <- Z.shiftl_mul_pow2, <- Z.shiftr_div_pow2 by lia.
  fold (toUint32 (Z.shiftl (toUint32 x) d)).
  rewrite Z.add_nocarry_lxor, Z.lxor_lor by (apply rotl32_disjoint; assumption).
  apply Z.bits_inj'. intros n Hn.
  destruct (Z.lt_ge_cases n d); [|destruct (Z.lt_ge_cases n 31)];
    repeat bits_step; ltb_solve; bool_norm; idx_norm; try reflexivity.
Qed.

Lemma sbox_sbox_spec x : sbox x = sbox_spec x.
Proof. unfold sbox, sbox_spec. now rewrite !rotateLeft_rotl32 by lia. Qed.

Lemma sbox2_sbox2_spec x : sbox2 x = sbox2_spec x.
Proof. unfold sbox2, sbox2_spec. now rewrite !rotateLeft_rotl32 by lia. Qed.

(** C6 (register cycle).  For every engine whose register is an
    [Int32Array] of 16 words, one call to [cycle] computes
    [t = register[12] ^ register[13] ^ konst], replaces it with
    [sbox(t) ^ rotl(register[0], 1)], moves every word down one slot with [t]
    as the new [register[15]], then computes
    [r = sbox2(register[2] ^ register[15])] on the shifted register, XORs [r]
    into [register[0]] and sets [sbuf = r ^ register[8] ^ register[12]];
    [sbox] and [sbox2] are the two-line transforms of the specification over
    the 32-bit rotation [rotl32]; no other field changes, and the register
    and [sbuf] hold 32-bit words again. *)
Theorem cycle_spec (s : Shannon) :
  register (R s) ->
  let t := bxor (sbox_spec (bxor (bxor (get (R s) 12) (get (R s) 13)) (konst s)))
                (rotl32 (get (R s) 0) 1) in
  let shifted := tl (R s) ++ [t] in
  let r := sbox2_spec (bxor (get shifted 2) (get shifted 15)) in
  cycle s =
  mkShannon (upd 0 (bxor (get shifted 0) r) shifted) (CRC s) (initR s) (konst s)
            (bxor (bxor r (get shifted 8)) (get shifted 12)) (mbuf s) (nbuf s)
  /\ register (R (cycle s)) /\ int32 (sbuf (cycle s)).
Proof.
  intros [HL HI]. destruct s as [r c i k sb mb nb]. cbn [R CRC initR konst mbuf nbuf] in *.
  do 17 (destruct r as [|? r]; try discriminate HL). clear HL.
  repeat match goal with H : Forall _ (_ :: _) |- _ => inversion H; clear H; subst end.
  cbv zeta.
  match goal with |- ?lhs = ?rhs /\ _ => assert (E : lhs = rhs) end.
  { unfold cycle. cbn [R konst set_R set_sbuf CRC initR mbuf nbuf sbuf].
    rewrite sbox_sbox_spec, rotateLeft_rotl32 by lia.
    unfold for_, N. cbn [Nat.sub seq fold_left set32 upd get nth tl app].
    rewrite sbox2_sbox2_spec.
    repeat match goal with H : int32 ?x |- _ => rewrite (toInt32_id x H); revert H end.
    rewrite !toInt32_bxor. reflexivity. }
  split; [exact E|]. rewrite E. cbn [R sbuf tl app upd].
  split; [split; [reflexivity|]|apply int32_bxor].
  repeat (constructor; [assumption || apply int32_bxor|]). constructor.
Qed.

Lemma cycle_spec_witness :
  let s := initState fresh in
  let t := bxor (sbox_spec (bxor (bxor (get (R s) 12) (get (R s) 13)) (konst s)))
                (rotl32 (get (R s) 0) 1) in
  let shifted := tl (R s) ++ [t] in
  let r := sbox2_spec (bxor (get shifted 2) (get shifted 15)) in
  cycle s =
  mkShannon (upd 0 (bxor (get shifted 0) r) shifted) (CRC s) (initR s) (konst s)
            (bxor (bxor r (get shifted 8)) (get shifted 12)) (mbuf s) (nbuf s)
  /\ register (R (cycle s)) /\ int32 (sbuf (cycle s)).
Proof.
  apply (cycle_spec (initState fresh)).
  split; [reflexivity|].
  assert (E : R (initState fresh) =
              [1; 1; 2; 3; 5; 8; 13; 21; 34; 55; 89; 144; 233; 377; 610; 987])
    by (vm_compute; reflexivity).
  rewrite E. repeat constructor; unfold int32; lia.
Defined.

(** ** nonce32 *)

Lemma byte_at_shiftr v k : 0 <= k -> byte_at v k = toUint8 (Z.shiftr v (8 * k)).
Proof. intros H. unfold byte_at, toUint8. now rewrite Z.shiftr_div_pow2 by lia. Qed.

Lemma nonce32_bytes v :
  [toUint8 (band (sar v 24) 255); toUint8 (band (sar v 16) 255);
   toUint8 (band (sar v 8) 255); toUint8 (band v 255)] = be_bytes v.
Proof.
  unfold be_bytes. rewrite !byte_at_shiftr by lia.
  change (8 * 3) with 24. change (8 * 2) with 16. change (8 * 1) with 8. change (8 * 0) with 0.
  f_equal; [|f_equal; [|f_equal; [|f_equal]]]; unfold_ops; bitblast.
Qed.

Lemma byte_at_is_byte v k : is_byte (byte_at v k).
Proof. unfold byte_at, is_byte. apply Z.mod_pos_bound. lia. Qed.

Lemma lor_add_byte a b k :
  is_byte b -> 8 <= k -> Z.shiftl a k + b = Z.lor (Z.shiftl a k) b.
Proof.
  intros Hb Hk.
  assert (D : Z.land (Z.shiftl a k) b = 0).
  { apply Z.bits_inj'. intros n Hn. rewrite Z.land_spec, Z.bits_0.
    destruct (Z.lt_ge_cases n 8).
    - rewrite Z.shiftl_spec_low by lia. reflexivity.
    - rewrite (is_byte_bits b n Hb) by lia. apply andb_false_r. }
  now rewrite Z.add_nocarry_lxor, Z.lxor_lor.
Qed.

(** The word that [loadKey] assembles from the bytes of [nonce32]. *)
Lemma word_of_be_bytes v :
  word_of_bytes (byte_at v 3) (byte_at v 2) (byte_at v 1) (byte_at v 0) = toInt32 (bswap32 v).
Proof.
  unfold bswap32.
  assert (B0 := byte_at_is_byte v 0). assert (B1 := byte_at_is_byte v 1).
  assert (B2 := byte_at_is_byte v 2). assert (B3 := byte_at_is_byte v 3).
  revert B0 B1 B2 B3.
  generalize (byte_at v 0), (byte_at v 1), (byte_at v 2), (byte_at v 3).
  intros b0 b1 b2 b3 B0 B1 B2 B3.
  replace (b0 * 2 ^ 24 + b1 * 2 ^ 16 + b2 * 2 ^ 8 + b3)
    with (Z.shiftl (Z.lor (Z.shiftl (Z.lor (Z.shiftl b0 8) b1) 8) b2) 8 + b3).
  2: { rewrite <- !lor_add_byte by (assumption || lia).
       rewrite !Z.shiftl_mul_pow2 by lia. lia. }
  rewrite lor_add_byte by (assumption || lia).
  unfold_ops. bitblast.
Qed.

Lemma loadKey_four s a b c d :
  loadKey s [a; b; c; d] = loadKey_tail (cycle (addKey s (word_of_bytes a b c d))) 4.
Proof.
  unfold loadKey, loadKey_tail.
  change (len [a; b; c; d]) with 4.
  change (band 4 (bnot 3)) with 4.
  cbn [length while Z.of_nat Pos.of_succ_nat Pos.succ Z.ltb Z.compare Pos.compare
       Pos.compare_cont Nat.add get nth].
  reflexivity.
Qed.

(** C9 (nonce32).  For every integer [v] (in particular every 32-bit
    unsigned value) [nonce32(v)] is [nonce] called with the four bytes of [v],
    most significant first; as [loadKey] assembles them little-endian, the
    word it XORs into [register[13]] is the byte reversal of [v]. *)
Theorem nonce32_byte_reversal (s : Shannon) (v : Z) :
  nonce32 s v = nonce s (be_bytes v) /\
  nonce s (be_bytes v) =
    set_nbuf
      (genKonst
         (loadKey_tail
            (cycle (addKey (set_konst (reloadState s) INITKONST) (toInt32 (bswap32 v)))) 4))
      0.
Proof.
  split.
  - unfold nonce32. cbn [newArray repeat set8 upd]. now rewrite nonce32_bytes.
  - unfold nonce, be_bytes. now rewrite loadKey_four, word_of_be_bytes.
Qed.

(** ** The CRC register *)

Section Crc.

Lemma CRC_crcFunc s i : CRC (crcFunc s i) = crc_push (CRC s) i.
Proof. reflexivity. Qed.

Lemma CRC_macFunc s i : CRC (macFunc s i) = crc_push (CRC s) i.
Proof. reflexivity. Qed.

Lemma CRC_cycle s : CRC (cycle s) = CRC s.
Proof. reflexivity. Qed.

Lemma CRC_addKey s k : CRC (addKey s k) = CRC s.
Proof. reflexivity. Qed.

Lemma mbuf_cycle s : mbuf (cycle s) = mbuf s.
Proof. reflexivity. Qed.

Lemma CRC_diffuse s : CRC (diffuse s) = CRC s.
Proof.
  unfold diffuse, for_. generalize (seq 0 FOLD). intros l. revert s.
  induction l as [|x l IH]; intros s; cbn [fold_left]; [reflexivity|].
  rewrite IH. apply CRC_cycle.
Qed.

Lemma CRC_absorb s p : CRC (absorb s p) = CRC s.
Proof. reflexivity. Qed.

Lemma CRC_open_word s : CRC (open_word s) = CRC s.
Proof. unfold open_word. destruct (nbuf s =? 0); reflexivity. Qed.

Lemma enc_parts_CRC l : forall s, CRC (fst (parts enc_machine s l)) = CRC s.
Proof.
  induction l as [|b l IH]; intros s; [reflexivity|].
  cbn [parts part enc_machine]. unfold enc_part at 1.
  specialize (IH (absorb s b)). fold enc_machine in *.
  destruct (parts enc_machine (absorb s b) l). cbn [fst] in *.
  now rewrite IH.
Qed.

Lemma enc_word_CRC s b0 b1 b2 b3 :
  nbuf s = 0 ->
  CRC (fst (run enc_machine s [b0; b1; b2; b3])) =
  crc_push (CRC s) (word_of_bytes b0 b1 b2 b3).
Proof.
  intros H.
  rewrite (run_word_parts enc_machine) by (auto using open_word_idle, open_word_busy,
    close_word_busy).
  cbn [opener closer enc_machine fst]. unfold open_word. rewrite H. cbn [Z.eqb].
  rewrite <- (CRC_cycle s).
  generalize dependent (cycle s). intros c.
  rewrite parts_word. cbn [part enc_machine].
  unfold enc_part, absorb, ks_byte.
  cbn [fst snd]. autorewrite with fields.
  change (32 - 32) with 0. change (32 - 8) with 24. change (32 - 24) with 8.
  change (24 - 8) with 16. change (32 - 16) with 16. change (16 - 8) with 8.
  change (8 - 8) with 0.
  rewrite absorb_four. unfold close_word. autorewrite with fields. cbn [Z.eqb].
  rewrite CRC_macFunc. autorewrite with fields. reflexivity.
Qed.


Lemma enc_run_nbuf_word s b0 b1 b2 b3 :
  nbuf s = 0 -> nbuf (fst (run enc_machine s [b0; b1; b2; b3])) = 0.
Proof.
  apply run_word_nbuf; auto using open_word_idle, open_word_busy, close_word_busy,
    close_word_nbuf.
Qed.

Lemma enc_words_CRC K : forall ws s,
  length ws = (4 * K)%nat -> nbuf s = 0 ->
  CRC (fst (run enc_machine s ws)) = fold_left crc_push (le_words ws) (CRC s) /\
  nbuf (fst (run enc_machine s ws)) = 0.
Proof.
  induction K as [|K IH]; intros ws s Hw Hs.
  - destruct ws; [|discriminate]. cbn [run fst le_words fold_left]. auto.
  - destruct ws as [|b0 [|b1 [|b2 [|b3 ws]]]]; try (simpl in Hw; lia).
    change (b0 :: b1 :: b2 :: b3 :: ws) with ([b0; b1; b2; b3] ++ ws) at 1 3.
    rewrite run_app. cbn [fst le_words fold_left].
    destruct (IH ws (fst (run enc_machine s [b0; b1; b2; b3]))) as [E N0].
    + simpl in Hw. lia.
    + now apply enc_run_nbuf_word.
    + rewrite E, N0, enc_word_CRC by assumption. auto.
Qed.

Lemma enc_tail_CRC tl s :
  nbuf s = 0 -> (length tl < 4)%nat -> CRC (fst (run enc_machine s tl)) = CRC s.
Proof.
  intros Hs Ht. destruct tl as [|t0 tl]; [reflexivity|].
  rewrite <- (run_open enc_machine) by (auto using open_word_idle, open_word_busy; discriminate).
  rewrite (run_parts_lt enc_machine)
    by (auto using open_word_busy, close_word_busy;
        cbn [opener enc_machine]; rewrite open_word_idle by assumption; unfold len; lia).
  rewrite enc_parts_CRC. cbn [opener enc_machine]. apply CRC_open_word.
Qed.

Lemma le_words_app K : forall ws tl,
  length ws = (4 * K)%nat -> (length tl < 4)%nat -> le_words (ws ++ tl) = le_words ws.
Proof.
  induction K as [|K IH]; intros ws tl Hw Ht.
  - destruct ws; [|discriminate]. destruct tl as [|? [|? [|? [|? ?]]]]; try reflexivity.
    simpl in Ht. lia.
  - destruct ws as [|b0 [|b1 [|b2 [|b3 ws]]]]; try (simpl in Hw; lia).
    cbn [app le_words]. rewrite IH; [reflexivity | simpl in Hw; lia | assumption].
Qed.

(** The CRC register after the machine has run over [P] depends on the
    words of [P] only. *)
Lemma enc_run_CRC s P :
  nbuf s = 0 ->
  CRC (fst (run enc_machine s P)) = fold_left crc_push (le_words P) (CRC s).
Proof.
  intros Hs. destruct (split_words P) as (K & ws & tl & -> & Hw & Ht).
  rewrite run_app, (le_words_app K) by assumption. cbn [fst].
  destruct (enc_words_CRC K ws s Hw Hs) as [E N0].
  now rewrite enc_tail_CRC.
Qed.

Lemma mac_run_enc P : forall s, fst (run mac_machine s P) = fst (run enc_machine s P).
Proof.
  induction P as [|b P IH]; intros s; [reflexivity|].
  cbn [run]. unfold byte_step. cbn [part opener closer mac_machine enc_machine].
  unfold mac_part, enc_part. fold mac_machine enc_machine.
  specialize (IH (close_word (absorb (open_word s) b))).
  destruct (run mac_machine (close_word (absorb (open_word s) b)) P),
    (run enc_machine (close_word (absorb (open_word s) b)) P).
  exact IH.
Qed.

Lemma enc_dec_step s c :
  is_byte c ->
  byte_step enc_machine s (snd (byte_step dec_machine s c)) =
  (fst (byte_step dec_machine s c), c).
Proof.
  intros Hc. unfold byte_step. cbn [part opener closer enc_machine dec_machine].
  unfold enc_part, dec_part. cbn [fst snd]. now rewrite (bxor_cancel c _ Hc).
Qed.

Lemma enc_dec_run C : forall s,
  bytes C ->
  run enc_machine s (snd (run dec_machine s C)) = (fst (run dec_machine s C), C).
Proof.
  induction C as [|c C IH]; intros s Hb; [reflexivity|].
  inversion Hb as [|? ? Hb0 HbC]; subst.
  cbn [run]. assert (E := enc_dec_step s c Hb0).
  destruct (byte_step dec_machine s c) as [s1 p]. cbn [fst snd] in E.
  specialize (IH s1 HbC).
  destruct (run dec_machine s1 C) as [s2 ps]. cbn [fst snd] in *.
  cbn [run]. now rewrite E, IH.
Qed.

Lemma agree_CRC s s' : agree s s' -> CRC s = CRC s'.
Proof. now intros (_ & H & _). Qed.

End Crc.

Section WhileFrames.

(** A property of the engine kept by every loop body is kept by the rest
    of a transform. *)
Lemma gen_rest_inv (Q : Shannon -> Prop) topen wordf tailf f :
  (forall f, Q (eng f) -> Q (eng (wordf f))) ->
  (forall f, Q (eng f) -> Q (eng (tailf f))) ->
  (forall e, Q e -> Q (topen e)) ->
  Q (eng f) -> Q (eng (gen_rest topen wordf tailf f)).
Proof.
  intros Hw Ht Ho Hf. unfold gen_rest. cbv zeta.
  set (f1 := while _ _ wordf f).
  assert (H1 : Q (eng f1))
    by (unfold f1; apply (while_inv (fun f => Q (eng f))); auto).
  clearbody f1.
  destruct (negb (cnt (set_cnt f1 (band (cnt f1) 3)) =? 0)).
  - apply (while_inv (fun f => Q (eng f))); auto.
    cbn [eng set_eng set_cnt]. auto.
  - exact H1.
Qed.

Lemma stream_keeps (Q : Shannon -> Prop) s m :
  (forall e, Q e -> Q (cycle e)) ->
  (forall e v, Q e -> Q (set_sbuf e v)) ->
  (forall e v, Q e -> Q (set_nbuf e v)) ->
  Q s -> Q (fst (stream s m)).
Proof.
  intros Hc Hs Hn H0. rewrite stream_shape. cbn [fst]. unfold sform. cbv zeta.
  apply gen_rest_inv.
  - intros f Hf. unfold stream_word. cbn [eng]. auto.
  - intros f Hf. unfold stream_byte. cbn [eng]. auto.
  - intros e He. unfold stream_open. auto.
  - apply (while_inv (fun f => Q (eng f))); [|exact H0].
    intros f Hf _. unfold stream_byte. cbn [eng]. auto.
Qed.

Lemma stream_CRC_mbuf s m :
  CRC (fst (stream s m)) = CRC s /\ mbuf (fst (stream s m)) = mbuf s.
Proof.
  apply (stream_keeps (fun e => CRC e = CRC s /\ mbuf e = mbuf s)); auto.
Qed.

Lemma finish_step_CRC f : CRC (fin_eng (finish_step f)) = CRC (fin_eng f).
Proof.
  destruct f as [e o i n b]. unfold finish_step. cbn [fin_eng fin_n].
  destruct (n >=? 4); cbn [fin_eng]; apply CRC_cycle.
Qed.

Lemma finish_CRC s a :
  CRC (fst (finish s a)) = CRC (if negb (nbuf s =? 0) then macFunc s (mbuf s) else s).
Proof.
  assert (Hb : forall o, CRC (fst (finish_buf s o)) =
                         CRC (if negb (nbuf s =? 0) then macFunc s (mbuf s) else s)).
  { intros o. unfold finish_buf. cbv zeta. cbn [fst].
    generalize (if negb (nbuf s =? 0) then macFunc s (mbuf s) else s). intros s0.
    apply (while_inv (fun f => CRC (fin_eng f) = CRC s0)).
    - intros f Hf _. now rewrite finish_step_CRC.
    - cbn [fin_eng]. rewrite CRC_diffuse. autorewrite with fields.
      rewrite CRC_addKey. apply CRC_cycle. }
  destruct a; apply Hb.
Qed.

End WhileFrames.

(** ** bufferedBits after every public operation *)

Section Aligned.

Variable topen : Shannon -> Shannon.
Variables bytef wordf tailf : Frame -> Frame.

Hypothesis bytef_takes : takes_byte bytef.
Hypothesis tailf_takes : takes_byte tailf.
Hypothesis wordf_takes : forall f, nbuf (eng (wordf f)) = nbuf (eng f).
Hypothesis topen_nbuf : forall e, nbuf (topen e) = 32.

Lemma drain_aligned g fuel f :
  takes_byte g -> aligned (eng f) -> aligned (eng (while fuel pending g f)).
Proof.
  intros Hg. apply (while_inv (fun f => aligned (eng f))).
  intros a Ha Hp. unfold pending in Hp. apply andb_prop in Hp. destruct Hp as [Hn _].
  destruct (Z.eqb_spec (nbuf (eng a)) 0) as [E|E]; [discriminate|].
  unfold aligned in *. destruct (Hg a) as [-> _]. lia.
Qed.

Lemma drain_count g (Hg : takes_byte g) fuel : forall f,
  cnt f = Z.of_nat fuel -> 8 * Z.of_nat fuel < nbuf (eng f) ->
  nbuf (eng (while fuel pending g f)) = nbuf (eng f) - 8 * Z.of_nat fuel.
Proof.
  induction fuel as [|fuel IH]; intros f Hc Hn.
  - cbn [while]. simpl. lia.
  - rewrite while_step.
    + destruct (Hg f) as [En Ec]. rewrite IH; lia.
    + unfold pending. destruct (Z.eqb_spec (nbuf (eng f)) 0); [lia|].
      destruct (Z.eqb_spec (cnt f) 0); [lia|]. reflexivity.
Qed.

Lemma gen_rest_aligned f :
  nbuf (eng f) = 0 -> aligned (eng (gen_rest topen wordf tailf f)).
Proof.
  intros H0. unfold gen_rest. cbv zeta.
  set (f1 := while _ _ wordf f).
  assert (H1 : nbuf (eng f1) = 0).
  { unfold f1. apply (while_inv (fun f => nbuf (eng f) = 0)); [|exact H0].
    intros a Ha _. now rewrite wordf_takes. }
  clearbody f1. unfold set_cnt at 1. cbn [cnt].
  assert (Hr := band_3_range (cnt f1)).
  destruct (Z.eqb_spec (band (cnt f1) 3) 0) as [E|E]; cbn [negb].
  - left. exact H1.
  - unfold set_cnt, set_eng. cbn [eng mem ix cnt].
    unfold aligned.
    rewrite (drain_count tailf tailf_takes); cbn [eng cnt]; rewrite ?topen_nbuf; lia.
Qed.

Lemma xform_aligned s m :
  aligned s -> aligned (eng (xform topen bytef wordf tailf s m)).
Proof.
  intros Hs. unfold xform. cbv zeta.
  destruct (Z.eqb_spec (nbuf s) 0) as [E|E]; cbn [negb].
  - apply gen_rest_aligned. exact E.
  - set (f1 := while _ pending bytef _).
    assert (H1 : aligned (eng f1)) by (unfold f1; apply drain_aligned; assumption).
    clearbody f1.
    destruct (Z.eqb_spec (nbuf (eng f1)) 0) as [E1|E1]; cbn [negb].
    + apply gen_rest_aligned. cbn [eng set_eng]. rewrite macFunc_nbuf. exact E1.
    + exact H1.
Qed.

Lemma sform_aligned s m :
  aligned s -> aligned (eng (sform topen bytef wordf tailf s m)).
Proof.
  intros Hs. unfold sform. cbv zeta.
  set (f1 := while _ pending bytef _).
  assert (H1 : aligned (eng f1)) by (unfold f1; apply drain_aligned; assumption).
  assert (Hx : pending f1 = false).
  { unfold f1. apply (while_exit (fun f => 0 <= cnt f) (fun f => Z.to_nat (cnt f))).
    - intros a Ha Hp. unfold pending in Hp. apply andb_prop in Hp. destruct Hp as [_ Hc].
      destruct (Z.eqb_spec (cnt a) 0) as [E|E]; [discriminate|].
      destruct (bytef_takes a) as [_ ->]. lia.
    - cbn [cnt]. apply len_nonneg.
    - cbn [cnt]. unfold len. lia. }
  clearbody f1. unfold pending in Hx. apply andb_false_iff in Hx.
  destruct Hx as [Hx|Hx].
  - apply gen_rest_aligned. now destruct (Z.eqb_spec (nbuf (eng f1)) 0).
  - destruct (rest_idle topen wordf tailf f1) as [-> _]; [|exact H1].
    now destruct (Z.eqb_spec (cnt f1) 0).
Qed.

End Aligned.

Section Reachable.

Ltac takes := intros [e m i n]; split; reflexivity.

Lemma stream_byte_takes : takes_byte stream_byte.
Proof. takes. Qed.
Lemma mac_byte_takes : takes_byte mac_byte.
Proof. takes. Qed.
Lemma encrypt_byte_takes : takes_byte encrypt_byte.
Proof. takes. Qed.
Lemma decrypt_byte_takes : takes_byte decrypt_byte.
Proof. takes. Qed.
Lemma decrypt_tail_byte_takes : takes_byte decrypt_tail_byte.
Proof. takes. Qed.

Lemma exec_aligned s o : aligned s -> aligned (exec s o).
Proof.
  intros Hs. destruct o as [k|iv|v|m|b|m|m|a]; cbn [exec].
  - left. reflexivity.
  - left. reflexivity.
  - left. reflexivity.
  - rewrite stream_shape. cbn [fst].
    apply sform_aligned; auto using stream_byte_takes.
  - rewrite macOnly_shape.
    apply xform_aligned; auto using mac_byte_takes.
  - rewrite encrypt_shape. cbn [fst].
    apply xform_aligned; auto using encrypt_byte_takes.
  - rewrite decrypt_shape. cbn [fst].
    apply xform_aligned; auto using decrypt_byte_takes, decrypt_tail_byte_takes.
  - left. destruct a; apply finish_buf_nbuf.
Qed.

Lemma reachable_aligned s : reachable s -> aligned s.
Proof.
  induction 1 as [|s o _ IH].
  - left. reflexivity.
  - now apply exec_aligned.
Qed.

End Reachable.

(** After one in-place call from an engine with no bits buffered, [CRC]
    holds the words of the plaintext. *)
Lemma crc_of_single_calls s P :
  nbuf s = 0 -> bytes P -> len P < 2 ^ 31 ->
  CRC (fst (encrypt s (in_place P))) = fold_left crc_push (le_words P) (CRC s) /\
  CRC (macOnly s P) = fold_left crc_push (le_words P) (CRC s) /\
  CRC (fst (decrypt s (in_place P))) =
    fold_left crc_push (le_words (returned (snd (decrypt s (in_place P))))) (CRC s).
Proof.
  intros Hs HB HL. assert (Ha : aligned s) by (left; exact Hs).
  split; [|split].
  - destruct (encrypt_run s P Ha HB HL) as (s' & E & A). rewrite E. cbn [fst].
    rewrite (agree_CRC _ _ A). now apply enc_run_CRC.
  - rewrite (agree_CRC _ _ (macOnly_run s P Ha HB HL)), mac_run_enc. now apply enc_run_CRC.
  - destruct (decrypt_run s P Ha HB HL) as (s' & E & A). rewrite E.
    cbn [fst snd returned in_place output buffer].
    rewrite (agree_CRC _ _ A).
    assert (X := enc_dec_run P s HB).
    rewrite <- (enc_run_CRC s (snd (run dec_machine s P)) Hs), X. reflexivity.
Qed.

(** ** Splitting the input of macOnly *)

Section MacOnlyChunks.

Lemma mac_run_keeps_aligned l s0 : aligned s0 -> aligned (fst (run mac_machine s0 l)).
Proof. apply run_aligned; auto using open_word_idle, open_word_busy, close_word_nbuf. Qed.

Lemma macOnly_chunks_run chunks : forall s,
  aligned s -> bytes (concat chunks) -> len (concat chunks) < 2 ^ 31 ->
  agree (macOnly_chunks s chunks) (fst (run mac_machine s (concat chunks))).
Proof.
  induction chunks as [|c cs IH]; intros s Hs Hb Hl.
  - apply agree_refl.
  - cbn [concat] in *. apply bytes_app in Hb. destruct Hb as [Hbc Hbs].
    rewrite len_app in Hl. assert (H0 := len_nonneg c). assert (H1 := len_nonneg (concat cs)).
    assert (A1 := macOnly_run s c Hs Hbc ltac:(lia)).
    assert (Hs1 : aligned (macOnly s c))
      by (eapply agree_aligned; [exact A1 | now apply mac_run_keeps_aligned]).
    unfold macOnly_chunks. cbn [fold_left]. fold (macOnly_chunks (macOnly s c) cs).
    rewrite run_app. cbn [fst].
    eapply agree_trans; [apply IH; assumption || lia|].
    apply (run_rel_any mac_machine agree agree_refl open_word_agree). exact A1.
Qed.

Lemma macOnly_chunked s chunks :
  aligned s -> bytes (concat chunks) -> len (concat chunks) < 2 ^ 31 ->
  agree (macOnly_chunks s chunks) (macOnly s (concat chunks)).
Proof.
  intros Hs Hb Hl.
  eapply agree_trans; [now apply macOnly_chunks_run|].
  apply agree_sym. now apply macOnly_run.
Qed.

End MacOnlyChunks.

(** C7 fails as stated: [nbuf] is not the only state that a split call
    resumes from.  After the first byte of a 4-byte message the engine holds
    the partial plaintext word in [mbuf] and the keystream word in [sbuf];
    with the same [nbuf], register, CRC and konst but [mbuf] not carried over
    the tag changes, and with [sbuf] not carried over the ciphertext changes. *)
Lemma bufferedBits_alone_does_not_resume :
  let e := session test_key None in
  let first := encrypt e (in_place [1]) in
  let whole := encrypt e (in_place [1; 2; 3; 4]) in
  let resumed := encrypt (fst first) (in_place [2; 3; 4]) in
  let lost_mbuf := encrypt (set_mbuf (fst first) 0) (in_place [2; 3; 4]) in
  let lost_sbuf := encrypt (set_sbuf (fst first) 0) (in_place [2; 3; 4]) in
  (returned (snd first) ++ returned (snd resumed) = returned (snd whole) /\
   snd (finish (fst resumed) (Size 4)) = snd (finish (fst whole) (Size 4))) /\
  nbuf (set_mbuf (fst first) 0) = nbuf (fst first) /\
  snd (finish (fst lost_mbuf) (Size 4)) <> snd (finish (fst whole) (Size 4)) /\
  nbuf (set_sbuf (fst first) 0) = nbuf (fst first) /\
  returned (snd first) ++ returned (snd lost_sbuf) <> returned (snd whole).
Proof. vm_compute. repeat split; try reflexivity; intros H; discriminate H. Qed.

(** C7, amended.  Starting from a fresh engine, after every completed call
    to a public operation [nbuf] is one of 0, 8, 16, 24: a multiple of 8 that
    never exceeds 32.  Together with the words staged in [sbuf] and [mbuf] it
    is what a split call resumes from: for each of the four streaming
    transforms, successive in-place calls over the chunks of any split of an
    input (bytes, fewer than 2^31) give the concatenated output of the single
    call, and leave engines that differ at most in staging words holding no
    pending bits, so that [finish] returns the same tag. *)
Theorem bufferedBits_invariant (s : Shannon) :
  reachable s ->
  (0 <= nbuf s <= 32 /\ nbuf s mod 8 = 0 /\ aligned s) /\
  forall chunks,
    bytes (concat chunks) -> len (concat chunks) < 2 ^ 31 ->
    let P := concat chunks in
    (snd (chunked encrypt s chunks) = returned (snd (encrypt s (in_place P))) /\
     agree (fst (chunked encrypt s chunks)) (fst (encrypt s (in_place P))) /\
     forall a, snd (finish (fst (chunked encrypt s chunks)) a) =
               snd (finish (fst (encrypt s (in_place P))) a)) /\
    (snd (chunked decrypt s chunks) = returned (snd (decrypt s (in_place P))) /\
     agree (fst (chunked decrypt s chunks)) (fst (decrypt s (in_place P))) /\
     forall a, snd (finish (fst (chunked decrypt s chunks)) a) =
               snd (finish (fst (decrypt s (in_place P))) a)) /\
    (agree (macOnly_chunks s chunks) (macOnly s P) /\
     forall a, snd (finish (macOnly_chunks s chunks) a) = snd (finish (macOnly s P) a)) /\
    (snd (chunked stream s chunks) = returned (snd (stream s (in_place P))) /\
     agree_stream (fst (chunked stream s chunks)) (fst (stream s (in_place P)))).
Proof.
  intros Hr. assert (Ha := reachable_aligned s Hr).
  split.
  - split; [|split; [|exact Ha]]; destruct Ha as [E|[E|[E|E]]]; rewrite E;
      try reflexivity; lia.
  - intros chunks HB HL P.
    destruct (encrypt_chunked s chunks Ha HB HL) as [Ee Ae].
    destruct (decrypt_chunked s chunks Ha HB HL) as [Ed Ad].
    assert (Am := macOnly_chunked s chunks Ha HB HL).
    split; [|split; [|split]].
    + split; [exact Ee|]. split; [exact Ae|].
      intros a. now destruct (finish_agree _ _ a Ae).
    + split; [exact Ed|]. split; [exact Ad|].
      intros a. now destruct (finish_agree _ _ a Ad).
    + split; [exact Am|]. intros a. now destruct (finish_agree _ _ a Am).
    + exact (stream_chunked s chunks Ha HB HL).
Qed.

Lemma bufferedBits_invariant_witness :
  let s := exec (exec fresh (OpKey test_key)) (OpEncrypt (in_place [1; 2; 3; 4; 5])) in
  let chunks := [[72; 101; 108]; [108; 111; 32; 87; 111; 114]; []; [108; 100]] in
  (0 <= nbuf s <= 32 /\ nbuf s mod 8 = 0 /\ aligned s) /\
  snd (chunked encrypt s chunks) = returned (snd (encrypt s (in_place (concat chunks)))).
Proof.
  intros s chunks.
  destruct (bufferedBits_invariant s) as [H1 H2].
  - unfold s. apply reach_exec, reach_exec, reach_fresh.
  - split; [exact H1|].
    destruct (H2 chunks) as [[H _] _].
    + repeat constructor; unfold is_byte; lia.
    + vm_compute. reflexivity.
    + exact H.
Defined.

(** * Further properties *)

(** ** More on the byte machines *)

Section MachineFacts.

Lemma dec_run_bytes C : forall s, bytes (snd (run dec_machine s C)).
Proof.
  induction C as [|c C IH]; intros s; [constructor|].
  cbn [run]. unfold byte_step at 1. cbn [part opener closer dec_machine].
  unfold dec_part at 1. cbv zeta.
  match goal with |- context [run ?M ?e C] => specialize (IH e); destruct (run M e C) as [s2 ps] end.
  cbn [snd] in *. constructor; [apply toUint8_is_byte | assumption].
Qed.

Lemma dec_run_length s C : length (snd (run dec_machine s C)) = length C.
Proof. apply run_length. Qed.

Lemma stream_run_bytes P : forall s, bytes (snd (run stream_machine s P)).
Proof.
  induction P as [|b P IH]; intros s; [constructor|].
  cbn [run]. unfold byte_step at 1. cbn [part opener closer stream_machine].
  unfold stream_part at 1.
  match goal with |- context [run ?M ?e P] => specialize (IH e); destruct (run M e P) as [s2 ps] end.
  cbn [snd] in *. constructor; [apply toUint8_is_byte | assumption].
Qed.

Lemma stream_stream_step s b :
  is_byte b ->
  byte_step stream_machine s (snd (byte_step stream_machine s b)) =
  (fst (byte_step stream_machine s b), b).
Proof.
  intros Hb. unfold byte_step. cbn [part opener closer stream_machine].
  unfold stream_part. cbn [fst snd]. now rewrite (bxor_cancel b _ Hb).
Qed.

Lemma stream_stream_run P : forall s,
  bytes P ->
  run stream_machine s (snd (run stream_machine s P)) = (fst (run stream_machine s P), P).
Proof.
  induction P as [|b P IH]; intros s Hb; [reflexivity|].
  inversion Hb as [|? ? Hb0 HbP]; subst.
  cbn [run]. assert (E := stream_stream_step s b Hb0).
  destruct (byte_step stream_machine s b) as [s1 c]. cbn [fst snd] in E.
  specialize (IH s1 HbP).
  destruct (run stream_machine s1 P) as [s2 cs]. cbn [fst snd] in *.
  cbn [run]. now rewrite E, IH.
Qed.

Lemma xor_keystream_byte b k :
  is_byte b -> toUint8 (bxor b k) = Z.lxor b (toUint8 (bxor 0 k)).
Proof. intros H. unfold_ops. bitblast. Qed.

Lemma stream_run_xor P : forall s,
  bytes P ->
  snd (run stream_machine s P) =
    map (fun '(p, k) => Z.lxor p k)
        (combine P (snd (run stream_machine s (repeat 0 (length P))))) /\
  fst (run stream_machine s P) = fst (run stream_machine s (repeat 0 (length P))).
Proof.
  induction P as [|b P IH]; intros s Hb; [split; reflexivity|].
  inversion Hb as [|? ? Hb0 HbP]; subst.
  cbn [length repeat run]. unfold byte_step. cbn [part opener closer stream_machine].
  unfold stream_part. cbv beta iota zeta.
  match goal with |- context [run ?M ?e P] => destruct (IH e HbP) as [IH1 IH2];
     destruct (run M e P) as [s2 ps]; destruct (run M e (repeat 0 (length P))) as [s3 ks] end.
  cbn [fst snd] in *. cbn [combine map]. split; [|assumption].
  f_equal; [apply xor_keystream_byte; assumption | assumption].
Qed.

End MachineFacts.

Section MidStream.

Variables (s : Shannon) (P : list Z).
Hypothesis s_aligned : aligned s.
Hypothesis P_bytes : bytes P.
Hypothesis P_len : len P < 2 ^ 31.

Lemma encrypt_macOnly_agree : agree (fst (encrypt s (in_place P))) (macOnly s P).
Proof.
  destruct (encrypt_run s P s_aligned P_bytes P_len) as (s1 & E1 & A1).
  rewrite E1. cbn [fst].
  apply (agree_trans _ _ _ A1). apply agree_sym.
  rewrite <- mac_run_enc. now apply macOnly_run.
Qed.

Lemma decrypt_macOnly_agree :
  agree (fst (decrypt s (in_place P)))
        (macOnly s (returned (snd (decrypt s (in_place P))))).
Proof.
  destruct (decrypt_run s P s_aligned P_bytes P_len) as (s1 & E1 & A1).
  rewrite E1. cbn [fst snd returned in_place output buffer].
  apply (agree_trans _ _ _ A1). apply agree_sym.
  assert (HB : bytes (snd (run dec_machine s P))) by apply dec_run_bytes.
  assert (HL : len (snd (run dec_machine s P)) < 2 ^ 31)
    by (unfold len in *; now rewrite dec_run_length).
  assert (A := macOnly_run s _ s_aligned HB HL).
  rewrite mac_run_enc, (enc_dec_run P s P_bytes) in A. exact A.
Qed.

Lemma encrypt_then_decrypt :
  exists s2,
    decrypt s (in_place (returned (snd (encrypt s (in_place P))))) = (s2, in_place P) /\
    agree s2 (fst (encrypt s (in_place P))).
Proof.
  destruct (encrypt_run s P s_aligned P_bytes P_len) as (s1 & E1 & A1).
  assert (HB : bytes (snd (run enc_machine s P))) by apply enc_run_bytes.
  assert (HL : len (snd (run enc_machine s P)) < 2 ^ 31)
    by (unfold len in *; now rewrite enc_run_length).
  destruct (decrypt_run s _ s_aligned HB HL) as (s2 & E2 & A2).
  rewrite E1. cbn [fst snd returned in_place output buffer].
  change (mkBufs (snd (run enc_machine s P)) None)
    with (in_place (snd (run enc_machine s P))).
  rewrite E2. rewrite (dec_enc_run P s P_bytes) in *. cbn [fst snd] in *.
  exists s2. split; [reflexivity|].
  apply (agree_trans _ _ _ A2). now apply agree_sym.
Qed.

Lemma decrypt_then_encrypt :
  exists s2,
    encrypt s (in_place (returned (snd (decrypt s (in_place P))))) = (s2, in_place P) /\
    agree s2 (fst (decrypt s (in_place P))).
Proof.
  destruct (decrypt_run s P s_aligned P_bytes P_len) as (s1 & E1 & A1).
  assert (HB : bytes (snd (run dec_machine s P))) by apply dec_run_bytes.
  assert (HL : len (snd (run dec_machine s P)) < 2 ^ 31)
    by (unfold len in *; now rewrite dec_run_length).
  destruct (encrypt_run s _ s_aligned HB HL) as (s2 & E2 & A2).
  rewrite E1. cbn [fst snd returned in_place output buffer].
  change (mkBufs (snd (run dec_machine s P)) None)
    with (in_place (snd (run dec_machine s P))).
  rewrite E2. rewrite (enc_dec_run P s P_bytes) in *. cbn [fst snd] in *.
  exists s2. split; [reflexivity|].
  apply (agree_trans _ _ _ A2). now apply agree_sym.
Qed.

Lemma stream_then_stream :
  exists s2,
    stream s (in_place (returned (snd (stream s (in_place P))))) = (s2, in_place P) /\
    agree_stream s2 (fst (stream s (in_place P))).
Proof.
  destruct (stream_run s P s_aligned P_bytes P_len) as (s1 & E1 & A1).
  assert (HB : bytes (snd (run stream_machine s P))) by apply stream_run_bytes.
  assert (HL : len (snd (run stream_machine s P)) < 2 ^ 31)
    by (unfold len in *; now rewrite run_length).
  destruct (stream_run s _ s_aligned HB HL) as (s2 & E2 & A2).
  rewrite E1. cbn [fst snd returned in_place output buffer].
  change (mkBufs (snd (run stream_machine s P)) None)
    with (in_place (snd (run stream_machine s P))).
  rewrite E2. rewrite (stream_stream_run P s P_bytes) in *. cbn [fst snd] in *.
  exists s2. split; [reflexivity|].
  apply (agree_stream_trans _ _ _ A2). now apply agree_stream_sym.
Qed.

End MidStream.

(** X1.  The tag authenticates the plaintext.  From any engine whose buffered
    bit count is a multiple of 8 and for every byte array shorter than 2^31:
    after [encrypt] of a plaintext the engine is the one [macOnly] leaves on
    that plaintext, and after [decrypt] the one [macOnly] leaves on the
    recovered plaintext (up to staging words that hold no pending bits); a
    following [finish] therefore returns the same tag. *)
Theorem tag_covers_plaintext (s : Shannon) (P : list Z) :
  aligned s -> bytes P -> len P < 2 ^ 31 ->
  let enc := encrypt s (in_place P) in
  let dec := decrypt s (in_place P) in
  (agree (fst enc) (macOnly s P) /\
   forall a, snd (finish (fst enc) a) = snd (finish (macOnly s P) a)) /\
  (agree (fst dec) (macOnly s (returned (snd dec))) /\
   forall a, snd (finish (fst dec) a) =
             snd (finish (macOnly s (returned (snd dec))) a)).
Proof.
  intros HA HB HL enc dec.
  assert (A1 := encrypt_macOnly_agree s P HA HB HL).
  assert (A2 := decrypt_macOnly_agree s P HA HB HL).
  split.
  - split; [exact A1|]. intros a. exact (proj1 (finish_agree _ _ a A1)).
  - split; [exact A2|]. intros a. exact (proj1 (finish_agree _ _ a A2)).
Qed.

Lemma tag_covers_plaintext_witness :
  let s := fst (encrypt (new (Some test_key)) (in_place [1; 2; 3; 4; 5])) in
  let enc := encrypt s (in_place hello_world) in
  snd (finish (fst enc) (Size 16)) = snd (finish (macOnly s hello_world) (Size 16)).
Proof.
  intros s enc.
  assert (HA : aligned s) by (right; right; right; vm_compute; reflexivity).
  assert (HB : bytes hello_world) by (repeat constructor; unfold is_byte; lia).
  assert (HL : len hello_world < 2 ^ 31) by (vm_compute; reflexivity).
  exact (proj2 (proj1 (tag_covers_plaintext s hello_world HA HB HL)) (Size 16)).
Defined.

(** X2.  Round trips from any byte offset.  From any engine whose buffered
    bit count is a multiple of 8 (so also in the middle of a word) and for
    every byte array shorter than 2^31: [decrypt] undoes [encrypt] and
    [encrypt] undoes [decrypt] when both start from that same engine, and
    both leave engines that agree. *)
Theorem roundtrip_from_any_offset (s : Shannon) (P : list Z) :
  aligned s -> bytes P -> len P < 2 ^ 31 ->
  let enc := encrypt s (in_place P) in
  let dec := decrypt s (in_place P) in
  let dec_enc := decrypt s (in_place (returned (snd enc))) in
  let enc_dec := encrypt s (in_place (returned (snd dec))) in
  (returned (snd dec_enc) = P /\ agree (fst dec_enc) (fst enc)) /\
  (returned (snd enc_dec) = P /\ agree (fst enc_dec) (fst dec)).
Proof.
  intros HA HB HL enc dec dec_enc enc_dec.
  destruct (encrypt_then_decrypt s P HA HB HL) as (s1 & E1 & A1).
  destruct (decrypt_then_encrypt s P HA HB HL) as (s2 & E2 & A2).
  unfold dec_enc, enc_dec, enc, dec. rewrite E1, E2.
  split; [split; [reflexivity | exact A1] | split; [reflexivity | exact A2]].
Qed.

Lemma roundtrip_from_any_offset_witness :
  let s := fst (encrypt (new (Some test_key)) (in_place [1; 2; 3; 4; 5])) in
  let dec := decrypt s (in_place hello_world) in
  returned (snd (encrypt s (in_place (returned (snd dec))))) = hello_world.
Proof.
  intros s dec.
  destruct (roundtrip_from_any_offset s hello_world) as [_ [H _]].
  - right. right. right. vm_compute. reflexivity.
  - repeat constructor; unfold is_byte; lia.
  - vm_compute. reflexivity.
  - exact H.
Defined.

(** X3.  [stream] is its own inverse.  From any engine whose buffered bit
    count is a multiple of 8 and for every byte array shorter than 2^31:
    streaming the result of [stream] again, from the same engine, gives the
    data back, and both calls leave the same engine. *)
Theorem stream_twice_restores (s : Shannon) (P : list Z) :
  aligned s -> bytes P -> len P < 2 ^ 31 ->
  let once := stream s (in_place P) in
  let twice := stream s (in_place (returned (snd once))) in
  returned (snd twice) = P /\ agree_stream (fst twice) (fst once).
Proof.
  intros HA HB HL once twice.
  destruct (stream_then_stream s P HA HB HL) as (s1 & E1 & A1).
  unfold twice, once. rewrite E1. split; [reflexivity | assumption].
Qed.

Lemma stream_twice_restores_witness :
  let s := nonce32 (new (Some test_key)) 7 in
  let once := stream s (in_place hello_world) in
  returned (snd (stream s (in_place (returned (snd once))))) = hello_world.
Proof.
  intros s once.
  destruct (stream_twice_restores s hello_world) as [H _].
  - left. vm_compute. reflexivity.
  - repeat constructor; unfold is_byte; lia.
  - vm_compute. reflexivity.
  - exact H.
Defined.

(** X4.  [stream] XORs a keystream that does not depend on the data.  From
    any engine whose buffered bit count is a multiple of 8 and for every byte
    array [P] shorter than 2^31: the result of [stream] is [P] XORed bytewise
    with what [stream] makes of as many zero bytes, and the engine left
    behind is the same for both. *)
Theorem stream_xors_keystream (s : Shannon) (P : list Z) :
  aligned s -> bytes P -> len P < 2 ^ 31 ->
  let zeros := stream s (in_place (newArray (length P))) in
  let data := stream s (in_place P) in
  returned (snd data) =
    map (fun '(p, k) => Z.lxor p k) (combine P (returned (snd zeros))) /\
  agree_stream (fst data) (fst zeros).
Proof.
  intros HA HB HL zeros data.
  destruct (stream_run s P HA HB HL) as (s1 & E1 & A1).
  assert (HBz : bytes (newArray (length P))).
  { unfold newArray. clear. induction (length P); constructor;
      [unfold is_byte; lia | assumption]. }
  assert (HLz : len (newArray (length P)) < 2 ^ 31).
  { unfold len, newArray in *. now rewrite repeat_length. }
  destruct (stream_run s _ HA HBz HLz) as (s2 & E2 & A2).
  unfold data, zeros. rewrite E1, E2. cbn [fst snd returned in_place output buffer].
  destruct (stream_run_xor P s HB) as [X1 X2]. unfold newArray in *.
  split; [exact X1|].
  apply (agree_stream_trans _ _ _ A1). rewrite X2. now apply agree_stream_sym.
Qed.

Lemma stream_xors_keystream_witness :
  let s := nonce32 (new (Some test_key)) 7 in
  let zeros := stream s (in_place (newArray 11)) in
  returned (snd (stream s (in_place hello_world))) =
    map (fun '(p, k) => Z.lxor p k) (combine hello_world (returned (snd zeros))).
Proof.
  intros s zeros.
  destruct (stream_xors_keystream s hello_world) as [H _].
  - left. vm_compute. reflexivity.
  - repeat constructor; unfold is_byte; lia.
  - vm_compute. reflexivity.
  - exact H.
Defined.

(** ** A distinct output array *)

Section Beside.

Lemma while_rel {A B} (rel : A -> B -> Prop) fuel c1 b1 c2 b2 :
  (forall a b, rel a b -> c1 a = c2 b) ->
  (forall a b, rel a b -> c1 a = true -> rel (b1 a) (b2 b)) ->
  forall a b, rel a b -> rel (while fuel c1 b1 a) (while fuel c2 b2 b).
Proof.
  intros Hc Hb. induction fuel as [|fuel IH]; intros a b H; cbn [while]; [exact H|].
  rewrite <- (Hc a b H). destruct (c1 a) eqn:E; [|exact H].
  apply IH. now apply Hb.
Qed.

Lemma beside_pending same b F1 F2 : beside same b F1 F2 -> pending F1 = pending F2.
Proof. intros (He & _ & Hc & _). unfold pending. now rewrite He, Hc. Qed.

Lemma stream_byte_beside b F1 F2 :
  beside same_output b F1 F2 -> beside same_output b (stream_byte F1) (stream_byte F2).
Proof.
  destruct F1 as [e1 m1 i1 n1], F2 as [e2 m2 i2 n2].
  intros (He & Hi & Hc & o & l & M1 & M2 & S). cbn [eng ix cnt mem] in *.
  subst. unfold same_output in S. subst.
  unfold stream_byte, beside. cbn [eng ix cnt mem].
  do 3 (split; [reflexivity|]).
  unfold wr_output, rd_output, into, in_place. cbn [buffer output].
  eexists _, _. split; [reflexivity|]. split; [reflexivity|]. reflexivity.
Qed.

Lemma stream_word_beside b F1 F2 :
  beside same_output b F1 F2 -> beside same_output b (stream_word F1) (stream_word F2).
Proof.
  destruct F1 as [e1 m1 i1 n1], F2 as [e2 m2 i2 n2].
  intros (He & Hi & Hc & o & l & M1 & M2 & S). cbn [eng ix cnt mem] in *.
  subst. unfold same_output in S. subst.
  unfold stream_word, beside. cbn [eng ix cnt mem].
  generalize (cycle e2). intros c.
  do 3 (split; [reflexivity|]).
  unfold wr_output, rd_output, into, in_place. cbn [buffer output].
  eexists _, _. split; [reflexivity|]. split; [reflexivity|]. reflexivity.
Qed.

Lemma gen_rest_beside same b topen wordf tailf F1 F2 :
  (forall F1 F2, beside same b F1 F2 -> beside same b (wordf F1) (wordf F2)) ->
  (forall F1 F2, beside same b F1 F2 -> beside same b (tailf F1) (tailf F2)) ->
  beside same b F1 F2 ->
  beside same b (gen_rest topen wordf tailf F1) (gen_rest topen wordf tailf F2).
Proof.
  intros Hw Ht H. unfold gen_rest. cbv zeta.
  assert (Hc : cnt F1 = cnt F2) by apply H. rewrite <- Hc.
  set (j := band (cnt F1) (bnot 3)).
  assert (W : beside same b (while (Z.to_nat j) (fun f => Z.of_nat (ix f) <? j) wordf F1)
                          (while (Z.to_nat j) (fun f => Z.of_nat (ix f) <? j) wordf F2)).
  { apply (while_rel (beside same b)); [| |exact H].
    - intros a c (_ & Hi & _). now rewrite Hi.
    - intros a c Hab _. now apply Hw. }
  destruct W as (We & Wi & Wc & Wm).
  set (W1 := while _ _ _ F1) in *. set (W2 := while _ _ _ F2) in *.
  unfold set_cnt, set_eng. cbn [eng mem ix cnt]. rewrite <- Wc, <- We.
  destruct (negb (band (cnt W1) 3 =? 0)).
  - apply (while_rel (beside same b)).
    + apply beside_pending.
    + intros a c Hab _. now apply Ht.
    + unfold beside. cbn [eng mem ix cnt]. auto.
  - unfold beside. cbn [eng mem ix cnt]. auto.
Qed.

(** [stream] with a distinct output array. *)
Lemma stream_beside s b o :
  length o = length b ->
  beside same_output b
    (sform stream_open stream_byte stream_word stream_byte s (into b o))
    (sform stream_open stream_byte stream_word stream_byte s (in_place o)).
Proof.
  intros HL. unfold sform. cbv zeta.
  apply gen_rest_beside; try apply stream_byte_beside; try apply stream_word_beside.
  unfold into, in_place. cbn [buffer]. unfold len. rewrite HL.
  apply (while_rel (beside same_output b)).
  - apply beside_pending.
  - intros a c Hab _. now apply stream_byte_beside.
  - unfold beside. cbn [eng mem ix cnt]. do 3 (split; [reflexivity|]).
    exists o, o. unfold same_output. auto.
Qed.

End Beside.

(** X5.  [stream] never reads the contents of [buffer].  With a distinct
    output array of the same length, [stream(buffer, output)] XORs the
    keystream into what [output] already holds, exactly as the in-place call
    [stream(output)] does, and leaves [buffer] as it was. *)
Theorem stream_ignores_buffer (s : Shannon) (b o : list Z) :
  length o = length b ->
  stream s (into b o) =
  (fst (stream s (in_place o)), into b (returned (snd (stream s (in_place o))))).
Proof.
  intros HL. rewrite !stream_shape.
  destruct (stream_beside s b o HL) as (He & _ & _ & o' & l & M1 & M2 & S).
  unfold same_output in S. subst l.
  cbn [fst snd]. rewrite M1, M2, He. reflexivity.
Qed.

Lemma stream_ignores_buffer_witness :
  let s := new (Some test_key) in
  stream s (into hello_world (newArray 11)) =
  (fst (stream s (in_place (newArray 11))),
   into hello_world (returned (snd (stream s (in_place (newArray 11)))))).
Proof. apply (stream_ignores_buffer (new (Some test_key)) hello_world (newArray 11)). reflexivity. Defined.

Section DistinctWords.

Lemma get_set8_other l i v k : k <> i -> get (set8 l i v) k = get l k.
Proof.
  unfold get, set8. generalize (toUint8 v). intros x. revert i k.
  induction l as [|a l IH]; intros [|i] [|k] H; cbn [upd nth]; try reflexivity;
    try congruence. apply IH. congruence.
Qed.

Lemma get_set8_both l1 l2 i v k :
  length l1 = length l2 ->
  (k <> i -> get l1 k = get l2 k) ->
  get (set8 l1 i v) k = get (set8 l2 i v) k.
Proof.
  unfold get, set8. generalize (toUint8 v). intros x. revert l2 i k.
  induction l1 as [|a l1 IH]; intros [|c l2] i k HL H; try discriminate.
  - reflexivity.
  - destruct i as [|i], k as [|k]; cbn [upd nth] in *; try reflexivity.
    + apply H. discriminate.
    + apply H. discriminate.
    + apply IH; [now injection HL|]. intros Hk. apply H. congruence.
Qed.

Lemma set8_length l i v : length (set8 l i v) = length l.
Proof. apply upd_length. Qed.

(** Four stores at [i+3 .. i]. *)
Lemma put4_written_below b o l i v3 v2 v1 v0 :
  written_below b o l i -> (i + 4 <= length b)%nat ->
  written_below b
    (set8 (set8 (set8 (set8 o (i + 3) v3) (i + 2) v2) (i + 1) v1) i v0)
    (set8 (set8 (set8 (set8 l (i + 3) v3) (i + 2) v2) (i + 1) v1) i v0)
    (i + 4).
Proof.
  intros (Lo & Ll & (q & Hq) & Hi & Ho & Hb) H4. unfold written_below.
  rewrite !set8_length.
  split; [exact Lo|]. split; [exact Ll|].
  split; [exists (S q); lia|]. split; [exact H4|]. split.
  - intros k Hk.
    apply get_set8_both; [rewrite !set8_length; congruence|]. intros K0.
    apply get_set8_both; [rewrite !set8_length; congruence|]. intros K1.
    apply get_set8_both; [rewrite !set8_length; congruence|]. intros K2.
    apply get_set8_both; [congruence|]. intros K3.
    apply Ho. lia.
  - intros k Hk. rewrite !get_set8_other by lia. apply Hb. lia.
Qed.

Lemma encrypt_word_beside b F1 F2 :
  beside (written_below b) b F1 F2 -> (ix F1 + 4 <= length b)%nat ->
  beside (written_below b) b (encrypt_word F1) (encrypt_word F2).
Proof.
  destruct F1 as [e1 m1 i1 n1], F2 as [e2 m2 i2 n2].
  intros (He & Hi & Hc & o & l & M1 & M2 & S) H4. cbn [eng ix cnt mem] in *.
  subst. assert (S' := S). destruct S' as (_ & _ & _ & _ & _ & Hb).
  unfold encrypt_word, beside. cbn [eng ix cnt mem].
  unfold rd_buffer, wr_output, into, in_place. cbn [buffer output].
  rewrite <- !Hb by lia.
  generalize (cycle e2). intros c.
  set (t := word_of_bytes _ _ _ _).
  do 3 (split; [reflexivity|]).
  eexists _, _. split; [reflexivity|]. split; [reflexivity|].
  now apply put4_written_below.
Qed.

Lemma decrypt_word_beside b F1 F2 :
  beside (written_below b) b F1 F2 -> (ix F1 + 4 <= length b)%nat ->
  beside (written_below b) b (decrypt_word F1) (decrypt_word F2).
Proof.
  destruct F1 as [e1 m1 i1 n1], F2 as [e2 m2 i2 n2].
  intros (He & Hi & Hc & o & l & M1 & M2 & S) H4. cbn [eng ix cnt mem] in *.
  subst. assert (S' := S). destruct S' as (_ & _ & _ & _ & _ & Hb).
  unfold decrypt_word, beside. cbn [eng ix cnt mem].
  unfold rd_buffer, wr_output, into, in_place. cbn [buffer output].
  rewrite <- !Hb by lia.
  generalize (cycle e2). intros c.
  set (t := word_of_bytes _ _ _ _).
  do 3 (split; [reflexivity|]).
  eexists _, _. split; [reflexivity|]. split; [reflexivity|].
  now apply put4_written_below.
Qed.

Variable topen : Shannon -> Shannon.
Variables wordf tailf : Frame -> Frame.
Hypothesis wordf_beside : forall b F1 F2,
  beside (written_below b) b F1 F2 -> (ix F1 + 4 <= length b)%nat ->
  beside (written_below b) b (wordf F1) (wordf F2).
Hypothesis wordf_cnt : forall f, cnt (wordf f) = cnt f.
Hypothesis wordf_ix : forall f, ix (wordf f) = (ix f + 4)%nat.

Lemma whole_words_beside s b o :
  length o = length b -> len b mod 4 = 0 -> len b < 2 ^ 31 ->
  let F1 := gen_rest topen wordf tailf (mkFrame s (into b o) 0 (len b)) in
  let F2 := gen_rest topen wordf tailf (mkFrame s (in_place b) 0 (len b)) in
  eng F1 = eng F2 /\ exists l, mem F1 = into b l /\ mem F2 = in_place l.
Proof.
  intros HL H4 H31. unfold gen_rest. cbv zeta. cbn [cnt].
  assert (H0 := len_nonneg b).
  assert (Ej : band (len b) (bnot 3) = len b).
  { rewrite band_not3 by lia. Z.div_mod_to_equations. lia. }
  rewrite Ej.
  set (c := fun f : Frame => Z.of_nat (ix f) <? len b).
  set (I1 := mkFrame s (into b o) 0 (len b)).
  set (I2 := mkFrame s (in_place b) 0 (len b)).
  assert (W : (fun F1 F2 => beside (written_below b) b F1 F2 /\ cnt F1 = len b)
                (while (Z.to_nat (len b)) c wordf I1)
                (while (Z.to_nat (len b)) c wordf I2)).
  { apply (while_rel (fun F1 F2 => beside (written_below b) b F1 F2 /\ cnt F1 = len b)).
    - intros a d ((_ & Hi & _) & _). unfold c. now rewrite Hi.
    - intros a d [Hab Hn] Hc. split; [|now rewrite wordf_cnt].
      apply wordf_beside; [exact Hab|].
      destruct Hab as (_ & _ & _ & o' & l' & _ & _ & S).
      destruct S as (_ & _ & (q & Hq) & Hi & _).
      unfold c in Hc. apply Z.ltb_lt in Hc. unfold len in *.
      Z.div_mod_to_equations. lia.
    - split; [|reflexivity]. unfold beside, I1, I2. cbn [eng mem ix cnt].
      do 3 (split; [reflexivity|]). exists o, b.
      split; [reflexivity|]. split; [reflexivity|].
      unfold written_below. split; [exact HL|]. split; [reflexivity|].
      split; [exists 0%nat; reflexivity|]. split; [lia|].
      split; [intros k Hk; lia | reflexivity]. }
  assert (X : c (while (Z.to_nat (len b)) c wordf I1) = false).
  { assert (X := word_loop_exit wordf I1 wordf_ix). cbv zeta in X.
    unfold I1 in X at 1 2 3. cbn [cnt] in X. rewrite Ej in X. exact X. }
  set (W1 := while _ _ _ I1) in *. set (W2 := while _ _ _ I2) in *.
  destruct W as [(We & Wi & Wc & o' & l' & M1 & M2 & S) Wn].
  unfold set_cnt. cbn [eng mem ix cnt]. rewrite <- Wc, Wn.
  assert (E3 : band (len b) 3 = 0) by (rewrite band_3 by lia; exact H4).
  rewrite E3. cbn [Z.eqb negb]. cbn [eng mem].
  split; [exact We|]. exists l'. split; [|exact M2]. rewrite M1. f_equal.
  destruct S as (Lo & Ll & _ & Hi & Ho & _).
  unfold c in X. apply Z.ltb_ge in X. unfold len in X.
  apply (nth_ext _ _ 0 0); [congruence|].
  intros k Hk. apply Ho. lia.
Qed.

End DistinctWords.

Lemma xform_idle topen bytef wordf tailf s m :
  nbuf s = 0 ->
  xform topen bytef wordf tailf s m =
  gen_rest topen wordf tailf (mkFrame s m 0 (len (buffer m))).
Proof. intros Hn. unfold xform. rewrite Hn. reflexivity. Qed.

Lemma encrypt_whole_words s b o :
  nbuf s = 0 -> length o = length b -> len b mod 4 = 0 -> len b < 2 ^ 31 ->
  encrypt s (into b o) =
    (fst (encrypt s (in_place b)), into b (returned (snd (encrypt s (in_place b))))).
Proof.
  intros Hn HL H4 H31.
  rewrite (encrypt_shape s (into b o)), (encrypt_shape s (in_place b)).
  rewrite !xform_idle by exact Hn.
  destruct word_bodies_advance as (_ & _ & Ae & _).
  destruct (whole_words_beside mac_open encrypt_word encrypt_byte encrypt_word_beside
              (fun f => eq_refl) Ae s b o HL H4 H31) as (E1 & l1 & M1 & M1').
  cbv zeta in *.
  change (buffer (into b o)) with b. change (buffer (in_place b)) with b.
  cbn [fst snd]. rewrite M1, M1', E1. reflexivity.
Qed.

Lemma decrypt_whole_words s b o :
  nbuf s = 0 -> length o = length b -> len b mod 4 = 0 -> len b < 2 ^ 31 ->
  decrypt s (into b o) =
    (fst (decrypt s (in_place b)), into b (returned (snd (decrypt s (in_place b))))).
Proof.
  intros Hn HL H4 H31.
  rewrite (decrypt_shape s (into b o)), (decrypt_shape s (in_place b)).
  rewrite !xform_idle by exact Hn.
  destruct word_bodies_advance as (_ & _ & _ & Ad).
  destruct (whole_words_beside mac_open decrypt_word decrypt_tail_byte decrypt_word_beside
              (fun f => eq_refl) Ad s b o HL H4 H31) as (E1 & l1 & M1 & M1').
  cbv zeta in *.
  change (buffer (into b o)) with b. change (buffer (in_place b)) with b.
  cbn [fst snd]. rewrite M1, M1', E1. reflexivity.
Qed.

(** X6.  When a distinct output array is safe.  On an engine with no
    buffered bits, for a buffer of whole words (a multiple of 4 bytes, fewer
    than 2^31) and an output array of the same length, [encrypt] and
    [decrypt] leave in [output] what the in-place call leaves in the buffer,
    leave the same engine, and do not change [buffer]. *)
Theorem distinct_output_whole_words (s : Shannon) (b o : list Z) :
  nbuf s = 0 -> length o = length b -> len b mod 4 = 0 -> len b < 2 ^ 31 ->
  encrypt s (into b o) =
    (fst (encrypt s (in_place b)), into b (returned (snd (encrypt s (in_place b))))) /\
  decrypt s (into b o) =
    (fst (decrypt s (in_place b)), into b (returned (snd (decrypt s (in_place b))))).
Proof.
  intros Hn HL H4 H31.
  split; [now apply encrypt_whole_words | now apply decrypt_whole_words].
Qed.

Lemma distinct_output_whole_words_witness :
  let s := new (Some test_key) in
  let b := [72; 101; 108; 108; 111; 32; 87; 111] in
  encrypt s (into b (newArray 8)) =
    (fst (encrypt s (in_place b)), into b (returned (snd (encrypt s (in_place b))))).
Proof.
  intros s b.
  refine (proj1 (distinct_output_whole_words s b (newArray 8) _ _ _ _));
    vm_compute; reflexivity.
Defined.

(** ** The tag in closed form *)

Section FinishForm.

Lemma finish_buf_seed s o :
  finish_buf s o =
  let f := while (length o) (fun f => (fin_n f >? 0) && negb (fin_brk f)) finish_step
             (mkFinFrame (finish_seed s) o 0 (len o) false) in
  (fin_eng f, fin_out f).
Proof. reflexivity. Qed.

Lemma count_words p : count (Z.of_nat (4 * p) * 8) = 0.
Proof.
  unfold count. change 31 with (Z.ones 5). rewrite Z.land_ones by lia.
  replace (Z.of_nat (4 * p) * 8) with (Z.of_nat p * 2 ^ 5) by lia.
  apply Z.mod_mul. lia.
Qed.

Lemma sar_words x p : sar x (Z.of_nat (4 * p) * 8) = toInt32 x.
Proof. unfold sar. rewrite count_words. apply Z.shiftr_0_r. Qed.

Lemma band_toInt32_l x y : band (toInt32 x) y = band x y.
Proof. unfold band. now rewrite toInt32_idem. Qed.

Lemma tag_words_length q : forall s, length (snd (tag_words q s)) = (4 * q)%nat.
Proof.
  induction q as [|q IH]; intros s; [reflexivity|].
  cbn [tag_words]. specialize (IH (cycle s)).
  destruct (tag_words q (cycle s)) as [s2 l]. cbn [snd] in *.
  rewrite length_app, IH. cbn [word_bytes length]. lia.
Qed.

Lemma tag_words_add q k : forall s,
  tag_words (q + k) s =
  (fst (tag_words k (fst (tag_words q s))),
   snd (tag_words q s) ++ snd (tag_words k (fst (tag_words q s)))).
Proof.
  induction q as [|q IH]; intros s.
  - cbn [Nat.add tag_words fst snd app]. now destruct (tag_words k s).
  - cbn [Nat.add tag_words]. rewrite IH.
    destruct (tag_words q (cycle s)) as [s2 l]. cbn [fst snd].
    now rewrite app_assoc.
Qed.

Lemma finish_tail pre rest e p r fuel :
  length pre = (4 * p)%nat -> length rest = r -> (0 < r < 4)%nat -> (1 <= fuel)%nat ->
  let F := while fuel fin_cond finish_step
             (mkFinFrame e (pre ++ rest) (length pre) (len rest) false) in
  fin_eng F = cycle e /\
  fin_out F = pre ++ repeat (toUint8 (band (sbuf (cycle e)) 0xFF)) r.
Proof.
  intros Hp Hr Hr4 Hf. destruct fuel as [|fuel]; [lia|]. cbv zeta.
  rewrite while_step.
  2:{ unfold fin_cond. cbn [fin_n fin_brk]. unfold len. rewrite Hr.
      destruct (Z.gtb_spec (Z.of_nat r) 0); [reflexivity | lia]. }
  assert (E : finish_step (mkFinFrame e (pre ++ rest) (length pre) (len rest) false) =
              mkFinFrame (cycle e)
                (pre ++ repeat (toUint8 (band (sbuf (cycle e)) 0xFF)) r)
                (length pre) (len rest) true).
  { unfold finish_step. cbn [fin_eng fin_out fin_i fin_n fin_brk].
    generalize (cycle e). intros c.
    unfold len. rewrite Hr.
    destruct (Z.geb_spec (Z.of_nat r) 4) as [G|G]; [lia|].
    rewrite Nat2Z.id. rewrite Hp, sar_words, band_toInt32_l.
    rewrite <- Hp. f_equal.
    destruct rest as [|a [|b [|d [|x rest]]]]; cbn [length] in Hr; subst r; try lia.
    - unfold for_. cbn [seq fold_left]. rewrite set8_at. reflexivity.
    - unfold for_. cbn [seq fold_left]. rewrite !set8_at. reflexivity.
    - unfold for_. cbn [seq fold_left]. rewrite !set8_at. reflexivity. }
  rewrite E. rewrite while_stop.
  - cbn [fin_eng fin_out]. split; reflexivity.
  - unfold fin_cond. cbn [fin_n fin_brk]. apply andb_false_r.
Qed.

Lemma finish_loop q : forall pre rest e p r fuel,
  length pre = (4 * p)%nat -> length rest = (4 * q + r)%nat -> (r < 4)%nat ->
  (length rest <= fuel)%nat ->
  let F := while fuel fin_cond finish_step
             (mkFinFrame e (pre ++ rest) (length pre) (len rest) false) in
  fin_eng F = fst (tag_from e q r) /\ fin_out F = pre ++ snd (tag_from e q r).
Proof.
  induction q as [|q IH]; intros pre rest e p r fuel Hp Hr Hr4 Hf.
  - cbn [Nat.mul Nat.add] in Hr. unfold tag_from. cbn [tag_words].
    destruct r as [|r'].
    + destruct rest; [|discriminate]. cbv zeta. rewrite while_stop by reflexivity.
      cbn [fin_eng fin_out fst snd]. split; reflexivity.
    + cbn [fst snd app]. apply (finish_tail pre rest e p (S r') fuel); auto; lia.
  - destruct rest as [|a [|b [|c [|d rest]]]]; cbn [length] in Hr, Hf; try lia.
    destruct fuel as [|fuel]; [lia|]. cbv zeta.
    rewrite while_step.
    2:{ unfold fin_cond. cbn [fin_n fin_brk]. rewrite !len_cons.
        assert (H0 := len_nonneg rest).
        destruct (Z.gtb_spec (len rest + 1 + 1 + 1 + 1) 0); [reflexivity | lia]. }
    assert (E : finish_step (mkFinFrame e (pre ++ a :: b :: c :: d :: rest) (length pre)
                               (len (a :: b :: c :: d :: rest)) false) =
                mkFinFrame (cycle e) ((pre ++ word_bytes (sbuf (cycle e))) ++ rest)
                  (length (pre ++ word_bytes (sbuf (cycle e)))) (len rest) false).
    { unfold finish_step. cbn [fin_eng fin_out fin_i fin_n fin_brk].
      generalize (cycle e). intros c0.
      rewrite !len_cons. assert (H0 := len_nonneg rest).
      destruct (Z.geb_spec (len rest + 1 + 1 + 1 + 1) 4) as [G|G]; [|lia].
      f_equal.
      - rewrite !set8_at. cbn [upd]. rewrite set8_here.
        rewrite <- app_assoc. reflexivity.
      - rewrite length_app. reflexivity.
      - lia. }
    rewrite E.
    destruct (IH (pre ++ word_bytes (sbuf (cycle e))) rest (cycle e) (S p) r fuel)
      as [I1 I2]; try lia.
    { rewrite length_app, Hp. cbn [word_bytes length]. lia. }
    cbv zeta in I1, I2. rewrite I1, I2.
    unfold tag_from. cbn [tag_words].
    destruct (tag_words q (cycle e)) as [s2 l].
    destruct r; cbn [fst snd]; rewrite <- !app_assoc; split; reflexivity.
Qed.

Lemma finish_buf_form s o q r :
  length o = (4 * q + r)%nat -> (r < 4)%nat ->
  finish_buf s o = tag_from (finish_seed s) q r.
Proof.
  intros Ho Hr. rewrite finish_buf_seed. cbv zeta.
  destruct (finish_loop q [] o (finish_seed s) 0 r (length o)) as [E1 E2];
    try assumption; try reflexivity; try lia.
  cbv zeta in E1, E2. cbn [app length] in E1, E2.
  change (fun f => (fin_n f >? 0) && negb (fin_brk f)) with fin_cond.
  rewrite E1, E2. now destruct (tag_from (finish_seed s) q r).
Qed.

End FinishForm.

Section FinishFacts.

Lemma split_len (n : nat) : exists q r, n = (4 * q + r)%nat /\ (r < 4)%nat.
Proof.
  exists (n / 4)%nat, (n mod 4)%nat. split.
  - apply Nat.div_mod_eq.
  - apply Nat.mod_upper_bound. discriminate.
Qed.

Lemma finish_size_form s q r :
  (r < 4)%nat -> finish s (Size (4 * q + r)) = tag_from (finish_seed s) q r.
Proof.
  intros Hr. cbn [finish]. apply finish_buf_form; [|exact Hr].
  unfold newArray. apply repeat_length.
Qed.

Lemma tag_from_whole e q : tag_from e q 0 = tag_words q e.
Proof. unfold tag_from. now destruct (tag_words q e). Qed.

Lemma finish_size_whole s q : finish s (Size (4 * q)) = tag_words q (finish_seed s).
Proof.
  rewrite <- tag_from_whole, <- finish_size_form by lia.
  now rewrite Nat.add_0_r.
Qed.

Lemma tag_from_prefix e q k r :
  firstn (4 * q) (snd (tag_from e (q + k) r)) = snd (tag_words q e).
Proof.
  unfold tag_from. rewrite tag_words_add.
  assert (L := tag_words_length q e).
  destruct (tag_words q e) as [s1 ws]. cbn [fst snd] in *.
  destruct (tag_words k s1) as [s2 ws2]. cbn [fst snd].
  destruct r; cbn [snd]; rewrite <- ?app_assoc; rewrite <- L;
    rewrite firstn_app, firstn_all, Nat.sub_diag; cbn [firstn]; apply app_nil_r.
Qed.

End FinishFacts.

(** X7.  [finish] overwrites the whole output array: the tag and the engine
    left behind depend on the length of the array passed in, not on what it
    held, so passing an array is the same as passing its length. *)
Theorem finish_overwrites_output (s : Shannon) (o : list Z) :
  finish s (Into o) = finish s (Size (length o)).
Proof.
  destruct (split_len (length o)) as (q & r & Hq & Hr).
  rewrite Hq. rewrite finish_size_form by exact Hr.
  cbn [finish]. now apply finish_buf_form.
Qed.

(** X8.  Tags are nested at word boundaries: from the same engine, the tag
    of [4 * q] bytes is the first [4 * q] bytes of every longer tag. *)
Theorem finish_word_prefix (s : Shannon) (q n : nat) :
  (4 * q <= n)%nat ->
  firstn (4 * q) (snd (finish s (Size n))) = snd (finish s (Size (4 * q))).
Proof.
  intros Hn. destruct (split_len n) as (Q & r & HQ & Hr). subst n.
  rewrite finish_size_whole, finish_size_form by exact Hr.
  replace Q with (q + (Q - q))%nat by lia.
  apply tag_from_prefix.
Qed.

Lemma finish_word_prefix_witness :
  firstn 8 (snd (finish (new (Some test_key)) (Size 14))) =
  snd (finish (new (Some test_key)) (Size 8)).
Proof. apply (finish_word_prefix (new (Some test_key)) 2 14). lia. Defined.

(** X9.  The bytes of a trailing partial word.  When the requested length is
    [4 * q + r] with [0 < r < 4], the last [r] bytes of the tag are all the
    same byte, namely byte [4 * q] (the least significant byte of the next
    word) of the tag of [4 * q + 4] bytes; the first [4 * q] bytes are those
    of that longer tag. *)
Theorem finish_partial_word (s : Shannon) (q r : nat) :
  (0 < r < 4)%nat ->
  let T := snd (finish s (Size (4 * q + 4))) in
  snd (finish s (Size (4 * q + r))) = firstn (4 * q) T ++ repeat (nth (4 * q) T 0) r.
Proof.
  intros Hr T. unfold T.
  replace (4 * q + 4)%nat with (4 * (q + 1))%nat by lia.
  rewrite finish_size_whole, finish_size_form by lia.
  rewrite <- (tag_from_whole _ (q + 1)), tag_from_prefix.
  rewrite tag_from_whole, tag_words_add.
  unfold tag_from.
  assert (L := tag_words_length q (finish_seed s)).
  destruct (tag_words q (finish_seed s)) as [s1 ws]. cbn [fst snd] in *.
  cbn [tag_words]. cbn [snd]. rewrite <- L, app_nth2, Nat.sub_diag by lia.
  cbn [word_bytes app nth].
  destruct r; [lia|]. reflexivity.
Qed.

Lemma finish_partial_word_witness :
  let T := snd (finish (new (Some test_key)) (Size 8)) in
  snd (finish (new (Some test_key)) (Size 6)) = firstn 4 T ++ repeat (nth 4 T 0) 2.
Proof. apply (finish_partial_word (new (Some test_key)) 1 2). lia. Defined.

(** ** The key schedule *)

Section KeySchedule.

Lemma loadKey_split s K : loadKey s K = loadKey_tail (loadKey_head s K) (len K).
Proof.
  unfold loadKey, loadKey_head, loadKey_tail. cbv zeta.
  destruct (while (length K) _ _ (s, 0%nat)) as [s1 i1].
  reflexivity.
Qed.

Lemma loadKey_words_fold K fuel : forall i,
  exists ws i', forall s,
    while fuel
      (fun '(s, i) => Z.of_nat i <? band (len K) (bnot 0x03))
      (fun '(s, i) =>
         let t := word_of_bytes (get K i) (get K (i + 1)) (get K (i + 2)) (get K (i + 3)) in
         (cycle (addKey s t), (i + 4)%nat))
      (s, i) = (fold_left fold_word ws s, i').
Proof.
  induction fuel as [|fuel IH]; intros i.
  - exists [], i. reflexivity.
  - cbn [while]. cbv beta iota zeta.
    destruct (Z.of_nat i <? band (len K) (bnot 3)).
    + destruct (IH (i + 4)%nat) as (ws & i' & H).
      exists (word_of_bytes (get K i) (get K (i + 1)) (get K (i + 2)) (get K (i + 3)) :: ws), i'.
      intros s. rewrite H. reflexivity.
    + exists [], i. reflexivity.
Qed.

Lemma loadKey_head_fold K :
  exists ws, forall s, loadKey_head s K = fold_left fold_word ws s.
Proof.
  unfold loadKey_head. cbv zeta.
  destruct (loadKey_words_fold K (length K) 0%nat) as (ws & i' & H).
  destruct (Z.of_nat i' <? len K) eqn:E.
  - destruct (while (length K)
        (fun '(extra, i, j) => Z.of_nat i <? len K)
        (fun '(extra, i, j) => (set8 extra j (get K i), S i, S j))
        (newArray 4, i', 0%nat)) as [[extra i2] j2] eqn:E2.
    destruct (while 4
        (fun '(extra, j) => Z.of_nat j <? 4)
        (fun '(extra, j) => (set8 extra j 0, S j))
        (extra, j2)) as [extra3 j3] eqn:E3.
    exists (ws ++ [word_of_bytes (get extra3 0) (get extra3 1) (get extra3 2) (get extra3 3)]).
    intros s. rewrite H, E, E2, E3. rewrite fold_left_app. reflexivity.
  - exists ws. intros s. rewrite H, E. reflexivity.
Qed.

End KeySchedule.

Section Keeps.

Variable Q : Shannon -> Prop.
Hypothesis Q_cycle : forall e, Q e -> Q (cycle e).
Hypothesis Q_macFunc : forall e v, Q e -> Q (macFunc e v).
Hypothesis Q_sbuf : forall e v, Q e -> Q (set_sbuf e v).
Hypothesis Q_mbuf : forall e v, Q e -> Q (set_mbuf e v).
Hypothesis Q_nbuf : forall e v, Q e -> Q (set_nbuf e v).

Lemma xform_inv topen bytef wordf tailf s m :
  (forall f, Q (eng f) -> Q (eng (bytef f))) ->
  (forall f, Q (eng f) -> Q (eng (wordf f))) ->
  (forall f, Q (eng f) -> Q (eng (tailf f))) ->
  (forall e, Q e -> Q (topen e)) ->
  Q s -> Q (eng (xform topen bytef wordf tailf s m)).
Proof.
  intros Hb Hw Ht Ho Hs. unfold xform. cbv zeta.
  destruct (negb (nbuf s =? 0)).
  - set (f1 := while _ pending bytef _).
    assert (H1 : Q (eng f1)).
    { unfold f1. apply (while_inv (fun f => Q (eng f))); [|exact Hs]. auto. }
    clearbody f1. destruct (negb (nbuf (eng f1) =? 0)); [exact H1|].
    apply gen_rest_inv; auto. cbn [eng set_eng]. auto.
  - apply gen_rest_inv; auto.
Qed.

Lemma mac_open_keeps e : Q e -> Q (mac_open e).
Proof. intros H. unfold mac_open. auto. Qed.

Lemma encrypt_keeps s m : Q s -> Q (fst (encrypt s m)).
Proof.
  intros Hs. rewrite encrypt_shape. cbn [fst].
  apply xform_inv; auto using mac_open_keeps.
  - intros f Hf. unfold encrypt_byte. cbn [eng]. auto.
  - intros f Hf. unfold encrypt_word. cbn [eng]. auto.
  - intros f Hf. unfold encrypt_byte. cbn [eng]. auto.
Qed.

Lemma decrypt_keeps s m : Q s -> Q (fst (decrypt s m)).
Proof.
  intros Hs. rewrite decrypt_shape. cbn [fst].
  apply xform_inv; auto using mac_open_keeps.
  - intros f Hf. unfold decrypt_byte. cbn [eng]. auto.
  - intros f Hf. unfold decrypt_word. cbn [eng]. auto.
  - intros f Hf. unfold decrypt_tail_byte. cbn [eng]. auto.
Qed.

Lemma macOnly_keeps s b : Q s -> Q (macOnly s b).
Proof.
  intros Hs. rewrite macOnly_shape.
  apply xform_inv; auto using mac_open_keeps.
  - intros f Hf. unfold mac_byte. cbn [eng]. auto.
  - intros f Hf. unfold mac_word. cbn [eng]. auto.
  - intros f Hf. unfold mac_byte. cbn [eng]. auto.
Qed.

Hypothesis Q_addKey : forall e k, Q e -> Q (addKey e k).
Hypothesis Q_fold_crc : forall e,
  Q e -> Q (set_R e (for_ 0 N (fun j r => set32 r j (bxor (get r j) (get (CRC e) j))) (R e))).

Lemma diffuse_keeps e : Q e -> Q (diffuse e).
Proof.
  unfold diffuse, for_. generalize (seq 0 FOLD). intros l. revert e.
  induction l as [|x l IH]; intros e He; cbn [fold_left]; auto.
Qed.

Lemma finish_keeps s a : Q s -> Q (fst (finish s a)).
Proof.
  intros Hs.
  assert (Hb : forall o, Q (fst (finish_buf s o))).
  { intros o. rewrite finish_buf_seed. cbv zeta. cbn [fst].
    apply (while_inv (fun f => Q (fin_eng f))).
    - intros [e out i n b] He _. unfold finish_step. cbn [fin_eng fin_n] in *.
      destruct (n >=? 4); cbn [fin_eng]; auto.
    - cbn [fin_eng]. unfold finish_seed. cbv zeta.
      apply diffuse_keeps. apply Q_fold_crc. apply Q_nbuf. apply Q_addKey. apply Q_cycle.
      destruct (negb (nbuf s =? 0)); auto. }
  destruct a; apply Hb.
Qed.

End Keeps.

Section Shapes.

Lemma for__length (b : nat -> list Z -> list Z) lo n :
  (forall i r, length (b i r) = length r) ->
  forall r, length (for_ lo n b r) = length r.
Proof.
  intros Hb. unfold for_. generalize (seq lo n). intros l.
  induction l as [|x l IH]; intros r; cbn [fold_left]; [reflexivity|].
  now rewrite IH, Hb.
Qed.

Lemma set32_length l i v : length (set32 l i v) = length l.
Proof. apply upd_length. Qed.

Lemma R_cycle_length s : length (R (cycle s)) = length (R s).
Proof.
  unfold cycle. cbv zeta. autorewrite with fields.
  rewrite !set32_length. apply for__length. intros i r. apply set32_length.
Qed.

Lemma crc_push_length c i : length (crc_push c i) = length c.
Proof.
  unfold crc_push. cbv zeta. rewrite set32_length.
  apply for__length. intros j r. apply set32_length.
Qed.

Lemma R_macFunc s i : R (macFunc s i) = set32 (R s) KEYP (bxor (get (R s) KEYP) i).
Proof. reflexivity. Qed.

Lemma R_addKey s k : R (addKey s k) = set32 (R s) KEYP (bxor (get (R s) KEYP) k).
Proof. reflexivity. Qed.

Lemma initR_addKey s k : initR (addKey s k) = initR s.
Proof. reflexivity. Qed.

Lemma konst_addKey s k : konst (addKey s k) = konst s.
Proof. reflexivity. Qed.

Lemma shaped_cycle e : shaped e -> shaped (cycle e).
Proof.
  intros (H1 & H2 & H3). destruct (cycle_frame e) as (F1 & F2 & _).
  unfold shaped. now rewrite R_cycle_length, F1, F2.
Qed.

Lemma shaped_macFunc e v : shaped e -> shaped (macFunc e v).
Proof.
  intros (H1 & H2 & H3). destruct (macFunc_frame e v) as (F1 & _).
  unfold shaped. rewrite R_macFunc, set32_length, CRC_macFunc, crc_push_length, F1. auto.
Qed.

Lemma shaped_addKey e k : shaped e -> shaped (addKey e k).
Proof.
  intros (H1 & H2 & H3). unfold shaped.
  rewrite R_addKey, set32_length, CRC_addKey, initR_addKey. auto.
Qed.

Lemma shaped_fields e :
  shaped e ->
  (forall v, shaped (set_sbuf e v)) /\ (forall v, shaped (set_mbuf e v)) /\
  (forall v, shaped (set_nbuf e v)) /\ (forall v, shaped (set_konst e v)).
Proof. intros H. repeat split; apply H. Qed.

Lemma shaped_fold_crc e :
  shaped e ->
  shaped (set_R e (for_ 0 N (fun j r => set32 r j (bxor (get r j) (get (CRC e) j))) (R e))).
Proof.
  intros (H1 & H2 & H3). unfold shaped. autorewrite with fields.
  rewrite for__length by (intros; apply set32_length). auto.
Qed.

Lemma shaped_loadKey e K : shaped e -> shaped (loadKey e K).
Proof.
  intros He. rewrite loadKey_split.
  destruct (loadKey_head_fold K) as (ws & H). rewrite H.
  assert (Hf : shaped (fold_left fold_word ws e)).
  { clear H. revert e He. induction ws as [|w ws IH]; intros e He; cbn [fold_left]; auto.
    apply IH. unfold fold_word. now apply shaped_cycle, shaped_addKey. }
  generalize dependent (fold_left fold_word ws e). clear. intros e He.
  unfold loadKey_tail. cbv zeta.
  assert (H1 := shaped_cycle _ (shaped_addKey e (len K) He)).
  generalize dependent (cycle (addKey e (len K))). intros c Hc.
  set (c2 := set_CRC c _).
  assert (H2 : shaped c2).
  { destruct Hc as (A & B & C). unfold shaped, c2. autorewrite with fields.
    rewrite for__length by (intros; apply set32_length). auto. }
  clearbody c2.
  assert (H3 : shaped (diffuse c2)).
  { apply (diffuse_keeps shaped); auto using shaped_cycle. }
  generalize dependent (diffuse c2). intros d Hd.
  destruct Hd as (A & B & C). unfold shaped. autorewrite with fields.
  rewrite for__length by (intros; apply set32_length). auto.
Qed.

Lemma shaped_key e K : shaped e -> shaped (key e K).
Proof.
  intros He. unfold key. cbv zeta.
  assert (H1 : shaped (initState e)).
  { destruct He as (A & B & C). unfold shaped, initState. cbv zeta.
    autorewrite with fields.
    rewrite for__length by (intros; apply set32_length).
    rewrite !set32_length. auto. }
  assert (H2 := shaped_loadKey _ K H1).
  generalize dependent (loadKey (initState e) K). intros l Hl.
  destruct Hl as (A & B & C). unfold shaped, saveState, genKonst.
  autorewrite with fields.
  rewrite for__length by (intros; apply set32_length). auto.
Qed.

Lemma shaped_nonce e IV : shaped e -> shaped (nonce e IV).
Proof.
  intros He. unfold nonce. cbv zeta.
  assert (H1 : shaped (set_konst (reloadState e) INITKONST)).
  { destruct He as (A & B & C). unfold shaped, reloadState.
    autorewrite with fields.
    rewrite for__length by (intros; apply set32_length). auto. }
  assert (H2 := shaped_loadKey _ IV H1).
  generalize dependent (loadKey (set_konst (reloadState e) INITKONST) IV). intros l Hl.
  destruct Hl as (A & B & C). unfold shaped, genKonst.
  autorewrite with fields. auto.
Qed.

Lemma shaped_exec e o : shaped e -> shaped (exec e o).
Proof.
  intros He. destruct o as [k|iv|v|m|b|m|m|a]; cbn [exec].
  - now apply shaped_key.
  - now apply shaped_nonce.
  - unfold nonce32. cbv zeta. now apply shaped_nonce.
  - apply (stream_keeps shaped); auto using shaped_cycle; intros; now apply shaped_fields.
  - apply (macOnly_keeps shaped); auto using shaped_cycle, shaped_macFunc;
      intros; now apply shaped_fields.
  - apply (encrypt_keeps shaped); auto using shaped_cycle, shaped_macFunc;
      intros; now apply shaped_fields.
  - apply (decrypt_keeps shaped); auto using shaped_cycle, shaped_macFunc;
      intros; now apply shaped_fields.
  - apply (finish_keeps shaped);
      auto using shaped_cycle, shaped_macFunc, shaped_addKey, shaped_fold_crc;
      intros; now apply shaped_fields.
Qed.

Lemma reachable_shaped s : reachable s -> shaped s.
Proof.
  induction 1 as [|s o _ IH].
  - repeat split.
  - now apply shaped_exec.
Qed.

End Shapes.

Section Resets.

Lemma overwrite_all (f : nat -> Z) c c' :
  length c = N -> length c' = N ->
  for_ 0 N (fun i c => set32 c i (f i)) c = for_ 0 N (fun i c => set32 c i (f i)) c'.
Proof.
  intros H H'.
  do 17 (destruct c as [|? c]; try discriminate H).
  do 17 (destruct c' as [|? c']; try discriminate H').
  reflexivity.
Qed.

Lemma same_core_cycle s s' :
  same_core s s' -> same_core (cycle s) (cycle s') /\ sbuf (cycle s) = sbuf (cycle s').
Proof.
  intros [HR HK]. destruct (cycle_R_sbuf s s' HR HK) as [ER ES].
  destruct (cycle_frame s) as (_ & _ & K1 & _). destruct (cycle_frame s') as (_ & _ & K2 & _).
  unfold same_core. split; [split; congruence | exact ES].
Qed.

Lemma same_core_addKey s s' k : same_core s s' -> same_core (addKey s k) (addKey s' k).
Proof.
  intros [HR HK]. unfold same_core. rewrite !R_addKey, !konst_addKey, HR. auto.
Qed.

Lemma same_core_fold ws : forall s s',
  same_core s s' -> same_core (fold_left fold_word ws s) (fold_left fold_word ws s').
Proof.
  induction ws as [|w ws IH]; intros s s' H; cbn [fold_left]; [exact H|].
  apply IH. unfold fold_word. now apply same_core_cycle, same_core_addKey.
Qed.

Lemma same_core_diffuse s s' :
  same_core s s' -> sbuf s = sbuf s' ->
  same_core (diffuse s) (diffuse s') /\ sbuf (diffuse s) = sbuf (diffuse s').
Proof.
  unfold diffuse, for_. generalize (seq 0 FOLD). intros l. revert s s'.
  induction l as [|x l IH]; intros s s' H Hs; cbn [fold_left]; [auto|].
  destruct (same_core_cycle s s' H). now apply IH.
Qed.

Lemma initR_diffuse s : initR (diffuse s) = initR s.
Proof.
  apply (diffuse_keeps (fun e => initR e = initR s)); [|reflexivity].
  intros e He. destruct (cycle_frame e) as (_ & F & _). congruence.
Qed.

Lemma konst_diffuse s : konst (diffuse s) = konst s.
Proof.
  apply (diffuse_keeps (fun e => konst e = konst s)); [|reflexivity].
  intros e He. destruct (cycle_frame e) as (_ & _ & F & _). congruence.
Qed.

Lemma mbuf_diffuse s : mbuf (diffuse s) = mbuf s.
Proof.
  apply (diffuse_keeps (fun e => mbuf e = mbuf s)); [|reflexivity].
  intros e He. rewrite mbuf_cycle. exact He.
Qed.

(** What [loadKey] leaves alone, and what it computes from the register and
    [konst] alone. *)
Lemma fold_word_frame w s :
  CRC (fold_word s w) = CRC s /\ initR (fold_word s w) = initR s /\
  konst (fold_word s w) = konst s /\ mbuf (fold_word s w) = mbuf s /\
  nbuf (fold_word s w) = nbuf s.
Proof.
  unfold fold_word. destruct (cycle_frame (addKey s w)) as (A & B & C & D & E).
  rewrite A, B, C, D, E. repeat split.
Qed.

Lemma fold_words_frame ws : forall s,
  CRC (fold_left fold_word ws s) = CRC s /\ initR (fold_left fold_word ws s) = initR s /\
  konst (fold_left fold_word ws s) = konst s /\ mbuf (fold_left fold_word ws s) = mbuf s /\
  nbuf (fold_left fold_word ws s) = nbuf s.
Proof.
  induction ws as [|w ws IH]; intros s; cbn [fold_left]; [repeat split|].
  destruct (IH (fold_word s w)) as (A & B & C & D & E).
  destruct (fold_word_frame w s) as (A' & B' & C' & D' & E').
  repeat split; congruence.
Qed.

Lemma loadKey_tail_frame s n :
  initR (loadKey_tail s n) = initR s /\ konst (loadKey_tail s n) = konst s /\
  mbuf (loadKey_tail s n) = mbuf s /\ nbuf (loadKey_tail s n) = nbuf s.
Proof.
  unfold loadKey_tail. cbv zeta. fold (fold_word s n).
  destruct (fold_word_frame n s) as (A & B & C & D & E).
  generalize dependent (fold_word s n). intros c A B C D E.
  autorewrite with fields.
  rewrite initR_diffuse, konst_diffuse, mbuf_diffuse, diffuse_nbuf.
  autorewrite with fields. auto.
Qed.

Lemma snapshot_core c c' :
  same_core c c' -> sbuf c = sbuf c' -> length (CRC c) = N -> length (CRC c') = N ->
  let f := fun c : Shannon =>
    let s := set_CRC c (for_ 0 N (fun i a => set32 a i (get (R c) i)) (CRC c)) in
    let s := diffuse s in
    set_R s (for_ 0 N (fun i r => set32 r i (bxor (get r i) (get (CRC s) i))) (R s)) in
  R (f c) = R (f c') /\ CRC (f c) = CRC (f c') /\ sbuf (f c) = sbuf (f c').
Proof.
  intros [HR HK] Hs Lc Lc'. cbv zeta beta.
  assert (EC : for_ 0 N (fun i a => set32 a i (get (R c) i)) (CRC c) =
               for_ 0 N (fun i a => set32 a i (get (R c') i)) (CRC c')).
  { rewrite HR. now apply overwrite_all. }
  rewrite EC. set (copy := for_ 0 N _ (CRC c')).
  assert (D : same_core (set_CRC c copy) (set_CRC c' copy))
    by (unfold same_core; autorewrite with fields; auto).
  assert (Ds : sbuf (set_CRC c copy) = sbuf (set_CRC c' copy))
    by (autorewrite with fields; exact Hs).
  destruct (same_core_diffuse _ _ D Ds) as [[DR DK] DS].
  assert (C1 : CRC (diffuse (set_CRC c copy)) = copy)
    by (rewrite CRC_diffuse; now autorewrite with fields).
  assert (C2 : CRC (diffuse (set_CRC c' copy)) = copy)
    by (rewrite CRC_diffuse; now autorewrite with fields).
  revert DR DK DS C1 C2.
  generalize (diffuse (set_CRC c copy)) (diffuse (set_CRC c' copy)).
  intros d d' DR DK DS C1 C2.
  autorewrite with fields. rewrite C1, C2, DR. auto.
Qed.

Lemma loadKey_tail_core s s' n :
  same_core s s' -> length (CRC s) = N -> length (CRC s') = N ->
  R (loadKey_tail s n) = R (loadKey_tail s' n) /\
  CRC (loadKey_tail s n) = CRC (loadKey_tail s' n) /\
  sbuf (loadKey_tail s n) = sbuf (loadKey_tail s' n).
Proof.
  intros H L L'.
  destruct (same_core_cycle _ _ (same_core_addKey s s' n H)) as [Hc Hs].
  destruct (fold_word_frame n s) as (A & _). destruct (fold_word_frame n s') as (A' & _).
  rewrite <- A in L. rewrite <- A' in L'.
  exact (snapshot_core (fold_word s n) (fold_word s' n) Hc Hs L L').
Qed.

Lemma loadKey_core s s' K :
  same_core s s' -> length (CRC s) = N -> length (CRC s') = N ->
  R (loadKey s K) = R (loadKey s' K) /\ CRC (loadKey s K) = CRC (loadKey s' K) /\
  sbuf (loadKey s K) = sbuf (loadKey s' K) /\ konst (loadKey s K) = konst (loadKey s' K).
Proof.
  intros H L L'. rewrite !loadKey_split.
  destruct (loadKey_head_fold K) as (ws & E). rewrite !E.
  assert (Hf := same_core_fold ws s s' H).
  destruct (fold_words_frame ws s) as (A & _ & K1 & _).
  destruct (fold_words_frame ws s') as (A' & _ & K2 & _).
  rewrite <- A in L. rewrite <- A' in L'.
  destruct (loadKey_tail_core _ _ (len K) Hf L L') as (X1 & X2 & X3).
  destruct (loadKey_tail_frame (fold_left fold_word ws s) (len K)) as (_ & Y & _).
  destruct (loadKey_tail_frame (fold_left fold_word ws s') (len K)) as (_ & Y' & _).
  destruct H as [_ HK].
  split; [exact X1|]. split; [exact X2|]. split; [exact X3|]. congruence.
Qed.

Lemma loadKey_frame s K :
  initR (loadKey s K) = initR s /\ konst (loadKey s K) = konst s /\
  mbuf (loadKey s K) = mbuf s /\ nbuf (loadKey s K) = nbuf s.
Proof.
  rewrite loadKey_split. destruct (loadKey_head_fold K) as (ws & E). rewrite E.
  destruct (loadKey_tail_frame (fold_left fold_word ws s) (len K)) as (A & B & C & D).
  destruct (fold_words_frame ws s) as (_ & A' & B' & C' & D').
  split; [congruence|]. split; [congruence|]. split; congruence.
Qed.

End Resets.

Section Rekey.

Lemma initState_R s : length (R s) = N -> R (initState s) = R (initState fresh).
Proof.
  intros H. unfold initState. cbv zeta. autorewrite with fields.
  generalize dependent (R s). intros r H.
  do 17 (destruct r as [|? r]; try discriminate H).
  vm_compute. reflexivity.
Qed.

Lemma agree_set_mbuf s v : nbuf s = 0 -> agree (set_mbuf s v) s.
Proof.
  intros H. unfold agree. autorewrite with fields.
  do 5 (split; [reflexivity|]). intros Hn. contradiction.
Qed.

Lemma key_fields s K :
  let b := loadKey (initState s) K in
  R (key s K) = R b /\ CRC (key s K) = CRC b /\
  initR (key s K) = for_ 0 N (fun i a => set32 a i (get (R b) i)) (initR s) /\
  konst (key s K) = get (R b) 0 /\ sbuf (key s K) = sbuf b /\
  mbuf (key s K) = mbuf s /\ nbuf (key s K) = 0.
Proof.
  intros b. unfold key. cbv zeta. fold b.
  destruct (loadKey_frame (initState s) K) as (A & _ & C & _). fold b in A, C.
  assert (Ai : initR (initState s) = initR s) by reflexivity.
  assert (Ci : mbuf (initState s) = mbuf s) by reflexivity.
  rewrite Ai in A. rewrite Ci in C. clear Ai Ci.
  generalize dependent b. intros b A C.
  unfold saveState, genKonst. autorewrite with fields. rewrite A, C.
  do 6 (split; [reflexivity|]). reflexivity.
Qed.

Lemma key_reset s K : shaped s -> key s K = set_mbuf (key fresh K) (mbuf s).
Proof.
  intros (L1 & L2 & L3).
  destruct (key_fields s K) as (A1 & A2 & A3 & A4 & A5 & A6 & A7).
  destruct (key_fields fresh K) as (B1 & B2 & B3 & B4 & B5 & B6 & B7).
  cbv zeta in *.
  assert (Hc : same_core (initState s) (initState fresh)).
  { split; [now apply initState_R | reflexivity]. }
  destruct (loadKey_core (initState s) (initState fresh) K Hc L2 eq_refl)
    as (X1 & X2 & X3 & X4).
  apply Shannon_eq; autorewrite with fields.
  - congruence.
  - congruence.
  - rewrite A3, B3, X1. now apply overwrite_all.
  - congruence.
  - congruence.
  - exact A6.
  - congruence.
Qed.

Lemma nonce_fields s IV :
  let b := loadKey (set_konst (reloadState s) INITKONST) IV in
  R (nonce s IV) = R b /\ CRC (nonce s IV) = CRC b /\
  initR (nonce s IV) = initR s /\
  konst (nonce s IV) = get (R b) 0 /\ sbuf (nonce s IV) = sbuf b /\
  mbuf (nonce s IV) = mbuf s /\ nbuf (nonce s IV) = 0.
Proof.
  intros b. unfold nonce. cbv zeta. fold b.
  destruct (loadKey_frame (set_konst (reloadState s) INITKONST) IV) as (A & _ & C & _).
  fold b in A, C.
  assert (Ai : initR (set_konst (reloadState s) INITKONST) = initR s) by reflexivity.
  assert (Ci : mbuf (set_konst (reloadState s) INITKONST) = mbuf s) by reflexivity.
  rewrite Ai in A. rewrite Ci in C. clear Ai Ci.
  generalize dependent b. intros b A C.
  unfold genKonst. autorewrite with fields. rewrite A, C.
  do 6 (split; [reflexivity|]). reflexivity.
Qed.

Lemma nonce_reset s s' IV :
  shaped s -> shaped s' -> initR s = initR s' ->
  nonce s IV = set_mbuf (nonce s' IV) (mbuf s).
Proof.
  intros (L1 & L2 & L3) (L1' & L2' & L3') HI.
  destruct (nonce_fields s IV) as (A1 & A2 & A3 & A4 & A5 & A6 & A7).
  destruct (nonce_fields s' IV) as (B1 & B2 & B3 & B4 & B5 & B6 & B7).
  cbv zeta in *.
  assert (Hc : same_core (set_konst (reloadState s) INITKONST)
                         (set_konst (reloadState s') INITKONST)).
  { unfold same_core, reloadState. autorewrite with fields. split; [|reflexivity].
    rewrite HI. now apply overwrite_all. }
  destruct (loadKey_core _ _ IV Hc L2 L2') as (X1 & X2 & X3 & X4).
  apply Shannon_eq; autorewrite with fields; congruence.
Qed.

Lemma initR_exec s o : keeps_key o = true -> initR (exec s o) = initR s.
Proof.
  assert (Hc : forall e, initR e = initR s -> initR (cycle e) = initR s).
  { intros e He. destruct (cycle_frame e) as (_ & F & _). congruence. }
  assert (Hm : forall e v, initR e = initR s -> initR (macFunc e v) = initR s).
  { intros e v He. destruct (macFunc_frame e v) as (F & _). congruence. }
  destruct o as [k|iv|v|m|b|m|m|a]; cbn [exec keeps_key]; intros H; try discriminate.
  - now destruct (nonce_fields s iv) as (_ & _ & A & _).
  - unfold nonce32. cbv zeta. now destruct (nonce_fields s (set8 (set8 (set8 (set8 (newArray 4) 0 (band (sar v 24) 255)) 1 (band (sar v 16) 255)) 2 (band (sar v 8) 255)) 3 (band v 255))) as (_ & _ & A & _).
  - apply (stream_keeps (fun e => initR e = initR s)); auto.
  - apply (macOnly_keeps (fun e => initR e = initR s)); auto.
  - apply (encrypt_keeps (fun e => initR e = initR s)); auto.
  - apply (decrypt_keeps (fun e => initR e = initR s)); auto.
  - apply (finish_keeps (fun e => initR e = initR s)); auto.
Qed.

Lemma initR_execs ops : forall s,
  forallb keeps_key ops = true -> initR (fold_left exec ops s) = initR s.
Proof.
  induction ops as [|o ops IH]; intros s H; cbn [fold_left]; [reflexivity|].
  cbn [forallb] in H. apply andb_prop in H. destruct H as [Ho Hs].
  rewrite IH by exact Hs. now apply initR_exec.
Qed.

Lemma reachable_execs ops : forall s, reachable s -> reachable (fold_left exec ops s).
Proof.
  induction ops as [|o ops IH]; intros s H; cbn [fold_left]; [exact H|].
  apply IH. now constructor.
Qed.

End Rekey.

(** X10.  Re-keying starts over.  On any engine obtained from the
    constructor by public operations, [key] leaves exactly the engine a new
    [Shannon(key)] is, but for a stale [mbuf] that holds no pending bits;
    nothing of the earlier key, nonce or data remains. *)
Theorem key_resets_engine (s : Shannon) (K : list Z) :
  reachable s ->
  key s K = set_mbuf (new (Some K)) (mbuf s) /\ agree (key s K) (new (Some K)).
Proof.
  intros Hr. assert (E := key_reset s K (reachable_shaped s Hr)).
  cbn [new]. split; [exact E|]. rewrite E. now apply agree_set_mbuf.
Qed.

Lemma key_resets_engine_witness :
  let s := exec (exec fresh (OpKey [1; 2; 3])) (OpEncrypt (in_place hello_world)) in
  agree (key s test_key) (new (Some test_key)).
Proof.
  intros s. apply (key_resets_engine s test_key).
  unfold s. apply reach_exec, reach_exec, reach_fresh.
Defined.

(** X11.  Setting a nonce restarts the keyed session.  [stream], [macOnly],
    [encrypt], [decrypt], [finish], [nonce] and [nonce32] never change the
    saved register [initR]; so after any sequence of them, [nonce] leaves
    the engine it leaves when called right after [key], but for a stale
    [mbuf] that holds no pending bits. *)
Theorem nonce_restarts_session (s : Shannon) (ops : list Op) (IV : list Z) :
  reachable s -> forallb keeps_key ops = true ->
  let s' := fold_left exec ops s in
  initR s' = initR s /\
  nonce s' IV = set_mbuf (nonce s IV) (mbuf s') /\
  agree (nonce s' IV) (nonce s IV).
Proof.
  intros Hr Hk s'.
  assert (HI : initR s' = initR s) by now apply initR_execs.
  assert (E : nonce s' IV = set_mbuf (nonce s IV) (mbuf s')).
  { apply nonce_reset; [| |exact HI]; apply reachable_shaped; [|exact Hr].
    now apply reachable_execs. }
  split; [exact HI|]. split; [exact E|]. rewrite E. now apply agree_set_mbuf.
Qed.

Lemma nonce_restarts_session_witness :
  let s := exec fresh (OpKey test_key) in
  let ops := [OpNonce32 0; OpEncrypt (in_place hello_world); OpFinish (Size 4)] in
  agree (nonce (fold_left exec ops s) [0; 0; 0; 1]) (nonce s [0; 0; 0; 1]).
Proof.
  intros s ops.
  refine (proj2 (proj2 (nonce_restarts_session s ops [0; 0; 0; 1] _ _))).
  - unfold s. apply reach_exec, reach_fresh.
  - reflexivity.
Defined.

(** ** An engine without a key *)

Section Unkeyed.

Lemma cycle_unkeyed s :
  R s = newArray N -> konst s = 0 -> R (cycle s) = newArray N /\ sbuf (cycle s) = 0.
Proof.
  intros HR HK.
  destruct (cycle_R_sbuf s fresh HR HK) as [ER ES]. rewrite ER, ES.
  split; vm_compute; reflexivity.
Qed.

Lemma open_stream_unkeyed s :
  unkeyed s -> unkeyed (open_stream s) /\ sbuf (open_stream s) = 0.
Proof.
  intros (HR & HK & HS). unfold open_stream.
  destruct (Z.eqb_spec (nbuf s) 0) as [E|E].
  - destruct (cycle_unkeyed s HR HK) as [CR CS].
    destruct (cycle_frame s) as (_ & _ & CK & _).
    unfold unkeyed. autorewrite with fields. rewrite CR, CK, CS. auto.
  - split; [split; auto|auto].
Qed.

Lemma stream_step_unkeyed s b :
  is_byte b -> unkeyed s ->
  unkeyed (fst (byte_step stream_machine s b)) /\ snd (byte_step stream_machine s b) = b.
Proof.
  intros Hb Hs. destruct (open_stream_unkeyed s Hs) as [(HR & HK & _) HS].
  unfold byte_step. cbn [part opener closer stream_machine]. unfold stream_part.
  cbn [fst snd]. generalize dependent (open_stream s). intros o HR HK HS.
  rewrite HS. split.
  - unfold unkeyed. autorewrite with fields. auto.
  - change (band 0 255) with 0. unfold bxor. change (toInt32 0) with 0.
    rewrite Z.lxor_0_r.
    rewrite toInt32_id by (unfold is_byte in Hb; lia). now apply toUint8_byte.
Qed.

Lemma stream_run_unkeyed P : forall s,
  bytes P -> unkeyed s ->
  unkeyed (fst (run stream_machine s P)) /\ snd (run stream_machine s P) = P.
Proof.
  induction P as [|b P IH]; intros s HB Hs; [split; [exact Hs | reflexivity]|].
  inversion HB as [|? ? Hb HP]; subst.
  destruct (stream_step_unkeyed s b Hb Hs) as [U E].
  cbn [run]. destruct (byte_step stream_machine s b) as [s1 o]. cbn [fst snd] in U, E.
  destruct (IH s1 HP U) as [U' E'].
  destruct (run stream_machine s1 P) as [s2 os]. cbn [fst snd] in *.
  split; [exact U' | congruence].
Qed.

End Unkeyed.

(** X12.  No key, no encryption.  On an engine constructed without a key
    (and never keyed) the register stays zero, so [stream] returns every byte
    array (shorter than 2^31) unchanged; no error is raised. *)
Theorem stream_without_key (P : list Z) :
  bytes P -> len P < 2 ^ 31 ->
  returned (snd (stream (new None) (in_place P))) = P /\
  R (fst (stream (new None) (in_place P))) = newArray N.
Proof.
  intros HB HL. cbn [new].
  destruct (stream_run fresh P (or_introl eq_refl) HB HL) as (s1 & E & A).
  assert (U : unkeyed fresh) by (repeat split).
  destruct (stream_run_unkeyed P fresh HB U) as [(UR & _) EP].
  rewrite E. cbn [fst snd returned in_place output buffer].
  split; [exact EP|]. destruct A as (AR & _). congruence.
Qed.

Lemma stream_without_key_witness :
  returned (snd (stream (new None) (in_place hello_world))) = hello_world.
Proof.
  apply (stream_without_key hello_world).
  - repeat constructor; unfold is_byte; lia.
  - vm_compute. reflexivity.
Defined.

Section Nonce32Wrap.

Lemma toInt32_wrap v k : toInt32 (v + k * 2 ^ 32) = toInt32 v.
Proof.
  unfold toInt32. replace (v + k * 2 ^ 32 + 2 ^ 31) with (v + 2 ^ 31 + k * 2 ^ 32) by lia.
  now rewrite Z.mod_add by lia.
Qed.

End Nonce32Wrap.

(** X15.  [nonce32] uses the low 32 bits of its argument only: numbers that
    differ by a multiple of 2^32 (such as -1 and 0xFFFFFFFF) set the same
    nonce. *)
Theorem nonce32_wraps (s : Shannon) (v k : Z) :
  nonce32 s (v + k * 2 ^ 32) = nonce32 s v.
Proof.
  unfold nonce32, sar, band. now rewrite toInt32_wrap.
Qed.

(** ** The register cycle is injective *)

Section CycleInjective.

Lemma toInt32_rotateLeft x d : toInt32 (rotateLeft x d) = rotateLeft x d.
Proof. unfold rotateLeft. apply toInt32_bor. Qed.

(** Rotating by 1 and then by 31 is the identity on 32-bit words. *)
Lemma rotateLeft_1_31 x : rotateLeft (rotateLeft x 1) 31 = toInt32 x.
Proof.
  unfold rotateLeft, bor, shl, shr.
  rewrite !count_neg by lia. rewrite !count_small by lia.
  apply Z.bits_inj'. intros n Hn.
  destruct (Z.eq_dec n 0) as [->|N0];
    [|destruct (Z.lt_ge_cases n 31); [|destruct (Z.eq_dec n 31) as [->|N31]]];
    repeat bits_step; ltb_solve; bool_norm; idx_norm; try reflexivity.
Qed.

Lemma bxor_inj_l a b x : bxor a x = bxor b x -> toInt32 a = toInt32 b.
Proof.
  unfold bxor. intros H.
  rewrite <- (Z.lxor_0_r (toInt32 a)), <- (Z.lxor_nilpotent (toInt32 x)).
  rewrite <- Z.lxor_assoc, H, Z.lxor_assoc, Z.lxor_nilpotent. apply Z.lxor_0_r.
Qed.

Lemma bxor_inj_r a x y : bxor a x = bxor a y -> toInt32 x = toInt32 y.
Proof.
  unfold bxor. intros H. rewrite (Z.lxor_comm _ (toInt32 x)), (Z.lxor_comm _ (toInt32 y)) in H.
  exact (bxor_inj_l x y a H).
Qed.

Lemma rotateLeft_inj a b : rotateLeft a 1 = rotateLeft b 1 -> toInt32 a = toInt32 b.
Proof. intros H. rewrite <- !rotateLeft_1_31. now rewrite H. Qed.

(** The register after [cycle], word by word. *)
Lemma R_cycle_words k r0 r1 r2 r3 r4 r5 r6 r7 r8 r9 r10 r11 r12 r13 r14 r15 s :
  R s = [r0; r1; r2; r3; r4; r5; r6; r7; r8; r9; r10; r11; r12; r13; r14; r15] ->
  konst s = k ->
  let t := toInt32 (bxor (sbox (bxor (bxor r12 r13) k)) (rotateLeft r0 1)) in
  R (cycle s) =
  [toInt32 (bxor (toInt32 r1) (sbox2 (bxor (toInt32 r3) t)));
   toInt32 r2; toInt32 r3; toInt32 r4; toInt32 r5; toInt32 r6; toInt32 r7; toInt32 r8;
   toInt32 r9; toInt32 r10; toInt32 r11; toInt32 r12; toInt32 r13; toInt32 r14;
   toInt32 r15; t].
Proof.
  intros HR HK. unfold cycle. cbv zeta. autorewrite with fields. rewrite HR, HK.
  unfold for_, N. cbn [Nat.sub seq fold_left set32 upd get nth]. reflexivity.
Qed.

Lemma cycle_R_inj s s' :
  register (R s) -> register (R s') -> konst s = konst s' ->
  R (cycle s) = R (cycle s') -> R s = R s'.
Proof.
  intros [HL HI] [HL' HI'] HK HC.
  remember (R s) as r eqn:Er. remember (R s') as r' eqn:Er'.
  do 17 (destruct r as [|? r]; try discriminate HL).
  do 17 (destruct r' as [|? r']; try discriminate HL').
  rewrite (R_cycle_words (konst s) _ _ _ _ _ _ _ _ _ _ _ _ _ _ _ _ s (eq_sym Er) eq_refl) in HC.
  rewrite (R_cycle_words (konst s) _ _ _ _ _ _ _ _ _ _ _ _ _ _ _ _ s' (eq_sym Er') (eq_sym HK)) in HC.
  cbv zeta in HC.
  repeat match goal with H : Forall _ (_ :: _) |- _ => inversion H; clear H; subst end.
  repeat match goal with H : int32 ?x |- _ => rewrite (toInt32_id x H) in HC; revert H end.
  intros. injection HC as E1 E2 E3 E4 E5 E6 E7 E8 E9 E10 E11 E12 E13 E14 E15 E16.
  subst. rewrite E16 in E1.
  repeat rewrite toInt32_bxor in E1. repeat rewrite toInt32_bxor in E16.
  apply bxor_inj_r in E16. rewrite !toInt32_rotateLeft in E16.
  apply rotateLeft_inj in E16.
  apply bxor_inj_l in E1.
  rewrite !toInt32_id in E1, E16 by assumption. now subst.
Qed.

Lemma register_cycle s : register (R s) -> register (R (cycle s)).
Proof.
  intros [HL _]. remember (R s) as r eqn:Er.
  do 17 (destruct r as [|? r]; try discriminate HL).
  rewrite (R_cycle_words (konst s) _ _ _ _ _ _ _ _ _ _ _ _ _ _ _ _ s (eq_sym Er) eq_refl).
  cbv zeta. split; [reflexivity|].
  repeat (constructor; [apply toInt32_range|]). constructor.
Qed.

Lemma cycles_R_inj (l : list nat) : forall s s',
  register (R s) -> register (R s') -> konst s = konst s' ->
  R (fold_left (fun a _ => cycle a) l s) = R (fold_left (fun a _ => cycle a) l s') ->
  R s = R s'.
Proof.
  induction l as [|x l IH]; intros s s' Hr Hr' HK H; cbn [fold_left] in H; [exact H|].
  apply (cycle_R_inj s s' Hr Hr' HK).
  apply IH; [now apply register_cycle | now apply register_cycle | | exact H].
  destruct (cycle_frame s) as (_ & _ & K1 & _).
  destruct (cycle_frame s') as (_ & _ & K2 & _). congruence.
Qed.

End CycleInjective.

(** X13.  [cycle] and [diffuse] never merge two register states: under the
    same [konst], two registers of 16 32-bit words that [cycle] maps to the
    same register are equal, and so are two that [diffuse] maps to the same
    register. *)
Theorem cycle_injective (s s' : Shannon) :
  register (R s) -> register (R s') -> konst s = konst s' ->
  (R (cycle s) = R (cycle s') -> R s = R s') /\
  (R (diffuse s) = R (diffuse s') -> R s = R s').
Proof.
  intros Hr Hr' HK. split.
  - now apply cycle_R_inj.
  - unfold diffuse, for_. now apply cycles_R_inj.
Qed.

Lemma cycle_injective_witness :
  R (initState fresh) = R (set_nbuf (set_mbuf (initState fresh) 5) 8).
Proof.
  assert (E : R (initState fresh) =
              [1; 1; 2; 3; 5; 8; 13; 21; 34; 55; 89; 144; 233; 377; 610; 987])
    by (vm_compute; reflexivity).
  refine (proj1 (cycle_injective (initState fresh)
                   (set_nbuf (set_mbuf (initState fresh) 5) 8) _ _ _) _).
  - split; [reflexivity|]. rewrite E. repeat constructor; unfold int32; lia.
  - split; [reflexivity|]. rewrite R_set_nbuf, R_set_mbuf, E.
    repeat constructor; unfold int32; lia.
  - reflexivity.
  - vm_compute. reflexivity.
Defined.

(** ** Key material as padded words *)

Section KeyWords.

Lemma le_words_whole k : forall ws l,
  length ws = (4 * k)%nat -> le_words (ws ++ l) = le_words ws ++ le_words l.
Proof.
  induction k as [|k IH]; intros ws l H.
  - destruct ws; [reflexivity | discriminate].
  - destruct ws as [|b0 [|b1 [|b2 [|b3 ws]]]]; cbn [length] in H; try lia.
    cbn [app le_words]. rewrite (IH ws l) by lia. reflexivity.
Qed.

Variable K : list Z.

Let body : Shannon * nat -> Shannon * nat :=
  fun '(s, i) =>
    (cycle (addKey s (word_of_bytes (get K i) (get K (i + 1)) (get K (i + 2))
                                    (get K (i + 3)))),
     (i + 4)%nat).

Lemma loadKey_word_loop k : forall pre ws tl s fuel j,
  K = pre ++ ws ++ tl -> length ws = (4 * k)%nat -> (k <= fuel)%nat ->
  (forall q, (q < k)%nat -> Z.of_nat (length pre + 4 * q) < j) ->
  ~ Z.of_nat (length pre + 4 * k) < j ->
  while fuel (fun '(s, i) => Z.of_nat i <? j) body (s, length pre) =
  (fold_left fold_word (le_words ws) s, (length pre + 4 * k)%nat).
Proof.
  induction k as [|k IH]; intros pre ws tl s fuel j HK Hws Hf Hlt Hge.
  - destruct ws; [|discriminate]. rewrite while_stop.
    + cbn [le_words fold_left]. f_equal. lia.
    + apply Z.ltb_ge. rewrite Nat.mul_0_r, Nat.add_0_r in Hge. lia.
  - destruct ws as [|b0 [|b1 [|b2 [|b3 ws]]]]; cbn [length] in Hws; try lia.
    destruct fuel as [|fuel]; [lia|].
    rewrite while_step.
    2:{ apply Z.ltb_lt. specialize (Hlt 0%nat). rewrite Nat.mul_0_r, Nat.add_0_r in Hlt.
        apply Hlt. lia. }
    assert (E : body (s, length pre) =
                (fold_word s (word_of_bytes b0 b1 b2 b3),
                 length (pre ++ [b0; b1; b2; b3]))).
    { unfold body. rewrite HK. cbn [app].
      rewrite !get_at, get_here. cbn [nth]. unfold fold_word.
      rewrite length_app. reflexivity. }
    rewrite E.
    rewrite (IH (pre ++ [b0; b1; b2; b3]) ws tl _ fuel j).
    + cbn [le_words fold_left]. f_equal. rewrite length_app. cbn [length]. lia.
    + rewrite HK, <- app_assoc. reflexivity.
    + lia.
    + lia.
    + intros q Hq. specialize (Hlt (S q)). rewrite length_app. cbn [length].
      replace (length pre + 4 + 4 * q)%nat with (length pre + 4 * S q)%nat by lia.
      apply Hlt. lia.
    + rewrite length_app. cbn [length].
      replace (length pre + 4 + 4 * k)%nat with (length pre + 4 * S k)%nat by lia.
      exact Hge.
Qed.

End KeyWords.

Section KeyTail.

(** The zero padding loop leaves a padded word alone. *)
Lemma pad_loop (a b c : Z) (j : nat) :
  (j = 1%nat /\ b = 0 /\ c = 0) \/ (j = 2%nat /\ c = 0) \/ j = 3%nat ->
  while 4 (fun '(extra, j) => Z.of_nat j <? 4) (fun '(extra, j) => (set8 extra j 0, S j))
        ([a; b; c; 0], j) = ([a; b; c; 0], 4%nat).
Proof. intros [(-> & -> & ->) | [(-> & ->) | ->]]; reflexivity. Qed.

Lemma extra_loop ws tl fuel :
  bytes tl -> (0 < length tl < 4)%nat -> (length tl <= fuel)%nat ->
  exists a b c,
    tl ++ repeat 0 (4 - length tl) = [a; b; c; 0] /\
    while fuel
      (fun '(extra, i, j) => Z.of_nat i <? len (ws ++ tl))
      (fun '(extra, i, j) => (set8 extra j (get (ws ++ tl) i), S i, S j))
      (newArray 4, length ws, 0%nat) = ([a; b; c; 0], length (ws ++ tl), length tl) /\
    ((length tl = 1%nat /\ b = 0 /\ c = 0) \/ (length tl = 2%nat /\ c = 0) \/
     length tl = 3%nat).
Proof.
  intros HB HL Hf.
  assert (H0 : forall k, (k < length tl)%nat ->
             (Z.of_nat (length ws + k) <? len (ws ++ tl)) = true).
  { intros k Hk. apply Z.ltb_lt. rewrite len_app. unfold len. lia. }
  assert (H1 : (Z.of_nat (length ws + length tl) <? len (ws ++ tl)) = false).
  { apply Z.ltb_ge. rewrite len_app. unfold len. lia. }
  destruct tl as [|a [|b [|c [|d tl]]]]; cbn [length] in *; try lia.
  - exists a, 0, 0. split; [reflexivity|].
    inversion HB as [|? ? Ha _]; subst.
    destruct fuel as [|fuel]; [lia|]. split; [|auto].
    rewrite while_step by (rewrite <- (Nat.add_0_r (length ws)); apply H0; lia).
    rewrite while_stop by (rewrite <- Nat.add_1_r; exact H1).
    rewrite get_here. unfold newArray, set8. cbn [repeat upd].
    rewrite (toUint8_byte a Ha), length_app. cbn [length]. f_equal. f_equal. lia.
  - exists a, b, 0. split; [reflexivity|].
    inversion HB as [|? ? Ha HB1]; subst. inversion HB1 as [|? ? Hb _]; subst.
    destruct fuel as [|[|fuel]]; try lia. split; [|auto].
    rewrite while_step by (rewrite <- (Nat.add_0_r (length ws)); apply H0; lia).
    rewrite while_step by (rewrite <- Nat.add_1_r; apply H0; lia).
    rewrite while_stop
      by (replace (S (S (length ws))) with (length ws + 2)%nat by lia; exact H1).
    rewrite get_here. rewrite <- (Nat.add_1_r (length ws)), get_at. cbn [nth].
    unfold newArray, set8. cbn [repeat upd].
    rewrite (toUint8_byte a Ha), (toUint8_byte b Hb), length_app. cbn [length].
    f_equal. f_equal. lia.
  - exists a, b, c. split; [reflexivity|].
    inversion HB as [|? ? Ha HB1]; subst. inversion HB1 as [|? ? Hb HB2]; subst.
    inversion HB2 as [|? ? Hc _]; subst.
    destruct fuel as [|[|[|fuel]]]; try lia. split; [|auto].
    rewrite while_step by (rewrite <- (Nat.add_0_r (length ws)); apply H0; lia).
    rewrite while_step by (rewrite <- Nat.add_1_r; apply H0; lia).
    rewrite while_step
      by (replace (S (S (length ws))) with (length ws + 2)%nat by lia; apply H0; lia).
    rewrite while_stop
      by (replace (S (S (S (length ws)))) with (length ws + 3)%nat by lia; exact H1).
    rewrite get_here. rewrite <- (Nat.add_1_r (length ws)), get_at.
    replace (S (length ws + 1)) with (length ws + 2)%nat by lia. rewrite get_at.
    cbn [nth]. unfold newArray, set8. cbn [repeat upd].
    rewrite (toUint8_byte a Ha), (toUint8_byte b Hb), (toUint8_byte c Hc), length_app.
    cbn [length]. f_equal. f_equal. lia.
Qed.

Lemma pad4_whole ws k : length ws = (4 * k)%nat -> pad4 ws = ws.
Proof.
  intros H. unfold pad4. rewrite H.
  replace (4 * k)%nat with (0 + k * 4)%nat by lia.
  rewrite Nat.Div0.mod_add. cbn [Nat.modulo Nat.sub repeat]. apply app_nil_r.
Qed.

Lemma pad4_tail ws tl k :
  length ws = (4 * k)%nat -> (0 < length tl < 4)%nat ->
  pad4 (ws ++ tl) = ws ++ tl ++ repeat 0 (4 - length tl).
Proof.
  intros H Ht. unfold pad4. rewrite length_app, H.
  replace (4 * k + length tl)%nat with (length tl + k * 4)%nat by lia.
  rewrite Nat.Div0.mod_add. rewrite (Nat.mod_small (length tl)) by lia.
  rewrite (Nat.mod_small (4 - length tl)) by lia. now rewrite app_assoc.
Qed.

Lemma loadKey_head_words s K :
  bytes K -> len K < 2 ^ 31 ->
  loadKey_head s K = fold_left fold_word (le_words (pad4 K)) s.
Proof.
  intros HB HL. destruct (split_words K) as (k & ws & tl & HK & Hws & Htl).
  assert (H0 := len_nonneg K).
  assert (Ej : band (len K) (bnot 3) = Z.of_nat (4 * k)).
  { rewrite band_not3 by lia. rewrite HK, len_app. unfold len. rewrite Hws.
    assert (0 <= Z.of_nat (length tl) < 4) by lia.
    Z.div_mod_to_equations. lia. }
  unfold loadKey_head. cbv zeta. rewrite Ej.
  assert (W := loadKey_word_loop K k [] ws tl s (length K) (Z.of_nat (4 * k))).
  cbn [length Nat.add] in W. rewrite W; try assumption.
  - destruct (Nat.eq_dec (length tl) 0) as [Z0|NZ].
    + destruct tl; [|discriminate Z0].
      rewrite app_nil_r in HK. subst K.
      rewrite (proj2 (Z.ltb_ge _ _)) by (unfold len; lia).
      now rewrite (pad4_whole ws k Hws).
    + assert (Ht : (0 < length tl < 4)%nat) by lia.
      rewrite (proj2 (Z.ltb_lt _ _)) by (rewrite HK, len_app; unfold len; lia).
      assert (HBt : bytes tl) by (rewrite HK in HB; apply bytes_app in HB; apply HB).
      rewrite HK, <- Hws.
      destruct (extra_loop ws tl (length (ws ++ tl)) HBt Ht) as (a & b & c & Ep & Ew & Hj).
      { rewrite length_app. lia. }
      rewrite Ew. rewrite (pad_loop a b c (length tl) Hj).
      rewrite (pad4_tail ws tl k Hws Ht), Ep.
      rewrite (le_words_whole k ws _ Hws). rewrite fold_left_app.
      cbn [le_words fold_left get nth]. reflexivity.
  - rewrite HK, length_app. lia.
  - intros q Hq. lia.
  - lia.
Qed.

End KeyTail.

(** X14.  Key material is folded in as little-endian words, zero padded.
    For every byte array shorter than 2^31, [loadKey] (so [key] and [nonce])
    folds into the register the little-endian 32-bit words of the array
    padded with zero bytes to a multiple of 4, each followed by a [cycle],
    and then the length of the unpadded array. *)
Theorem loadKey_padded_words (s : Shannon) (K : list Z) :
  bytes K -> len K < 2 ^ 31 ->
  loadKey s K = loadKey_tail (fold_left fold_word (le_words (pad4 K)) s) (len K).
Proof.
  intros HB HL. now rewrite loadKey_split, loadKey_head_words.
Qed.

Lemma loadKey_padded_words_witness :
  loadKey (initState fresh) test_key =
  loadKey_tail (fold_left fold_word (le_words (pad4 test_key)) (initState fresh))
               (len test_key).
Proof.
  apply (loadKey_padded_words (initState fresh) test_key).
  - repeat constructor; unfold is_byte; lia.
  - vm_compute. reflexivity.
Defined.

(** ** Saving and reloading the register *)

Section SaveReload.

Lemma copy_all (src dst : list Z) :
  length src = N -> Forall int32 src -> length dst = N ->
  for_ 0 N (fun i a => set32 a i (get src i)) dst = src.
Proof.
  intros Hs Hi Hd.
  do 17 (destruct src as [|? src]; try discriminate Hs).
  do 17 (destruct dst as [|? dst]; try discriminate Hd).
  repeat match goal with H : Forall _ (_ :: _) |- _ => inversion H; clear H; subst end.
  unfold for_, N. cbn [seq fold_left set32 upd get nth].
  rewrite !toInt32_id by assumption. reflexivity.
Qed.

End SaveReload.

(** X16.  [reloadState] restores what [saveState] saved.  For an engine whose
    register holds 16 32-bit words: after [saveState], whatever 16 words
    the register is overwritten with, [reloadState] puts the saved register
    back. *)
Theorem saveState_reloadState (s : Shannon) (r : list Z) :
  register (R s) -> length (initR s) = N -> length r = N ->
  R (reloadState (set_R (saveState s) r)) = R s /\
  initR (saveState s) = R s.
Proof.
  intros [HL HI] Hi Hr.
  assert (E : initR (saveState s) = R s).
  { unfold saveState. autorewrite with fields. now apply copy_all. }
  split; [|exact E].
  unfold reloadState. autorewrite with fields. rewrite E. now apply copy_all.
Qed.

Lemma saveState_reloadState_witness :
  R (reloadState (set_R (saveState (initState fresh)) (newArray N))) = R (initState fresh).
Proof.
  assert (E : R (initState fresh) =
              [1; 1; 2; 3; 5; 8; 13; 21; 34; 55; 89; 144; 233; 377; 610; 987])
    by (vm_compute; reflexivity).
  apply (saveState_reloadState (initState fresh) (newArray N)).
  - split; [reflexivity|]. rewrite E. repeat constructor; unfold int32; lia.
  - reflexivity.
  - reflexivity.
Defined.

(** ** The CRC of a trailing partial word *)

Section PaddedCrc.

Lemma absorb_one a : bxor 0 (shl (band a 0xFF) 0) = word_of_bytes a 0 0 0.
Proof. unfold_ops. bitblast. Qed.

Lemma absorb_two a b :
  bxor (bxor 0 (shl (band a 0xFF) 0)) (shl (band b 0xFF) 8) = word_of_bytes a b 0 0.
Proof. unfold_ops. bitblast. Qed.

Lemma absorb_three a b c :
  bxor (bxor (bxor 0 (shl (band a 0xFF) 0)) (shl (band b 0xFF) 8)) (shl (band c 0xFF) 16)
  = word_of_bytes a b c 0.
Proof. unfold_ops. bitblast. Qed.

(** The engine of the machine in the middle of a word: the bytes seen so
    far are staged in [mbuf], zero padded. *)
Lemma enc_tail_state s tl :
  nbuf s = 0 -> (0 < length tl < 4)%nat ->
  let m := fst (run enc_machine s tl) in
  nbuf m <> 0 /\ CRC m = CRC s /\
  [mbuf m] = le_words (tl ++ repeat 0 (4 - length tl)).
Proof.
  intros Hs Ht m.
  assert (E : run enc_machine s tl = parts enc_machine (open_word s) tl).
  { assert (Hne : tl <> []) by (intros ->; cbn [length] in Ht; lia).
    rewrite <- (run_open enc_machine) by (auto using open_word_idle, open_word_busy).
    apply (run_parts_lt enc_machine); auto using open_word_busy, close_word_busy.
    cbn [opener enc_machine]. rewrite open_word_idle by assumption. unfold len. lia. }
  unfold m. rewrite E. split; [|split].
  - rewrite (parts_nbuf enc_machine) by reflexivity.
    rewrite open_word_idle by assumption. unfold len. lia.
  - rewrite enc_parts_CRC. apply CRC_open_word.
  - unfold open_word. rewrite Hs. cbn [Z.eqb].
    generalize (cycle s). intros c.
    destruct tl as [|a [|b [|d [|x tl]]]]; cbn [length] in Ht; try lia;
      cbn [parts part enc_machine]; unfold enc_part, absorb; cbn [fst snd];
      autorewrite with fields; cbn [length Nat.sub repeat app le_words];
      change (32 - 32) with 0; change (32 - 8) with 24; change (32 - 24) with 8;
      change (24 - 8) with 16; change (32 - 16) with 16.
    + now rewrite absorb_one.
    + now rewrite absorb_two.
    + now rewrite absorb_three.
Qed.

Lemma enc_run_finish_CRC s P :
  nbuf s = 0 ->
  let m := fst (run enc_machine s P) in
  CRC (if negb (nbuf m =? 0) then macFunc m (mbuf m) else m) =
  fold_left crc_push (le_words (pad4 P)) (CRC s).
Proof.
  intros Hs m. destruct (split_words P) as (k & ws & tl & HP & Hw & Ht).
  destruct (enc_words_CRC k ws s Hw Hs) as [E N0].
  unfold m. rewrite HP, run_app. cbn [fst].
  destruct (Nat.eq_dec (length tl) 0) as [Z0|NZ].
  - destruct tl; [|discriminate Z0]. cbn [run fst]. rewrite N0. cbn [Z.eqb negb].
    rewrite app_nil_r, (pad4_whole ws k Hw). exact E.
  - assert (Ht' : (0 < length tl < 4)%nat) by lia.
    destruct (enc_tail_state _ tl N0 Ht') as (Hn & Hc & Hm). cbv zeta in Hn, Hc, Hm.
    destruct (Z.eqb_spec (nbuf (fst (run enc_machine (fst (run enc_machine s ws)) tl))) 0)
      as [E0|E0]; [contradiction|]. cbn [negb].
    rewrite CRC_macFunc, Hc, E.
    rewrite (pad4_tail ws tl k Hw Ht'), (le_words_whole k ws _ Hw), <- Hm.
    rewrite fold_left_app. reflexivity.
Qed.

End PaddedCrc.

(** X17.  [finish] accumulates a trailing partial word zero padded.  From an
    engine with no buffered bits, after [encrypt] or [macOnly] of a byte
    array [P] shorter than 2^31, [finish] leaves in the CRC register the
    accumulation of the little-endian words of [P] padded with zero bytes to
    a multiple of 4. *)
Theorem finish_crc_zero_padded (s : Shannon) (P : list Z) (a : FinishArg) :
  nbuf s = 0 -> bytes P -> len P < 2 ^ 31 ->
  CRC (fst (finish (fst (encrypt s (in_place P))) a)) =
    fold_left crc_push (le_words (pad4 P)) (CRC s) /\
  CRC (fst (finish (macOnly s P) a)) =
    fold_left crc_push (le_words (pad4 P)) (CRC s).
Proof.
  intros Hs HB HL.
  assert (Ha : aligned s) by (left; exact Hs).
  destruct (encrypt_run s P Ha HB HL) as (s1 & E1 & A1).
  assert (Am := macOnly_run s P Ha HB HL). rewrite mac_run_enc in Am.
  rewrite E1. cbn [fst].
  destruct (finish_agree _ _ a A1) as [_ F1].
  destruct (finish_agree _ _ a Am) as [_ F2].
  rewrite (agree_CRC _ _ F1), (agree_CRC _ _ F2), finish_CRC.
  split; now apply enc_run_finish_CRC.
Qed.

Lemma finish_crc_zero_padded_witness :
  let s := new (Some test_key) in
  CRC (fst (finish (fst (encrypt s (in_place hello_world))) (Size 4))) =
    fold_left crc_push (le_words (pad4 hello_world)) (CRC s).
Proof.
  intros s.
  refine (proj1 (finish_crc_zero_padded s hello_world (Size 4) _ _ _)).
  - vm_compute. reflexivity.
  - repeat constructor; unfold is_byte; lia.
  - vm_compute. reflexivity.
Defined.

(** ** The tag of a sequence of calls *)

Section Pieces.

Lemma piece_step_run s p :
  aligned s -> bytes (piece_input p) -> len (piece_input p) < 2 ^ 31 ->
  let x := snd (piece_step s p) in
  agree (fst (piece_step s p)) (fst (run mac_machine s x)) /\
  bytes x /\ length x = length (piece_input p) /\ aligned (fst (piece_step s p)).
Proof.
  intros Ha HB HL x. unfold x. clear x.
  destruct p as [b|b|c]; cbn [piece_step piece_input fst snd] in *.
  - split; [now apply macOnly_run|]. split; [exact HB|]. split; [reflexivity|].
    exact (exec_aligned s (OpMacOnly b) Ha).
  - destruct (encrypt_run s b Ha HB HL) as (s1 & E1 & A1).
    split; [|split; [exact HB|split; [reflexivity|exact (exec_aligned s (OpEncrypt _) Ha)]]].
    rewrite E1, mac_run_enc. exact A1.
  - destruct (decrypt_run s c Ha HB HL) as (s1 & E1 & A1).
    split; [|split; [|split; [|exact (exec_aligned s (OpDecrypt _) Ha)]]].
    + rewrite E1. cbn [fst snd returned in_place output buffer].
      rewrite mac_run_enc, (enc_dec_run c s HB). exact A1.
    + rewrite E1. cbn [snd returned in_place output buffer]. apply dec_run_bytes.
    + rewrite E1. cbn [snd returned in_place output buffer]. apply dec_run_length.
Qed.

Lemma pieces_run ps : forall s,
  aligned s ->
  bytes (concat (map piece_input ps)) -> len (concat (map piece_input ps)) < 2 ^ 31 ->
  let P := snd (pieces s ps) in
  agree (fst (pieces s ps)) (fst (run mac_machine s P)) /\
  bytes P /\ length P = length (concat (map piece_input ps)).
Proof.
  induction ps as [|p ps IH]; intros s Ha HB HL; cbv zeta.
  - cbn [pieces fst snd run]. split; [apply agree_refl|]. split; [constructor|reflexivity].
  - cbn [map concat] in HB, HL. apply bytes_app in HB. destruct HB as [HB1 HB2].
    rewrite len_app in HL.
    assert (H1 := len_nonneg (piece_input p)).
    assert (H2 := len_nonneg (concat (map piece_input ps))).
    destruct (piece_step_run s p Ha HB1) as (A1 & B1 & L1 & Al1); [lia|].
    cbv zeta in A1, B1, L1.
    cbn [pieces]. destruct (piece_step s p) as [s1 x]. cbn [fst snd] in *.
    destruct (IH s1 Al1 HB2) as (A2 & B2 & L2); [lia|]. cbv zeta in A2, B2, L2.
    destruct (pieces s1 ps) as [s2 xs]. cbn [fst snd] in *.
    split; [|split].
    + rewrite run_app. cbn [fst].
      apply (agree_trans _ _ _ A2).
      apply (run_rel_any mac_machine agree agree_refl open_word_agree). exact A1.
    + apply bytes_app. auto.
    + cbn [map concat]. rewrite !length_app. congruence.
Qed.

End Pieces.

(** X18.  The tag depends on the plaintext as a whole, not on how it was
    fed.  From any engine whose buffered bit count is a multiple of 8, after
    any sequence of in-place [macOnly], [encrypt] and [decrypt] calls over
    byte arrays (fewer than 2^31 bytes in all), the engine is the one a
    single [macOnly] leaves on the concatenation of the plaintexts (up to
    staging words that hold no pending bits), so [finish] returns the tag of
    that concatenation. *)
Theorem tag_of_pieces (s : Shannon) (ps : list Piece) :
  aligned s ->
  bytes (concat (map piece_input ps)) -> len (concat (map piece_input ps)) < 2 ^ 31 ->
  let P := snd (pieces s ps) in
  agree (fst (pieces s ps)) (macOnly s P) /\
  forall a, snd (finish (fst (pieces s ps)) a) = snd (finish (macOnly s P) a).
Proof.
  intros Ha HB HL P.
  destruct (pieces_run ps s Ha HB HL) as (A & B & L). fold P in A, B, L.
  assert (HLP : len P < 2 ^ 31) by (unfold len in *; rewrite L; exact HL).
  assert (Am := macOnly_run s P Ha B HLP).
  assert (A' : agree (fst (pieces s ps)) (macOnly s P))
    by (apply (agree_trans _ _ _ A); now apply agree_sym).
  split; [exact A'|]. intros a. exact (proj1 (finish_agree _ _ a A')).
Qed.

Lemma tag_of_pieces_witness :
  let s := new (Some test_key) in
  let ps := [Mac [1; 2; 3]; Enc hello_world; Mac []; Dec [9; 8; 7; 6; 5]] in
  snd (finish (fst (pieces s ps)) (Size 16)) =
  snd (finish (macOnly s (snd (pieces s ps))) (Size 16)).
Proof.
  intros s ps.
  refine (proj2 (tag_of_pieces s ps _ _ _) (Size 16)).
  - left. vm_compute. reflexivity.
  - repeat constructor; unfold is_byte; lia.
  - vm_compute. reflexivity.
Defined.

(** ** What feeds the CRC register *)

Section CrcOfPieces.

Lemma crc_of_pieces s ps :
  nbuf s = 0 ->
  bytes (concat (map piece_input ps)) -> len (concat (map piece_input ps)) < 2 ^ 31 ->
  let P := snd (pieces s ps) in
  CRC (fst (pieces s ps)) = fold_left crc_push (le_words P) (CRC s) /\
  forall a, CRC (fst (finish (fst (pieces s ps)) a)) =
            fold_left crc_push (le_words (pad4 P)) (CRC s).
Proof.
  intros Hs HB HL P. assert (Ha : aligned s) by (left; exact Hs).
  destruct (pieces_run ps s Ha HB HL) as (A & _ & _). fold P in A.
  rewrite mac_run_enc in A. split.
  - rewrite (agree_CRC _ _ A). now apply enc_run_CRC.
  - intros a. destruct (finish_agree _ _ a A) as [_ F].
    rewrite (agree_CRC _ _ F), finish_CRC. now apply enc_run_finish_CRC.
Qed.

End CrcOfPieces.

(** C8, amended (what feeds the CRC register).  [macFunc] changes [CRC] by
    one [crcFunc] step.  [stream] leaves [CRC] and [mbuf] as they were, for
    every engine and every pair of arrays; the end-of-input perturbation of
    [finish] ([cycle], then [addKey] of [INITKONST ^ (nbuf << 3)]) leaves
    [CRC] as it was, and [finish] as a whole changes [CRC] at most by one
    [crcFunc] step, of [mbuf], when bits are buffered.  From an engine with
    no bits buffered (as [key], [nonce] and [finish] leave it): after one
    in-place [encrypt], [macOnly] or [decrypt] of fewer than 2^31 bytes, and
    more generally after any sequence of such calls over fewer than 2^31
    bytes in all, [CRC] is the initial register updated with the complete
    little-endian words of the concatenated plaintext, one [crcFunc] step
    per word, and with nothing else; a following [finish] adds the trailing
    partial word, zero padded. *)
Theorem crc_fed_by_plaintext_words :
  (forall s i,
      CRC (crcFunc s i) = crc_push (CRC s) i /\ CRC (macFunc s i) = CRC (crcFunc s i)) /\
  (forall s m, CRC (fst (stream s m)) = CRC s /\ mbuf (fst (stream s m)) = mbuf s) /\
  (forall s, CRC (addKey (cycle s) (bxor INITKONST (shl (nbuf (cycle s)) 3))) = CRC s) /\
  (forall s a,
      CRC (fst (finish s a)) =
      CRC (if negb (nbuf s =? 0) then macFunc s (mbuf s) else s)) /\
  (forall s P,
      nbuf s = 0 -> bytes P -> len P < 2 ^ 31 ->
      CRC (fst (encrypt s (in_place P))) = fold_left crc_push (le_words P) (CRC s) /\
      CRC (macOnly s P) = fold_left crc_push (le_words P) (CRC s) /\
      CRC (fst (decrypt s (in_place P))) =
        fold_left crc_push (le_words (returned (snd (decrypt s (in_place P))))) (CRC s)) /\
  (forall s ps,
      nbuf s = 0 ->
      bytes (concat (map piece_input ps)) -> len (concat (map piece_input ps)) < 2 ^ 31 ->
      let P := snd (pieces s ps) in
      CRC (fst (pieces s ps)) = fold_left crc_push (le_words P) (CRC s) /\
      forall a, CRC (fst (finish (fst (pieces s ps)) a)) =
                fold_left crc_push (le_words (pad4 P)) (CRC s)).
Proof.
  split; [intros s i; split; [apply CRC_crcFunc | reflexivity]|].
  split; [exact stream_CRC_mbuf|].
  split; [intros s; rewrite CRC_addKey; apply CRC_cycle|].
  split; [exact finish_CRC|].
  split; [exact crc_of_single_calls | exact crc_of_pieces].
Qed.

Lemma crc_fed_by_plaintext_words_witness :
  let s := session test_key None in
  let ps := [Mac [1; 2; 3]; Enc hello_world; Dec [9; 8; 7; 6; 5]] in
  let P := snd (pieces s ps) in
  CRC (fst (pieces s ps)) = fold_left crc_push (le_words P) (CRC s) /\
  forall a, CRC (fst (finish (fst (pieces s ps)) a)) =
            fold_left crc_push (le_words (pad4 P)) (CRC s).
Proof.
  intros s ps.
  refine (proj2 (proj2 (proj2 (proj2 (proj2 crc_fed_by_plaintext_words)))) s ps _ _ _).
  - reflexivity.
  - repeat constructor; unfold is_byte; lia.
  - vm_compute. reflexivity.
Defined.

(** C8 fails on the code.  With the package's test key:
    - an engine that encrypted the byte 1 before [nonce] and one that did
      not have, after the same [nonce], the same [CRC] and no bits buffered;
      after the same [stream] of one byte and [finish], the first has
      accumulated the word 1 (the byte fed before [nonce]) and the second
      the word 0, neither a plaintext word fed since [nonce], and the tags
      differ;
    - [decrypt] continuing a word with a distinct output array accumulates
      the ciphertext bytes 81 e5 a9, where the in-place call accumulates the
      plaintext bytes 65 6c 6c. *)
Lemma crc_fed_by_other_words :
  let e := new (Some test_key) in
  let a := nonce (fst (encrypt e (in_place [1]))) [0; 0; 0; 1] in
  let b := nonce e [0; 0; 0; 1] in
  let fa := finish (fst (stream a (in_place [0]))) (Size 4) in
  let fb := finish (fst (stream b (in_place [0]))) (Size 4) in
  let d := fst (decrypt e (in_place [0x94])) in
  let c := [0x81; 0xe5; 0xa9] in
  (CRC a = CRC b /\ nbuf a = 0 /\ nbuf b = 0 /\
   CRC (fst fa) = crc_push (CRC a) 1 /\
   CRC (fst fb) = crc_push (CRC b) 0 /\
   CRC (fst fa) <> CRC (fst fb) /\
   CRC (fst fb) <> CRC b /\
   snd fa <> snd fb) /\
  (CRC (fst (decrypt d (in_place c))) =
     crc_push (CRC e) (word_of_bytes 0x48 0x65 0x6c 0x6c) /\
   CRC (fst (decrypt d (into c (newArray 3)))) =
     crc_push (CRC e) (word_of_bytes 0x48 0x81 0xe5 0xa9) /\
   CRC (fst (decrypt d (into c (newArray 3)))) <> CRC (fst (decrypt d (in_place c)))).
Proof.
  vm_compute.
  repeat split; try reflexivity; intros H; discriminate H.
Qed.

(** ** The package's other tests *)

(** The package's second test: key, [nonce32(0)], [encrypt], [finish(4)]. *)
Lemma librespot_vector :
  let s := nonce32 (new (Some librespot_key)) 0 in
  let enc := encrypt s (in_place librespot_data) in
  returned (snd enc) = librespot_encrypted /\
  snd (finish (fst enc) (Size 4)) = [0xb5; 0x11; 0xbc; 0x3a].
Proof. vm_compute. split; reflexivity. Qed.

(** The package's third test: [decrypt] of the first vector, then the tag. *)
Lemma hello_world_decrypt_vector :
  let dec := decrypt (new (Some test_key))
               (in_place [0x94; 0x81; 0xe5; 0xa9; 0x5f; 0x93; 0x5e; 0xcb; 0x6c; 0xb5; 0x24]) in
  returned (snd dec) = hello_world /\
  snd (finish (fst dec) (Into (newArray 16))) =
    [0x43; 0x23; 0x86; 0x24; 0xf3; 0xc9; 0x0c; 0x58;
     0x79; 0xf4; 0xd3; 0xef; 0x83; 0x98; 0x2e; 0x4e].
Proof. vm_compute. split; reflexivity. Qed.
